(** * GMES field-update engine ([gmes/fdtd.py]): a shallow embedding

    The engine is modelled as the source writes it: the six field arrays,
    the six material grids, the locks and the time state form an explicit
    [State]; every method body is a [Worker] that emits the atomic actions
    it performs; [threading.Thread] start/join blocks are the
    interleavings of the workers' action lists; the main thread is a
    relation between states, labelled by the trace of actions.

    Scalars (field samples, spacings, the time step, the step counter) are
    rationals: the source adds and multiplies them and nothing else. *)

From stdpp Require Import base option list gmap strings.
From Stdlib Require Import ZArith QArith Lia Lqa.

Open Scope Z_scope.

(** ** Data model *)

Inductive Component := Ex | Ey | Ez | Hx | Hy | Hz.

#[global] Instance Component_eq_dec : EqDecision Component.
Proof. solve_decision. Defined.

Definition is_electric (c : Component) : bool :=
  match c with Ex | Ey | Ez => true | Hx | Hy | Hz => false end.

Definition is_magnetic (c : Component) : bool := negb (is_electric c).

(** A numpy index / shape triple. *)
Definition Idx : Type := Z * Z * Z.
Definition Shape : Type := Z * Z * Z.

Definition ix0 (i : Idx) : Z := i.1.1.
Definition ix1 (i : Idx) : Z := i.1.2.
Definition ix2 (i : Idx) : Z := i.2.

(** A point of simulation space. *)
Definition Coord : Type := (Q * Q * Q)%type.

(** [numpy.ndindex(s0, s1, s2)] and [ndarray.flat] both walk an array in
    C order: the last index varies fastest. *)
Definition ndindex (sh : Shape) : list Idx :=
  i ← seqZ 0 (ix0 sh); j ← seqZ 0 (ix1 sh); k ← seqZ 0 (ix2 sh); [(i, j, k)].

(** A field storage array: its shape and its samples. *)
Record Array := mkArray { arr_shape : Shape; arr_data : gmap Idx Q }.

(** Material laws are opaque objects of the external catalog; a law is
    identified by its name. *)
Definition Material : Type := string.

(** A geometric object as the classifier returns it: the engine reads
    only its [material] attribute. *)
Record GeomObj := mkGeom { geom_name : string; material : Material }.

(** The update-rule objects stored in a material grid, named by the call
    that created them:
    - [Dummy c idx eps] is [DummyEx(idx, eps)], [DummyEy(idx, eps)], ...;
    - [Pointwise m c idx co] is [m.get_pointwise_material_<c>(idx, co)];
    - [Excited tag mo] is a rule a source descriptor installed on top of
      the rule [mo] it found in the cell. *)
Inductive PwMaterial :=
| Dummy (c : Component) (idx : Idx) (epsilon : Z)
| Pointwise (m : Material) (c : Component) (idx : Idx) (co : Coord)
| Excited (tag : string) (under : PwMaterial).

Definition is_dummy (mo : PwMaterial) : bool :=
  match mo with Dummy _ _ _ => true | _ => false end.

(** A material grid: a numpy object array, a cell is either unassigned
    (as the storage service delivered it) or holds a rule. *)
Abbreviation Grid := (gmap Idx PwMaterial).

(** The discretization service; [get_storage c] is [get_ex_storage()],
    ..., [get_material_storage c] is [get_material_ex_storage()], ... *)
Record Space := mkSpace {
  dx : Q; dy : Q; dz : Q; dt : Q;
  index_to_space : Component -> Idx -> Coord;
  space_to_index : Component -> option Coord -> Idx;
  get_storage : Component -> Array;
  get_material_storage : Component -> gmap Idx PwMaterial
}.

(** A source descriptor: [so.set_pointwise_source_<c>(material_c, space)]
    mutates the grid it is handed. *)
Record Source := mkSource {
  src_name : string;
  set_pointwise_source : Component -> Space -> Grid -> Grid
}.

(** One call of the external HDF5 writer:
    [write_hdf5(data, name, low_idx, high_idx)]. *)
Record Hdf5Call := mkHdf5 {
  h5_data : Array; h5_name : string; h5_low : Idx; h5_high : Idx
}.

(** [TimeStep]: the counter [n] and the time [t]. The two attributes
    are Python floats; [n] and [t] are the numbers they stand for, and
    the sums and products taken on them are those of the numbers. A
    binary64 sum or product is this exact result whenever the result is
    itself a binary64 number, and the nearest such number otherwise:
    what is stated of [n] and [t] holds of the floats where every result
    is a binary64 number, as with the counters reached from zero (see
    [binary64]) and with a time step whose products with them are such
    numbers; elsewhere the floats differ from [n] and [t] by the
    rounding of each operation. *)
Record TimeStep := mkTime { n : Q; t : Q }.

(** The attributes of an engine instance that its methods read or write.
    [geom_tree] is [self.geom_tree.object_of_point]; [None] is a failed
    classification. *)
Record State := mkState {
  space : Space;
  st_dx : Q; st_dy : Q; st_dz : Q; st_dt : Q;
  time_step : TimeStep;
  geom_tree : Coord -> option GeomObj;
  src_list : list Source;
  field : Component -> Array;
  material_grid : Component -> Grid;
  lock : Component -> bool;
  hdf5_log : list Hdf5Call
}.

(** The methods that run as thread targets or are called directly. *)
Inductive Method :=
| m_init_material (c : Component)
| m_init_source (c : Component)
| m_update (c : Component)
| m_write (c : Component).

Inductive Exn :=
| ClassificationError (co : Coord)
| NoUpdateRule (c : Component) (idx : Idx).

(** The atomic actions of the engine's methods. *)
Inductive Action :=
| ThreadStart (m : Method)
| ThreadEnd (m : Method)
| ThreadDied (m : Method) (e : Exn)
| Acquire (c : Component)
| Release (c : Component)
| SetMaterial (c : Component) (idx : Idx) (mo : PwMaterial)
| SetSource (c : Component) (so : Source)
| CallUpdate (c : Component) (mo : PwMaterial) (p1 p2 : Component) (dt d1 d2 : Q)
| WriteHdf5 (c : Component) (name : string) (low high : Idx)
| IncN (d : Q)
| SetT
| IncT.

(** ** Workers: a method body emits actions and returns or raises *)

Definition Worker (A : Type) : Type := (list Action * (Exn + A))%type.

Definition wret {A} (x : A) : Worker A := ([], inr x).
Definition raise {A} (e : Exn) : Worker A := ([], inl e).
Definition emit (a : Action) : Worker unit := ([a], inr tt).

Definition wbind {A B} (m : Worker A) (f : A -> Worker B) : Worker B :=
  match m with
  | (tr, inl e) => (tr, inl e)
  | (tr, inr x) => (tr ++ (f x).1, (f x).2)
  end.

Notation "m1 ;; m2" := (wbind m1 (fun _ => m2))
  (at level 100, m2 at level 200, right associativity).

Fixpoint for_each {A} (l : list A) (body : A -> Worker unit) : Worker unit :=
  match l with
  | [] => wret tt
  | x :: l' => body x ;; for_each l' body
  end.

(** ** Material Grid construction: [init_material_ex] ... [init_material_hz]

    The six methods share their shape and differ in the component and in
    the boundary test of their [if]; [init_material_pass] is that shape.
    The material grid of a component has the shape of its field array. *)

Definition init_material_pass (c : Component) (boundary : Shape -> Idx -> bool)
    (s : State) : Worker unit :=
  emit (Acquire c) ;;
  (let shape := arr_shape (field s c) in
   for_each (ndindex shape) (fun idx =>
     if boundary shape idx then
       emit (SetMaterial c idx (Dummy c idx 1))
     else
       let co := index_to_space (space s) c idx in
       match geom_tree s co with
       | None => raise (ClassificationError co)
       | Some geom_obj =>
           emit (SetMaterial c idx (Pointwise (material geom_obj) c idx co))
       end)) ;;
  emit (Release c).

Definition init_material_ex : State -> Worker unit :=
  init_material_pass Ex (fun shape idx =>
    (ix1 idx =? ix1 shape - 1) || (ix2 idx =? ix2 shape - 1)).

Definition init_material_ey : State -> Worker unit :=
  init_material_pass Ey (fun shape idx =>
    (ix2 idx =? ix2 shape - 1) || (ix0 idx =? ix0 shape - 1)).

Definition init_material_ez : State -> Worker unit :=
  init_material_pass Ez (fun shape idx =>
    (ix0 idx =? ix0 shape - 1) || (ix1 idx =? ix1 shape - 1)).

Definition init_material_hx : State -> Worker unit :=
  init_material_pass Hx (fun shape idx => (ix1 idx =? 0) || (ix2 idx =? 0)).

Definition init_material_hy : State -> Worker unit :=
  init_material_pass Hy (fun shape idx => (ix2 idx =? 0) || (ix0 idx =? 0)).

Definition init_material_hz : State -> Worker unit :=
  init_material_pass Hz (fun shape idx => (ix0 idx =? 0) || (ix1 idx =? 0)).

(** ** Source injection: [init_source_ex] ... [init_source_hz] *)

Definition init_source_pass (c : Component) (s : State) : Worker unit :=
  for_each (src_list s) (fun so => emit (SetSource c so)).

Definition init_source_ex : State -> Worker unit := init_source_pass Ex.
Definition init_source_ey : State -> Worker unit := init_source_pass Ey.
Definition init_source_ez : State -> Worker unit := init_source_pass Ez.
Definition init_source_hx : State -> Worker unit := init_source_pass Hx.
Definition init_source_hy : State -> Worker unit := init_source_pass Hy.
Definition init_source_hz : State -> Worker unit := init_source_pass Hz.

(** ** Field updates: [update_ex] ... [update_hz] *)

(** [material_c.flat]: the cells of the grid in C order. *)
Definition flat (c : Component) (s : State) : list (Idx * option PwMaterial) :=
  (fun idx => (idx, material_grid s c !! idx)) <$> ndindex (arr_shape (field s c)).

(** [for mo in self.material_c.flat: mo.update(self.c, self.p1, self.p2,
    self.dt, d1, d2)] between acquiring and releasing the component's
    lock. The arrays are passed by reference, so the call is recorded
    with the names of the arrays; an unassigned cell has no [update]. *)
Definition update_pass (c p1 p2 : Component) (d1 d2 : Q) (s : State) : Worker unit :=
  emit (Acquire c) ;;
  for_each (flat c s) (fun cell =>
    match cell.2 with
    | None => raise (NoUpdateRule c cell.1)
    | Some mo => emit (CallUpdate c mo p1 p2 (st_dt s) d1 d2)
    end) ;;
  emit (Release c).

Definition update_ex (s : State) : Worker unit :=
  update_pass Ex Hz Hy (st_dy s) (st_dz s) s.

Definition update_ey (s : State) : Worker unit :=
  update_pass Ey Hx Hz (st_dz s) (st_dx s) s.

Definition update_ez (s : State) : Worker unit :=
  update_pass Ez Hy Hx (st_dx s) (st_dy s) s.

Definition update_hx (s : State) : Worker unit :=
  update_pass Hx Ez Ey (st_dy s) (st_dz s) s.

Definition update_hy (s : State) : Worker unit :=
  update_pass Hy Ex Ez (st_dz s) (st_dx s) s.

Definition update_hz (s : State) : Worker unit :=
  update_pass Hz Ey Ex (st_dx s) (st_dy s) s.

(** ** File export: [write_ex] ... [write_hz] *)

(** [write_ex(low=None, high=None, prefix=None, postfix=None)]. Both
    tests of the source are on [low]. *)
Definition write_ex (low high : option Coord) (prefix postfix : option string)
    (s : State) : Worker unit :=
  let low_idx :=
    match low with
    | None => (0, 0, 0)
    | Some _ => space_to_index (space s) Ex low
    end in
  let high_idx :=
    match low with
    | None => arr_shape (field s Ex)
    | Some _ => space_to_index (space s) Ex high
    end in
  let high_idx := (ix0 high_idx + 1, ix1 high_idx + 1, ix2 high_idx + 1) in
  let name := EmptyString in
  let name := match prefix with Some p => String.append p name | None => name end in
  let name := match postfix with Some p => String.append name p | None => name end in
  emit (WriteHdf5 Ex name low_idx high_idx).

Definition write_ey (s : State) : Worker unit := wret tt.
Definition write_ez (s : State) : Worker unit := wret tt.
Definition write_hx (s : State) : Worker unit := wret tt.
Definition write_hy (s : State) : Worker unit := wret tt.
Definition write_hz (s : State) : Worker unit := wret tt.

(** The body a method name stands for, called without arguments. *)
Definition method_body (m : Method) : State -> Worker unit :=
  match m with
  | m_init_material Ex => init_material_ex
  | m_init_material Ey => init_material_ey
  | m_init_material Ez => init_material_ez
  | m_init_material Hx => init_material_hx
  | m_init_material Hy => init_material_hy
  | m_init_material Hz => init_material_hz
  | m_init_source Ex => init_source_ex
  | m_init_source Ey => init_source_ey
  | m_init_source Ez => init_source_ez
  | m_init_source Hx => init_source_hx
  | m_init_source Hy => init_source_hy
  | m_init_source Hz => init_source_hz
  | m_update Ex => update_ex
  | m_update Ey => update_ey
  | m_update Ez => update_ez
  | m_update Hx => update_hx
  | m_update Hy => update_hy
  | m_update Hz => update_hz
  | m_write Ex => write_ex None None None None
  | m_write Ey => write_ey
  | m_write Ez => write_ez
  | m_write Hx => write_hx
  | m_write Hy => write_hy
  | m_write Hz => write_hz
  end.

(** [Thread(target=m)]: the actions of the thread from [start] to its
    end. An exception that leaves the target ends the thread: the thread
    runtime reports it and does not hand it to the thread that joins. *)
Definition thread (m : Method) (s : State) : list Action :=
  let body := method_body m s in
  ThreadStart m :: body.1 ++
    [match body.2 with inl e => ThreadDied m e | inr _ => ThreadEnd m end].

(** The schedules of threads running together: every action of the
    result is the next action of one of the threads. *)
Inductive interleave {A : Type} : list (list A) -> list A -> Prop :=
| interleave_done ls :
    Forall (fun l => l = []) ls -> interleave ls []
| interleave_step ls i a l tr :
    ls !! i = Some (a :: l) ->
    interleave (<[i := l]> ls) tr ->
    interleave ls (a :: tr).

(** ** The object store shared with the caller

    The constructor receives references to two Python lists. Lists and
    the objects they hold live in a store; a list holds references. *)

Definition loc : Type := nat.

Inductive Obj :=
| ListObj (items : list loc)
| GeomInst (g : GeomObj)
| SrcInst (so : Source).

Abbreviation Heap := (gmap loc Obj).

Definition alloc (h : Heap) (o : Obj) : Heap * loc :=
  let l := fresh (dom h) in (<[l := o]> h, l).

(** [copy.deepcopy] of the elements of a list, with its memo table: an
    object met twice is copied once. An element is an instance, copied
    with everything it holds. *)
Fixpoint deepcopy_items (h : Heap) (memo : gmap loc loc) (items : list loc)
    : option (Heap * gmap loc loc * list loc) :=
  match items with
  | [] => Some (h, memo, [])
  | x :: rest =>
      match memo !! x with
      | Some y =>
          r ← deepcopy_items h memo rest;
          Some (r.1.1, r.1.2, y :: r.2)
      | None =>
          match h !! x with
          | Some (GeomInst g) =>
              let hy := alloc h (GeomInst g) in
              r ← deepcopy_items hy.1 (<[x := hy.2]> memo) rest;
              Some (r.1.1, r.1.2, hy.2 :: r.2)
          | Some (SrcInst so) =>
              let hy := alloc h (SrcInst so) in
              r ← deepcopy_items hy.1 (<[x := hy.2]> memo) rest;
              Some (r.1.1, r.1.2, hy.2 :: r.2)
          | _ => None
          end
      end
  end.

(** [copy.deepcopy(lst)] for a list of instances. *)
Definition deepcopy (h : Heap) (lst : loc) : option (Heap * loc) :=
  match h !! lst with
  | Some (ListObj items) =>
      r ← deepcopy_items h ∅ items;
      Some (alloc r.1.1 (ListObj r.2))
  | _ => None
  end.

(** Reading a list of geometric objects, or of sources, through the store. *)
Definition deref_geom (h : Heap) (l : loc) : option GeomObj :=
  match h !! l with Some (GeomInst g) => Some g | _ => None end.

Definition deref_src (h : Heap) (l : loc) : option Source :=
  match h !! l with Some (SrcInst so) => Some so | _ => None end.

Definition deref_items (h : Heap) (lst : loc) : option (list loc) :=
  match h !! lst with Some (ListObj items) => Some items | _ => None end.

Definition deref_geom_list (h : Heap) (lst : loc) : option (list GeomObj) :=
  items ← deref_items h lst; mapM (deref_geom h) items.

Definition deref_src_list (h : Heap) (lst : loc) : option (list Source) :=
  items ← deref_items h lst; mapM (deref_src h) items.

(** What the caller can do to the lists it passed and to their elements. *)
Inductive Mutation :=
| list_append (lst x : loc)
| list_setitem (lst : loc) (i : nat) (x : loc)
| list_delitem (lst : loc) (i : nat)
| geom_setattr (r : loc) (g : GeomObj)
| src_setattr (r : loc) (so : Source).

Definition target (m : Mutation) : loc :=
  match m with
  | list_append lst _ | list_setitem lst _ _ | list_delitem lst _ => lst
  | geom_setattr r _ | src_setattr r _ => r
  end.

Definition on_list (f : list loc -> list loc) (o : Obj) : Obj :=
  match o with ListObj items => ListObj (f items) | _ => o end.

Definition mutate (h : Heap) (m : Mutation) : Heap :=
  match m with
  | list_append lst x => alter (on_list (fun items => items ++ [x])) lst h
  | list_setitem lst i x => alter (on_list (fun items => <[i := x]> items)) lst h
  | list_delitem lst i => alter (on_list (fun items => delete i items)) lst h
  | geom_setattr r g =>
      alter (fun o => match o with GeomInst _ => GeomInst g | _ => o end) r h
  | src_setattr r so =>
      alter (fun o => match o with SrcInst _ => SrcInst so | _ => o end) r h
  end.

Definition mutate_all (ms : list Mutation) (h : Heap) : Heap :=
  fold_left mutate ms h.

(** An engine instance: its two list attributes are references into the
    store, the rest of its attributes is the [State]. *)
Record Engine := mkEngine {
  self_geom_list : loc;
  self_src_list : loc;
  self_state : State
}.

(** ** Reading traces *)

#[global] Instance Method_eq_dec : EqDecision Method.
Proof. solve_decision. Defined.

(** The actions that a thread running method [m] can take. *)
Definition emits (m : Method) (a : Action) : Prop :=
  match a with
  | ThreadStart m' | ThreadEnd m' | ThreadDied m' _ => m' = m
  | Acquire c | Release c => m = m_init_material c \/ m = m_update c
  | SetMaterial c _ _ => m = m_init_material c
  | SetSource c _ => m = m_init_source c
  | CallUpdate c _ _ _ _ _ _ => m = m_update c
  | WriteHdf5 c _ _ _ => m = m_write c
  | IncN _ | SetT | IncT => False
  end.

#[global] Instance emits_dec m a : Decision (emits m a).
Proof. destruct a; simpl; apply _. Defined.

(** The actions on the time state; only the main thread takes them. *)
Definition is_tick (a : Action) : Prop :=
  match a with IncN _ | SetT | IncT => True | _ => False end.

#[global] Instance is_tick_dec a : Decision (is_tick a).
Proof. destruct a; simpl; apply _. Defined.

(** The rule invocations on the array of component [c]. *)
Definition is_call (c : Component) (a : Action) : Prop :=
  match a with CallUpdate c' _ _ _ _ _ _ => c' = c | _ => False end.

#[global] Instance is_call_dec c a : Decision (is_call c a).
Proof. destruct a; simpl; apply _. Defined.

(** The writes into the material grid of component [c]. *)
Definition is_grid_write (c : Component) (a : Action) : Prop :=
  match a with
  | SetMaterial c' _ _ | SetSource c' _ => c' = c
  | _ => False
  end.

#[global] Instance is_grid_write_dec c a : Decision (is_grid_write c a).
Proof. destruct a; simpl; apply _. Defined.

(** The operations on the lock of component [c]. *)
Definition is_lock_op (c : Component) (a : Action) : Prop :=
  match a with Acquire c' | Release c' => c' = c | _ => False end.

#[global] Instance is_lock_op_dec c a : Decision (is_lock_op c a).
Proof. destruct a; simpl; apply _. Defined.

(** The calls of the external HDF5 writer. *)
Definition is_export (a : Action) : Prop :=
  match a with WriteHdf5 _ _ _ _ => True | _ => False end.

#[global] Instance is_export_dec a : Decision (is_export a).
Proof. destruct a; simpl; apply _. Defined.

(** Every cell of the grid of [c] holds a rule. *)
Definition populated (s : State) (c : Component) : Prop :=
  forall idx, idx ∈ ndindex (arr_shape (field s c)) ->
    is_Some (material_grid s c !! idx).

(** The rules of the grid of [c] in C order. *)
Definition rules (s : State) (c : Component) : list PwMaterial :=
  omap (fun idx => material_grid s c !! idx) (ndindex (arr_shape (field s c))).

(** The boundary tests of the six [init_material_<c>] methods. *)
Definition init_boundary (c : Component) : Shape -> Idx -> bool :=
  match c with
  | Ex => fun shape idx => (ix1 idx =? ix1 shape - 1) || (ix2 idx =? ix2 shape - 1)
  | Ey => fun shape idx => (ix2 idx =? ix2 shape - 1) || (ix0 idx =? ix0 shape - 1)
  | Ez => fun shape idx => (ix0 idx =? ix0 shape - 1) || (ix1 idx =? ix1 shape - 1)
  | Hx => fun shape idx => (ix1 idx =? 0) || (ix2 idx =? 0)
  | Hy => fun shape idx => (ix2 idx =? 0) || (ix0 idx =? 0)
  | Hz => fun shape idx => (ix0 idx =? 0) || (ix1 idx =? 0)
  end.

(** The rule the loop body of [init_material_<c>] stores at [idx], or
    [None] when the classifier finds no object there. *)
Definition classify (s : State) (c : Component) (idx : Idx)
    : option PwMaterial :=
  if init_boundary c (arr_shape (field s c)) idx then Some (Dummy c idx 1)
  else
    let co := index_to_space (space s) c idx in
    g ← geom_tree s co; Some (Pointwise (material g) c idx co).

(** Running the threads of a block one after the other. *)
Definition sequential (targets : list Method) (s : State) : list Action :=
  concat ((fun m => thread m s) <$> targets).

(** ** A small configuration

    Arrays of shape 2 x 2 x 2, one material everywhere, two sources that
    both wrap the rule of the first cell. *)

Definition sample_coord (c : Component) (idx : Idx) : Coord :=
  (inject_Z (ix0 idx), inject_Z (ix1 idx), inject_Z (ix2 idx)).

Definition sample_space : Space :=
  mkSpace 1 2 3 (1 # 2) sample_coord (fun _ _ => (0, 0, 0))
    (fun _ => mkArray (2, 2, 2) ∅) (fun _ => ∅).

Definition sample_tree (co : Coord) : option GeomObj :=
  Some (mkGeom "default"%string "vacuum"%string).

(** A geometry list with a gap: no object covers the plane x = 1. *)
Definition gap_tree (co : Coord) : option GeomObj :=
  if Qeq_bool co.1.1 1 then None else Some (mkGeom "slab"%string "glass"%string).

Definition sample_source (tag : string) : Source :=
  mkSource tag (fun c sp g => alter (Excited tag) (0, 0, 0) g).

Definition sample_built (tree : Coord -> option GeomObj) (srcs : list Source)
    : State :=
  mkState sample_space 1 2 3 (1 # 2) (mkTime 0 0) tree srcs
    (get_storage sample_space)
    (fun c =>
       list_to_map
         (omap (fun idx =>
                  mo ← (if init_boundary c (2, 2, 2) idx
                        then Some (Dummy c idx 1)
                        else g ← tree (sample_coord c idx);
                             Some (Pointwise (material g) c idx (sample_coord c idx)));
                  Some (idx, mo))
               (ndindex (2, 2, 2))))
    (fun _ => false) [].

Definition sample_state : State := sample_built sample_tree [].

(** A catalog for the sample: a stub leaves the array alone, any other
    rule adds the time step to the sample of its cell. *)
Definition sample_pw_update (mo : PwMaterial) (own in1 in2 : Array)
    (dt d1 d2 : Q) : gmap Idx Q :=
  match mo with
  | Pointwise _ _ idx _ =>
      <[idx := (default 0 (arr_data own !! idx) + dt)%Q]> (arr_data own)
  | _ => arr_data own
  end.

(** The cells a classification pass assigns before the first cell it
    cannot classify, with their rules, and that first cell. *)
Fixpoint classified_prefix (s : State) (c : Component) (l : list Idx)
    : list (Idx * PwMaterial) :=
  match l with
  | [] => []
  | idx :: l' =>
      match classify s c idx with
      | Some mo => (idx, mo) :: classified_prefix s c l'
      | None => []
      end
  end.

Fixpoint first_failure (s : State) (c : Component) (l : list Idx)
    : option Idx :=
  match l with
  | [] => None
  | idx :: l' =>
      match classify s c idx with
      | Some _ => first_failure s c l'
      | None => Some idx
      end
  end.

(** A fresh engine over the sample space whose geometry has the gap. *)
Definition gap_state : State :=
  mkState sample_space 1 2 3 (1 # 2) (mkTime 0 0) gap_tree []
    (get_storage sample_space) (get_material_storage sample_space)
    (fun _ => false) [].

Definition fresh_state : State :=
  mkState sample_space 1 2 3 (1 # 2) (mkTime 0 0) sample_tree
    [sample_source "A"; sample_source "B"]
    (get_storage sample_space) (get_material_storage sample_space)
    (fun _ => false) [].

(** The locations an engine reaches through one of its list attributes:
    the list and its elements. *)
Definition owned (h : Heap) (lst : loc) : list loc :=
  lst :: default [] (deref_items h lst).

(** A store and collaborators for the sample: the caller's geometry
    list at location 0 holds the objects at 2 and 3, its source list at
    location 1 holds the source at 4. *)
Definition sample_heap : Heap :=
  list_to_map
    [(0%nat, ListObj [2%nat; 3%nat]); (1%nat, ListObj [4%nat]);
     (2%nat, GeomInst (mkGeom "default"%string "vacuum"%string));
     (3%nat, GeomInst (mkGeom "rod"%string "glass"%string));
     (4%nat, SrcInst (sample_source "A"))].

Definition sample_geom_init (sp : Space) (g : GeomObj) : GeomObj := g.

Definition sample_GeomBoxTree (geoms : list GeomObj) (co : Coord)
    : option GeomObj :=
  head geoms.

Definition sample_src_init (tree : Coord -> option GeomObj) (sp : Space)
    (so : Source) : Source := so.

(** What the caller does to its lists afterwards in the sample. *)
Definition sample_mutations : list Mutation :=
  [list_append 0%nat 3%nat; list_delitem 1%nat 0%nat;
   geom_setattr 2%nat (mkGeom "default"%string "metal"%string)].

(** ** Execution of actions on the engine state *)

Definition upd {A : Type} (f : Component -> A) (c : Component) (x : A)
    : Component -> A :=
  fun c' => if decide (c' = c) then x else f c'.

Definition set_time_step (s : State) (ts : TimeStep) : State :=
  mkState (space s) (st_dx s) (st_dy s) (st_dz s) (st_dt s) ts
    (geom_tree s) (src_list s) (field s) (material_grid s) (lock s)
    (hdf5_log s).

Definition set_field (s : State) (f : Component -> Array) : State :=
  mkState (space s) (st_dx s) (st_dy s) (st_dz s) (st_dt s) (time_step s)
    (geom_tree s) (src_list s) f (material_grid s) (lock s) (hdf5_log s).

Definition set_material_grid (s : State) (g : Component -> Grid) : State :=
  mkState (space s) (st_dx s) (st_dy s) (st_dz s) (st_dt s) (time_step s)
    (geom_tree s) (src_list s) (field s) g (lock s) (hdf5_log s).

Definition set_lock (s : State) (l : Component -> bool) : State :=
  mkState (space s) (st_dx s) (st_dy s) (st_dz s) (st_dt s) (time_step s)
    (geom_tree s) (src_list s) (field s) (material_grid s) l (hdf5_log s).

Definition set_hdf5_log (s : State) (l : list Hdf5Call) : State :=
  mkState (space s) (st_dx s) (st_dy s) (st_dz s) (st_dt s) (time_step s)
    (geom_tree s) (src_list s) (field s) (material_grid s) (lock s) l.

(** A thread that asks for a held lock waits: [Acquire] can only be
    scheduled while the lock is free. *)
Definition enabled (a : Action) (s : State) : Prop :=
  match a with
  | Acquire c => lock s c = false
  | _ => True
  end.

(** The engine classes of the module. *)
Inductive EngineClass :=
| FDTD
| TExFDTD | TEyFDTD | TEzFDTD
| TMxFDTD | TMyFDTD | TMzFDTD
| TEMxFDTD | TEMyFDTD | TEMzFDTD.

#[global] Instance EngineClass_eq_dec : EqDecision EngineClass.
Proof. solve_decision. Defined.

(** What the main thread does: from a state, a trace of actions to a
    state, returning ([None]) or leaving with an exception. *)
Definition Main : Type := State -> list Action -> State -> option Exn -> Prop.

Section Engine.

(** The external catalog of update rules: [mo.update(own, in1, in2, dt,
    d1, d2)] rewrites, in place, samples of the array [own] it is handed
    first; [pw_update] gives the samples of [own] after the call. *)
Variable pw_update :
  PwMaterial -> Array -> Array -> Array -> Q -> Q -> Q -> gmap Idx Q.

(** What one action does to the state; the counter and the time are the
    numbers the floats stand for (see [TimeStep]). *)
Definition exec (a : Action) (s : State) : State :=
  match a with
  | ThreadStart _ | ThreadEnd _ | ThreadDied _ _ => s
  | Acquire c => set_lock s (upd (lock s) c true)
  | Release c => set_lock s (upd (lock s) c false)
  | SetMaterial c idx mo =>
      set_material_grid s
        (upd (material_grid s) c (<[idx := mo]> (material_grid s c)))
  | SetSource c so =>
      set_material_grid s
        (upd (material_grid s) c
           (set_pointwise_source so c (space s) (material_grid s c)))
  | CallUpdate c mo p1 p2 dt d1 d2 =>
      set_field s
        (upd (field s) c
           (mkArray (arr_shape (field s c))
              (pw_update mo (field s c) (field s p1) (field s p2) dt d1 d2)))
  | WriteHdf5 c name low high =>
      set_hdf5_log s (hdf5_log s ++ [mkHdf5 (field s c) name low high])
  | IncN d =>
      set_time_step s (mkTime (n (time_step s) + d)%Q (t (time_step s)))
  | SetT =>
      set_time_step s
        (mkTime (n (time_step s)) (n (time_step s) * st_dt s)%Q)
  | IncT =>
      set_time_step s
        (mkTime (n (time_step s)) (t (time_step s) + st_dt s)%Q)
  end.

Definition run (tr : list Action) (s : State) : State :=
  fold_left (fun s a => exec a s) tr s.

Fixpoint schedulable (tr : list Action) (s : State) : Prop :=
  match tr with
  | [] => True
  | a :: tr' => enabled a s /\ schedulable tr' (exec a s)
  end.

(** [threads = [Thread(target=m) ...]; start all; join all]. *)
Definition fork_join (targets : list Method) : Main :=
  fun s tr s' r =>
    interleave ((fun m => thread m s) <$> targets) tr /\
    schedulable tr s /\ s' = run tr s /\ r = None.

(** [self.m()]: the method runs in the main thread. *)
Definition call (m : Method) : Main :=
  fun s tr s' r =>
    tr = (method_body m s).1 /\ schedulable tr s /\ s' = run tr s /\
    r = match (method_body m s).2 with inl e => Some e | inr _ => None end.

(** One statement of the main thread on the time state. *)
Definition act (a : Action) : Main :=
  fun s tr s' r => tr = [a] /\ s' = exec a s /\ r = None.

Definition seq (m1 m2 : Main) : Main :=
  fun s tr s' r =>
    (exists s1 tr1 tr2,
        m1 s tr1 s1 None /\ m2 s1 tr2 s' r /\ tr = tr1 ++ tr2) \/
    (exists e, m1 s tr s' (Some e) /\ r = Some e).

Definition skip : Main := fun s tr s' r => tr = [] /\ s' = s /\ r = None.

Notation "m1 >>> m2" := (seq m1 m2) (at level 85, right associativity).

(** [self.time_step.n += d; self.time_step.t = self.time_step.n * self.dt] *)
Definition advance (d : Q) : Main := act (IncN d) >>> act SetT.

(** ** The overridable methods of the class family *)

Definition init_material (k : EngineClass) : Main :=
  match k with
  | FDTD =>
      fork_join [m_init_material Ex; m_init_material Ey; m_init_material Ez;
                 m_init_material Hx; m_init_material Hy; m_init_material Hz]
  | TExFDTD =>
      fork_join [m_init_material Ey; m_init_material Ez; m_init_material Hx]
  | TEyFDTD =>
      fork_join [m_init_material Ez; m_init_material Ex; m_init_material Hy]
  | TEzFDTD =>
      fork_join [m_init_material Ex; m_init_material Ey; m_init_material Hz]
  | TMxFDTD =>
      fork_join [m_init_material Hy; m_init_material Hz; m_init_material Ex]
  | TMyFDTD =>
      fork_join [m_init_material Hz; m_init_material Hx; m_init_material Ey]
  | TMzFDTD =>
      fork_join [m_init_material Hx; m_init_material Hy; m_init_material Ez]
  | TEMxFDTD => fork_join [m_init_material Ey; m_init_material Hz]
  | TEMyFDTD => fork_join [m_init_material Ez; m_init_material Hx]
  | TEMzFDTD => fork_join [m_init_material Ex; m_init_material Hy]
  end.

Definition init_source (k : EngineClass) : Main :=
  match k with
  | FDTD =>
      fork_join [m_init_source Ex; m_init_source Ey; m_init_source Ez;
                 m_init_source Hx; m_init_source Hy; m_init_source Hz]
  | TExFDTD => fork_join [m_init_source Ey; m_init_source Ez; m_init_source Hx]
  | TEyFDTD => fork_join [m_init_source Ez; m_init_source Ex; m_init_source Hy]
  | TEzFDTD => fork_join [m_init_source Ex; m_init_source Ey; m_init_source Hz]
  | TMxFDTD => fork_join [m_init_source Hy; m_init_source Hz; m_init_source Ex]
  | TMyFDTD => fork_join [m_init_source Hz; m_init_source Hx; m_init_source Ey]
  | TMzFDTD => fork_join [m_init_source Hx; m_init_source Hy; m_init_source Ez]
  | TEMxFDTD => fork_join [m_init_source Ey; m_init_source Hz]
  | TEMyFDTD => fork_join [m_init_source Ez; m_init_source Hx]
  | TEMzFDTD => fork_join [m_init_source Ex; m_init_source Hy]
  end.

(** The two halves of [step], as each class writes them. *)
Definition e_phase (k : EngineClass) : Main :=
  match k with
  | FDTD =>
      fork_join [m_update Ex; m_update Ey; m_update Ez;
                 m_write Hx; m_write Hy; m_write Hz] >>> advance (1 # 2)
  | TExFDTD => fork_join [m_update Ey; m_update Ez] >>> advance (1 # 2)
  | TEyFDTD => fork_join [m_update Ez; m_update Ex] >>> advance (1 # 2)
  | TEzFDTD => fork_join [m_update Ex; m_update Ey] >>> advance (1 # 2)
  | TMxFDTD => call (m_update Ex) >>> advance (1 # 2)
  | TMyFDTD => call (m_update Ey) >>> advance (1 # 2)
  | TMzFDTD => call (m_update Ez) >>> advance (1 # 2)
  | TEMxFDTD => call (m_update Ey) >>> advance 5
  | TEMyFDTD => call (m_update Ez) >>> advance 5
  | TEMzFDTD => call (m_update Ex) >>> advance 5
  end.

Definition h_phase (k : EngineClass) : Main :=
  match k with
  | FDTD =>
      fork_join [m_update Hx; m_update Hy; m_update Hz;
                 m_write Ex; m_write Ey; m_write Ez] >>> advance (1 # 2)
  | TExFDTD => call (m_update Hx) >>> advance (1 # 2)
  | TEyFDTD => call (m_update Hy) >>> advance (1 # 2)
  | TEzFDTD => call (m_update Hz) >>> act (IncN (1 # 2)) >>> act IncT
  | TMxFDTD => fork_join [m_update Hy; m_update Hz] >>> advance (1 # 2)
  | TMyFDTD => fork_join [m_update Hz; m_update Hx] >>> advance (1 # 2)
  | TMzFDTD => fork_join [m_update Hx; m_update Hy] >>> advance (1 # 2)
  | TEMxFDTD => call (m_update Hz) >>> advance 5
  | TEMyFDTD => call (m_update Hx) >>> advance 5
  | TEMzFDTD => call (m_update Hy) >>> advance 5
  end.

Definition step (k : EngineClass) : Main := e_phase k >>> h_phase k.

(** [k] consecutive calls of [step]. *)
Fixpoint steps (k : EngineClass) (count : nat) : Main :=
  match count with
  | O => skip
  | S count' => step k >>> steps k count'
  end.

(** What one action does to the material grid of component [c]. *)
Definition grid_exec (c : Component) (sp : Space) (g : Grid) (a : Action)
    : Grid :=
  match a with
  | SetMaterial c' idx mo => if decide (c' = c) then <[idx := mo]> g else g
  | SetSource c' so =>
      if decide (c' = c) then set_pointwise_source so c sp g else g
  | _ => g
  end.

(** What one action does to the lock of component [c]. *)
Definition lock_exec (c : Component) (b : bool) (a : Action) : bool :=
  match a with
  | Acquire c' => if decide (c' = c) then true else b
  | Release c' => if decide (c' = c) then false else b
  | _ => b
  end.

(** ** Notions the statements use *)

(** The spec's table of curl partners: for each component the two
    arrays its update reads and the two cell widths it is handed. *)
Definition curl_partners (c : Component) : Component * Component :=
  match c with
  | Ex => (Hz, Hy) | Ey => (Hx, Hz) | Ez => (Hy, Hx)
  | Hx => (Ez, Ey) | Hy => (Ex, Ez) | Hz => (Ey, Ex)
  end.

Definition curl_spacings (s : State) (c : Component) : Q * Q :=
  match c with
  | Ex | Hx => (st_dy s, st_dz s)
  | Ey | Hy => (st_dz s, st_dx s)
  | Ez | Hz => (st_dx s, st_dy s)
  end.

(** The spec's boundary planes: the two transverse axes of a component,
    at the upper edge for an electric component, at zero for a magnetic
    one. *)
Definition transverse (c : Component) : nat * nat :=
  match c with
  | Ex | Hx => (1, 2)%nat
  | Ey | Hy => (2, 0)%nat
  | Ez | Hz => (0, 1)%nat
  end.

Definition axis (i : nat) (x : Z * Z * Z) : Z :=
  match i with O => ix0 x | S O => ix1 x | _ => ix2 x end.

Definition on_boundary (c : Component) (shape : Shape) (idx : Idx) : Prop :=
  let edge a := if is_electric c then axis a shape - 1 else 0 in
  axis (transverse c).1 idx = edge (transverse c).1 \/
  axis (transverse c).2 idx = edge (transverse c).2.

#[global] Instance on_boundary_dec c shape idx : Decision (on_boundary c shape idx).
Proof. unfold on_boundary. apply _. Defined.

(** The lock a method takes, if any. *)
Definition lock_of (m : Method) : option Component :=
  match m with
  | m_init_material c | m_update c => Some c
  | m_init_source _ | m_write _ => None
  end.

(** An action that never waits. *)
Definition never_waits (a : Action) : Prop :=
  match a with Acquire _ => False | _ => True end.

(** The two kinds of thread targets: those of [step] and those of the
    constructor. *)
Definition stepping (m : Method) : Prop :=
  match m with m_update _ | m_write _ => True | _ => False end.

Definition building (m : Method) : Prop :=
  match m with m_init_material _ | m_init_source _ => True | _ => False end.

(** The state of the engine's static parts: what threads read to decide
    what they do. *)
Definition same_static (s1 s2 : State) : Prop :=
  space s1 = space s2 /\ st_dx s1 = st_dx s2 /\ st_dy s1 = st_dy s2 /\
  st_dz s1 = st_dz s2 /\ st_dt s1 = st_dt s2 /\
  geom_tree s1 = geom_tree s2 /\ src_list s1 = src_list s2 /\
  (forall c, arr_shape (field s1 c) = arr_shape (field s2 c)) /\
  (forall c, material_grid s1 c = material_grid s2 c).

(** The trace of one phase of a call, read for a family [f] of methods
    ([m_update] or [m_write]): the block holds the whole thread of [f c],
    start to end and in order, for the components [c] of the phase, and
    no action of the threads of [f c] for the others. *)
Definition phase_block (f : Component -> Method) (s : State)
    (electric : bool) (blk : list Action) : Prop :=
  forall c,
    filter (emits (f c)) blk =
      if bool_decide (is_electric c = electric)
      then thread (f c) s else [].

(** The actions [step] can take: those of update and write threads, and
    the main thread's on the time state. *)
Definition step_action (a : Action) : Prop :=
  (exists m, stepping m /\ emits m a) \/ is_tick a.

(** [m] only takes actions in [P], and its final state is the run of its
    trace. *)
Definition traces_in (P : Action -> Prop) (m : Main) : Prop :=
  forall s tr s' r, m s tr s' r -> s' = run tr s /\ Forall P tr.

(** The schedule of [FDTD.step] that runs the threads of each block one
    after the other, and its repetition. *)
Definition sequential_step (s : State) : list Action :=
  let blkE :=
    sequential [m_update Ex; m_update Ey; m_update Ez;
                m_write Hx; m_write Hy; m_write Hz] s
      ++ [IncN (1 # 2); SetT] in
  let sE := run blkE s in
  blkE ++
  (sequential [m_update Hx; m_update Hy; m_update Hz;
               m_write Ex; m_write Ey; m_write Ez] sE
     ++ [IncN (1 # 2); SetT]).

Fixpoint sequential_steps (count : nat) (s : State) : list Action :=
  match count with
  | O => []
  | S count' =>
      sequential_step s ++ sequential_steps count' (run (sequential_step s) s)
  end.

(** A rule invocation is wired as the spec's table says. *)
Definition well_wired (s : State) (a : Action) : Prop :=
  match a with
  | CallUpdate c mo p1 p2 dt d1 d2 =>
      (p1, p2) = curl_partners c /\ (d1, d2) = curl_spacings s c /\
      dt = st_dt s
  | _ => True
  end.

(** The invocations the spec expects of the update pass of [c]: one per
    rule of the grid, in C order, with the partners of the table. *)
Definition expected_calls (s : State) (c : Component) : list Action :=
  (fun mo =>
     CallUpdate c mo (curl_partners c).1 (curl_partners c).2 (st_dt s)
       (curl_spacings s c).1 (curl_spacings s c).2) <$> rules s c.

(** A method never leaves with an exception. *)
Definition never_raises (m : Main) : Prop :=
  forall s tr s' e, ~ m s tr s' (Some e).

(** What each class adds to the counter [n] after a phase. *)
Definition increment (k : EngineClass) : Q :=
  match k with
  | TEMxFDTD | TEMyFDTD | TEMzFDTD => 5
  | _ => 1 # 2
  end.

(** The two components a one-dimensional class steps. *)
Definition tem_pair (k : EngineClass) : option (Component * Component) :=
  match k with
  | TEMxFDTD => Some (Ey, Hz)
  | TEMyFDTD => Some (Ez, Hx)
  | TEMzFDTD => Some (Ex, Hy)
  | _ => None
  end.

(** The classifier finds an object for every cell of [c] that is not on
    the boundary. *)
Definition covered (s : State) (c : Component) : Prop :=
  forall idx, idx ∈ ndindex (arr_shape (field s c)) ->
    ~ on_boundary c (arr_shape (field s c)) idx ->
    is_Some (geom_tree s (index_to_space (space s) c idx)).

(** The trace of the [step] of a one-dimensional class with electric
    component [e] and magnetic component [h]. *)
Definition direct_step (e h : Component) (s : State) : list Action :=
  let blkE := (method_body (m_update e) s).1 ++ [IncN 5; SetT] in
  blkE ++ ((method_body (m_update h) (run blkE s)).1 ++ [IncN 5; SetT]).

(** The schedule of [TEzFDTD.step] that runs the two electric threads
    one after the other. *)
Definition TEz_sequential_step (s : State) : list Action :=
  let blkE :=
    sequential [m_update Ex; m_update Ey] s ++ [IncN (1 # 2); SetT] in
  blkE ++
    ((method_body (m_update Hz) (run blkE s)).1 ++ [IncN (1 # 2); IncT]).

(** The schedule of the constructor's two blocks that runs the threads
    one after the other. *)
Definition sequential_build (s : State) : list Action :=
  let blkM :=
    sequential [m_init_material Ex; m_init_material Ey; m_init_material Ez;
                m_init_material Hx; m_init_material Hy; m_init_material Hz] s in
  blkM ++
    sequential [m_init_source Ex; m_init_source Ey; m_init_source Ez;
                m_init_source Hx; m_init_source Hy; m_init_source Hz]
      (run blkM s).

(** ** The constructor *)

(** External collaborators of the constructor: [geom_obj.init(space)],
    [GeomBoxTree(geom_list).object_of_point] and
    [so.init(geom_tree, space)]. *)
Variable geom_init : Space -> GeomObj -> GeomObj.
Variable GeomBoxTree : list GeomObj -> Coord -> option GeomObj.
Variable src_init : (Coord -> option GeomObj) -> Space -> Source -> Source.

Definition init_geom_at (sp : Space) (h : Heap) (l : loc) : Heap :=
  alter (fun o => match o with GeomInst g => GeomInst (geom_init sp g) | _ => o end) l h.

Definition init_src_at (tree : Coord -> option GeomObj) (sp : Space)
    (h : Heap) (l : loc) : Heap :=
  alter (fun o => match o with SrcInst so => SrcInst (src_init tree sp so) | _ => o end) l h.

(** Lines 38 to 52 of [__init__]: the two lists are deep-copied, the
    copies are initialised, the tree is built from the copy. The result
    is the store, the engine's own two references and its tree. *)
Definition init_lists (h : Heap) (sp : Space) (geom_list src_list : loc)
    : option (Heap * loc * loc * (Coord -> option GeomObj)) :=
  c1 ← deepcopy h geom_list;
  gitems ← deref_items c1.1 c1.2;
  let h2 := fold_left (init_geom_at sp) gitems c1.1 in
  geoms ← deref_geom_list h2 c1.2;
  let tree := GeomBoxTree geoms in
  c2 ← deepcopy h2 src_list;
  sitems ← deref_items c2.1 c2.2;
  let h4 := fold_left (init_src_at tree sp) sitems c2.1 in
  Some (h4, c1.2, c2.2, tree).

(** The attributes [__init__] sets before it maps materials and sources. *)
Definition new_state (sp : Space) (tree : Coord -> option GeomObj)
    (srcs : list Source) : State :=
  mkState sp (dx sp) (dy sp) (dz sp) (dt sp) (mkTime 0 0)
    tree srcs (get_storage sp) (get_material_storage sp)
    (fun _ => false) [].

(** [k(space, geom_list, src_list)]: from a store to a store and an
    engine, with the trace of [init_material] and [init_source]. *)
Definition construct (k : EngineClass) (h : Heap) (sp : Space)
    (geom_list src_list : loc) (h' : Heap) (e : Engine)
    (tr : list Action) (r : option Exn) : Prop :=
  exists tree srcs,
    init_lists h sp geom_list src_list
      = Some (h', self_geom_list e, self_src_list e, tree) /\
    deref_src_list h' (self_src_list e) = Some srcs /\
    (init_material k >>> init_source k)
      (new_state sp tree srcs) tr (self_state e) r.

(** ** The engine under a store

    The engine reaches its two lists, their elements and the objects of
    its tree through references: what its methods find there is read
    through the store at the time they run. Its arrays, grids, time state
    and locks are attributes of its own. A rule in a grid is an object of
    the external catalog that [fdtd.py] reads through [update] only; it
    is recorded by value. *)

(** The objects the tree was built over: the elements of the engine's
    geometry list in the store [h'] the constructor left. *)
Definition tree_refs (h' : Heap) (e : Engine) : list loc :=
  default [] (deref_items h' (self_geom_list e)).

(** [self.geom_tree.object_of_point] under store [h]: the tree holds its
    objects by reference and answers from what they are now. *)
Definition live_tree (refs : list loc) (h : Heap)
    : option (Coord -> option GeomObj) :=
  GeomBoxTree <$> mapM (deref_geom h) refs.

(** The state a method of the engine runs on under store [h]: the tree
    and the source list as they are read through the store, the other
    attributes as the engine holds them in [s]. *)
Definition live_state (refs : list loc) (sl : loc) (h : Heap) (s : State)
    : option State :=
  tree ← live_tree refs h;
  srcs ← deref_src_list h sl;
  Some (mkState (space s) (st_dx s) (st_dy s) (st_dz s) (st_dt s)
          (time_step s) tree srcs (field s) (material_grid s) (lock s)
          (hdf5_log s)).

(** What an engine is, for an observer, under store [h]: the contents of
    its two lists and the state its methods run on. *)
Definition engine_view (refs : list loc) (h : Heap) (e : Engine)
    : option (list GeomObj) * option (list Source) * option State :=
  (deref_geom_list h (self_geom_list e),
   deref_src_list h (self_src_list e),
   live_state refs (self_src_list e) h (self_state e)).

(** The public methods that run the engine after its construction. *)
Inductive MethodCall := do_init_material | do_init_source | do_step.

Definition invoke (k : EngineClass) (c : MethodCall) : Main :=
  match c with
  | do_init_material => init_material k
  | do_init_source => init_source k
  | do_step => step k
  end.

(** What happens after the construction: the caller changes an object
    of the store, or calls a method of the engine. *)
Inductive Event := Mutate (m : Mutation) | Invoke (c : MethodCall).

Definition calls_of (evs : list Event) : list MethodCall :=
  omap (fun ev => match ev with Invoke c => Some c | Mutate _ => None end) evs.

Definition mutations_of (evs : list Event) : list Mutation :=
  omap (fun ev => match ev with Mutate m => Some m | Invoke _ => None end) evs.

(** An event of a caller that holds the store [h] and nothing else: its
    mutations are on objects of [h]. *)
Definition caller_event (h : Heap) (ev : Event) : Prop :=
  match ev with Mutate m => target m ∈ dom h | Invoke _ => True end.

(** A session: the events in order, from store [h] and engine
    attributes [s]. A method runs on the state the store shows it; an
    exception ends the session. *)
Fixpoint session (k : EngineClass) (refs : list loc) (sl : loc)
    (evs : list Event) (h : Heap) (s : State) (tr : list Action)
    (s' : State) (r : option Exn) : Prop :=
  match evs with
  | [] => tr = [] /\ s' = s /\ r = None
  | Mutate m :: evs' => session k refs sl evs' (mutate h m) s tr s' r
  | Invoke c :: evs' =>
      exists ls,
        live_state refs sl h s = Some ls /\
        ((exists s1 tr1 tr2,
            invoke k c ls tr1 s1 None /\
            session k refs sl evs' h s1 tr2 s' r /\ tr = tr1 ++ tr2) \/
         (exists ex, invoke k c ls tr s' (Some ex) /\ r = Some ex))
  end.

(** What the caller does after the construction in the sample: it
    mutates its lists and their elements between the calls. *)
Definition sample_events : list Event :=
  [Mutate (list_append 0%nat 3%nat); Invoke do_init_material;
   Mutate (list_delitem 1%nat 0%nat); Invoke do_init_source;
   Mutate (geom_setattr 2%nat (mkGeom "default"%string "metal"%string));
   Invoke do_step].

(** The same calls from a caller that leaves its lists alone. *)
Definition quiet_events : list Event :=
  [Invoke do_init_material; Invoke do_init_source; Invoke do_step].

(** ** Notions for the class family

    The components each class handles, as its docstring and its three
    overridden methods name them. *)

Definition e_components (k : EngineClass) : list Component :=
  match k with
  | FDTD => [Ex; Ey; Ez]
  | TExFDTD => [Ey; Ez]
  | TEyFDTD => [Ez; Ex]
  | TEzFDTD => [Ex; Ey]
  | TMxFDTD => [Ex]
  | TMyFDTD => [Ey]
  | TMzFDTD => [Ez]
  | TEMxFDTD => [Ey]
  | TEMyFDTD => [Ez]
  | TEMzFDTD => [Ex]
  end.

Definition h_components (k : EngineClass) : list Component :=
  match k with
  | FDTD => [Hx; Hy; Hz]
  | TExFDTD => [Hx]
  | TEyFDTD => [Hy]
  | TEzFDTD => [Hz]
  | TMxFDTD => [Hy; Hz]
  | TMyFDTD => [Hz; Hx]
  | TMzFDTD => [Hx; Hy]
  | TEMxFDTD => [Hz]
  | TEMyFDTD => [Hx]
  | TEMzFDTD => [Hy]
  end.

Definition active (k : EngineClass) : list Component :=
  e_components k ++ h_components k.

(** The classes whose [step] runs the electric pass in the main thread,
    with the component of that pass. *)
Definition direct_electric (k : EngineClass) : option Component :=
  match k with
  | TMxFDTD => Some Ex
  | TMyFDTD => Some Ey
  | TMzFDTD => Some Ez
  | TEMxFDTD => Some Ey
  | TEMyFDTD => Some Ez
  | TEMzFDTD => Some Ex
  | _ => None
  end.

(** The first cell, in C order, that holds no rule. *)
Fixpoint first_unassigned (g : gmap Idx PwMaterial) (l : list Idx)
    : option Idx :=
  match l with
  | [] => None
  | idx :: l' =>
      match g !! idx with
      | Some _ => first_unassigned g l'
      | None => Some idx
      end
  end.

Definition first_hole (s : State) (c : Component) : option Idx :=
  first_unassigned (material_grid s c) (ndindex (arr_shape (field s c))).

(** The rules of the cells before the first one that holds none. *)
Fixpoint assigned_prefix (g : gmap Idx PwMaterial) (l : list Idx)
    : list PwMaterial :=
  match l with
  | [] => []
  | idx :: l' =>
      match g !! idx with
      | Some mo => mo :: assigned_prefix g l'
      | None => []
      end
  end.

(** A source that only rewrites cells: a cell that holds a rule holds
    one after its overlay. *)
Definition preserves_cells (so : Source) : Prop :=
  forall c sp (g : gmap Idx PwMaterial) idx,
    is_Some (g !! idx) -> is_Some (set_pointwise_source so c sp g !! idx).

(** Every rule invocation of the action is on a component of [comps]. *)
Definition calls_within (comps : list Component) (a : Action) : Prop :=
  forall c, is_call c a -> c ∈ comps.

(** The statements of [X] invoke, for each component of [comps] whose
    grid holds a rule in every cell, the rules of the grid as the table
    says, and no rule of any other component. *)
Definition wired (comps : list Component) (X : Main) : Prop :=
  forall s tr s',
    X s tr s' None ->
    (forall c, c ∈ comps -> populated s c) ->
    forall c,
      filter (is_call c) tr =
        if decide (c ∈ comps) then expected_calls s c else [].

(** Every lock operation of the action is on the lock of a component of
    [comps]. *)
Definition locks_within (comps : list Component) (a : Action) : Prop :=
  forall c, is_lock_op c a -> c ∈ comps.

(** The classes whose [step] runs the magnetic pass in the main thread,
    with the component of that pass. *)
Definition direct_magnetic (k : EngineClass) : option Component :=
  match k with
  | TExFDTD => Some Hx
  | TEyFDTD => Some Hy
  | TEzFDTD => Some Hz
  | TEMxFDTD => Some Hz
  | TEMyFDTD => Some Hx
  | TEMzFDTD => Some Hy
  | _ => None
  end.


(** The invocations of the update pass of [c] up to the first cell that
    holds no rule. *)
Definition partial_calls (s : State) (c : Component) : list Action :=
  (fun mo =>
     CallUpdate c mo (curl_partners c).1 (curl_partners c).2 (st_dt s)
       (curl_spacings s c).1 (curl_spacings s c).2)
  <$> assigned_prefix (material_grid s c) (ndindex (arr_shape (field s c))).

(** The classes of the module other than the three-dimensional one. *)
Definition reduced (k : EngineClass) : Prop := k <> FDTD.

(** ** The viewers: [_show], [show_ex] ... [show_hz], [show_line_ex],
    [snapshot_ex]

    A viewer reads the arrays and hands a view of one of them to an
    external display object; of the engine it changes the figure counter
    [fig_id] only, which is threaded here next to the [State]. A plane or
    a line of an array is a numpy view: it is recorded by the array it
    looks into, not by its samples. The positions [cut] are integers. *)

(** The [axis] argument of [_show], by the first of the tests
    [isinstance(axis, constants.X)], [... Y], [... Z] that it passes. *)
Inductive AxisArg := AxisX | AxisY | AxisZ | NotDirectional.

#[global] Instance AxisArg_eq_dec : EqDecision AxisArg.
Proof. solve_decision. Defined.

(** The exceptions of the viewers: the [ValueError] of [_show], a local
    name read before it was bound, a global name that is not defined, an
    index outside its axis, and the subscript of an object without
    [__getitem__]. *)
Inductive ViewExn :=
| ValueError (msg : string)
| UnboundLocalError (name : string)
| NameError (name : string)
| IndexError
| NotSubscriptable.

(** An integer used as an index into an axis of length [len]: a negative
    index counts from the end, anything outside the axis raises. *)
Definition normalize_index (len i : Z) : option Z :=
  if bool_decide (0 <= i < len) then Some i
  else if bool_decide (- len <= i < 0) then Some (i + len)
  else None.

(** The bounds of [lo:hi] on an axis of length [len]: negative bounds
    count from the end and both are clipped to the axis. *)
Definition clip_bound (len i : Z) : Z :=
  let j := if bool_decide (i < 0) then i + len else i in
  Z.max 0 (Z.min len j).

Definition slice_length (len lo hi : Z) : Z :=
  Z.max 0 (clip_bound len hi - clip_bound len lo).

(** [a[cut, :, :]], [a[:, cut, :]], [a[:, :, cut]]. *)
Record PlaneView := mkPlaneView {
  pv_array : Component; pv_axis : nat; pv_index : Z
}.

Definition plane (s : State) (c : Component) (a : nat) (cut : Z)
    : ViewExn + PlaneView :=
  match normalize_index (axis a (arr_shape (field s c))) cut with
  | Some i => inr (mkPlaneView c a i)
  | None => inl IndexError
  end.

(** [a[lo:hi, j, k]], [a[i, lo:hi, k]], [a[i, j, lo:hi]]: the axis of the
    slice, its bounds as written, and the two fixed indices, normalized,
    in the order of the axes. *)
Record LineView := mkLineView {
  lv_array : Component; lv_axis : nat; lv_lo : Z; lv_hi : Z;
  lv_fixed : Z * Z
}.

Definition line (s : State) (c : Component) (a : nat) (lo hi : Z)
    (b1 b2 : nat) (i1 i2 : Z) : ViewExn + LineView :=
  let sh := arr_shape (field s c) in
  match normalize_index (axis b1 sh) i1, normalize_index (axis b2 sh) i2 with
  | Some j1, Some j2 => inr (mkLineView c a lo hi (j1, j2))
  | _, _ => inl IndexError
  end.

Definition line_length (s : State) (v : LineView) : Z :=
  slice_length (axis (lv_axis v) (arr_shape (field s (lv_array v))))
    (lv_lo v) (lv_hi v).

Definition co0 (co : Coord) : Q := co.1.1.
Definition co1 (co : Coord) : Q := co.1.2.
Definition co2 (co : Coord) : Q := co.2.

(** [[i - 1 for i in shape]] and [[i + 1 for i in idx]]. *)
Definition pred_idx (i : Idx) : Idx := (ix0 i - 1, ix1 i - 1, ix2 i - 1).
Definition succ_idx (i : Idx) : Idx := (ix0 i + 1, ix1 i + 1, ix2 i + 1).

(** The arguments of [ShowPlane(field, extent, amp_range, self.time_step,
    xlabel, ylabel, title, msecs, self.fig_id)]; the time state is passed
    as the engine's own object. *)
Record ShowPlaneCall := mkShowPlane {
  sp_field : PlaneView; sp_extent : Q * Q * Q * Q; sp_amp_range : Q * Q;
  sp_xlabel : string; sp_ylabel : string; sp_title : string;
  sp_msecs : Z; sp_fig_id : Z
}.

(** One inner branch of [_show]: the plane of the array of [c] at [cut]
    across axis [a], the coordinate of index zero on the grid of [lowc],
    the coordinate of the last index on the grid of [c]. The conversion of
    [cut] to an index that ends the branch is stored in a local that is
    not read again. *)
Definition show_branch (s : State) (c lowc : Component) (a : nat) (cut : Z)
    : ViewExn + (PlaneView * Coord * Coord) :=
  match plane s c a cut with
  | inl e => inl e
  | inr fld =>
      inr (fld, index_to_space (space s) lowc (0, 0, 0),
           index_to_space (space s) c (pred_idx (arr_shape (field s c))))
  end.

(** [_show(component, axis, cut, amp_range, msecs, title)]: the call
    handed to the display and the new [fig_id]. In a branch of [axis]
    whose two tests on [component] both fail, [low] is read unbound. *)
Definition _show (s : State) (fig_id : Z) (component : Component)
    (axis_arg : AxisArg) (cut : Z) (amp_range : Q * Q) (msecs : Z)
    (title : string) : ViewExn + (ShowPlaneCall * Z) :=
  let unbound := inl (UnboundLocalError "low") in
  let picked :=
    match axis_arg with
    | AxisX =>
        match
          match component with
          | Ex => show_branch s Ex Ex 0 cut
          | Hx => show_branch s Hx Hx 0 cut
          | _ => unbound
          end
        with
        | inl e => inl e
        | inr (fld, low, high) =>
            inr (fld, (co2 low, co2 high, co1 low, co1 high),
                 "z"%string, "y"%string)
        end
    | AxisY =>
        match
          match component with
          | Ey => show_branch s Ey Ey 1 cut
          | Hy => show_branch s Hy Hy 1 cut
          | _ => unbound
          end
        with
        | inl e => inl e
        | inr (fld, low, high) =>
            inr (fld, (co2 low, co2 high, co0 low, co0 high),
                 "z"%string, "x"%string)
        end
    | AxisZ =>
        match
          match component with
          | Ez => show_branch s Ez Ez 2 cut
          | Hz => show_branch s Hz Ez 2 cut
          | _ => unbound
          end
        with
        | inl e => inl e
        | inr (fld, low, high) =>
            inr (fld, (co1 low, co1 high, co0 low, co0 high),
                 "y"%string, "x"%string)
        end
    | NotDirectional =>
        inl (ValueError
               "axis must be an instance of gmes.constants.Directional.")
    end in
  match picked with
  | inl e => inl e
  | inr (fld, extent, xlabel, ylabel) =>
      inr (mkShowPlane fld extent amp_range xlabel ylabel title msecs fig_id,
           fig_id + 1)
  end.

Definition show_ex (s : State) (fig_id : Z) (axis_arg : AxisArg) (cut : Z)
    (amp_range : Q * Q) (msecs : Z) :=
  _show s fig_id Ex axis_arg cut amp_range msecs "Ex field".

Definition show_ey (s : State) (fig_id : Z) (axis_arg : AxisArg) (cut : Z)
    (amp_range : Q * Q) (msecs : Z) :=
  _show s fig_id Ey axis_arg cut amp_range msecs "Ey field".

Definition show_ez (s : State) (fig_id : Z) (axis_arg : AxisArg) (cut : Z)
    (amp_range : Q * Q) (msecs : Z) :=
  _show s fig_id Ez axis_arg cut amp_range msecs "Ez field".

Definition show_hx (s : State) (fig_id : Z) (axis_arg : AxisArg) (cut : Z)
    (amp_range : Q * Q) (msecs : Z) :=
  _show s fig_id Hx axis_arg cut amp_range msecs "Hx field".

Definition show_hy (s : State) (fig_id : Z) (axis_arg : AxisArg) (cut : Z)
    (amp_range : Q * Q) (msecs : Z) :=
  _show s fig_id Hy axis_arg cut amp_range msecs "Hy field".

Definition show_hz (s : State) (fig_id : Z) (axis_arg : AxisArg) (cut : Z)
    (amp_range : Q * Q) (msecs : Z) :=
  _show s fig_id Hz axis_arg cut amp_range msecs "Hz field".

(** The six public viewers, by component. *)
Definition show (c : Component) :=
  match c with
  | Ex => show_ex | Ey => show_ey | Ez => show_ez
  | Hx => show_hx | Hy => show_hy | Hz => show_hz
  end.

(** The axis across which the plane of a component can be cut, as an
    argument and as its number. *)
Definition own_axis (c : Component) : AxisArg :=
  match c with Ex | Hx => AxisX | Ey | Hy => AxisY | Ez | Hz => AxisZ end.

Definition normal (c : Component) : nat :=
  match c with Ex | Hx => 0%nat | Ey | Hy => 1%nat | Ez | Hz => 2%nat end.

(** The extent and the labels [_show] derives from the two corners, for
    a cut across each axis. *)
Definition extent_of (a : AxisArg) (low high : Coord) : Q * Q * Q * Q :=
  match a with
  | AxisX => (co2 low, co2 high, co1 low, co1 high)
  | AxisY => (co2 low, co2 high, co0 low, co0 high)
  | _ => (co1 low, co1 high, co0 low, co0 high)
  end.

Definition labels_of (a : AxisArg) : string * string :=
  match a with
  | AxisX => ("z"%string, "y"%string)
  | AxisY => ("z"%string, "x"%string)
  | _ => ("y"%string, "x"%string)
  end.

(** The arguments of [ShowLine(x_data, y_data, y_range, self.time_step,
    xlabel, ylabel, title, msecs, self.fig_id)]. *)
Record ShowLineCall := mkShowLine {
  sl_x_data : list Q; sl_y_data : LineView; sl_y_range : Q * Q;
  sl_xlabel : string; sl_ylabel : string; sl_title : string;
  sl_msecs : Z; sl_fig_id : Z
}.

(** The first axis along which the segment spans more than one cell:
    the axis of [y_data]. *)
Definition data_axis (d : Z * Z * Z) : option nat :=
  if bool_decide (ix0 d > 1) then Some 0%nat
  else if bool_decide (ix1 d > 1) then Some 1%nat
  else if bool_decide (ix2 d > 1) then Some 2%nat
  else None.

(** The loop over the axes that picks [step] and [xlabel]: the value of
    [i] after the loop and whether the two names were bound. *)
Definition label_axis (d : Z * Z * Z) : nat * bool :=
  if bool_decide (ix0 d <> 1) then (0%nat, true)
  else if bool_decide (ix1 d <> 1) then (1%nat, true)
  else if bool_decide (ix2 d <> 1) then (2%nat, true)
  else (2%nat, false).

Definition axis_name (a : nat) : string :=
  match a with O => "x" | S O => "y" | _ => "z" end.

Definition axis_step (sp : Space) (a : nat) : Q :=
  match a with O => dx sp | S O => dy sp | _ => dz sp end.

Definition co_axis (a : nat) (co : Coord) : Q :=
  match a with O => co0 co | S O => co1 co | _ => co2 co end.

(** [show_line_ex(start, end, y_range, msecs)]; [arange] is numpy's. *)
Definition show_line_ex (arange : Q -> Q -> Q -> list Q) (s : State)
    (fig_id : Z) (start end_ : Coord) (y_range : Q * Q) (msecs : Z)
    : ViewExn + (ShowLineCall * Z) :=
  let start_idx := space_to_index (space s) Ex (Some start) in
  let end_idx := succ_idx (space_to_index (space s) Ex (Some end_)) in
  let y_data :=
    if bool_decide (ix0 end_idx - ix0 start_idx > 1) then
      match line s Ex 0 (ix0 start_idx) (ix0 end_idx) 1 2
              (ix1 start_idx) (ix2 start_idx) with
      | inl e => inl e | inr v => inr (Some v)
      end
    else if bool_decide (ix1 end_idx - ix1 start_idx > 1) then
      match line s Ex 1 (ix1 start_idx) (ix1 end_idx) 0 2
              (ix0 start_idx) (ix2 start_idx) with
      | inl e => inl e | inr v => inr (Some v)
      end
    else if bool_decide (ix2 end_idx - ix2 start_idx > 1) then
      match line s Ex 2 (ix2 start_idx) (ix2 end_idx) 0 1
              (ix0 start_idx) (ix1 start_idx) with
      | inl e => inl e | inr v => inr (Some v)
      end
    else inr None in
  match y_data with
  | inl e => inl e
  | inr y_data =>
      let start2 := index_to_space (space s) Ex start_idx in
      let end2 := index_to_space (space s) Ex end_idx in
      let domain_idx :=
        (ix0 end_idx - ix0 start_idx, ix1 end_idx - ix1 start_idx,
         ix2 end_idx - ix2 start_idx) in
      let '(i, bound) := label_axis domain_idx in
      if bound then
        let x_data :=
          arange (co_axis i start2) (co_axis i end2) (axis_step (space s) i) in
        match y_data with
        | None => inl (UnboundLocalError "y_data")
        | Some v =>
            let x_data :=
              if bool_decide (Z.of_nat (length x_data) > line_length s v)
              then removelast x_data else x_data in
            inr (mkShowLine x_data v y_range (axis_name i) "displacement"
                   "Ex field" msecs fig_id,
                 fig_id + 1)
        end
      else inl (UnboundLocalError "step")
  end.

(** The arguments of [snapshot(data, filename, 'ex')]. *)
Record SnapshotCall := mkSnapshot {
  sn_data : PlaneView; sn_filename : string; sn_name : string
}.

(** [self.time_step[1]]: the class [TimeStep] defines no [__getitem__]. *)
Definition time_step_getitem (ts : TimeStep) (i : Z) : ViewExn + Q :=
  inl NotSubscriptable.

(** [snapshot_ex(axis, cut)]. [generic_index] is the method
    [space_to_index] of the space, without a component; [global_dt] is
    the attribute [dt] of the module's global [space], if there is one;
    [str] is the conversion of the product to text. *)
Definition snapshot_ex (generic_index : Coord -> Idx)
    (global_dt : option Q) (str : Q -> string) (s : State)
    (axis_arg : string) (cut : Q) : ViewExn + SnapshotCall :=
  let data :=
    if bool_decide (axis_arg = "x"%string) then
      match plane s Ex 0 (ix0 (generic_index (cut, 0, 0)%Q)) with
      | inl e => inl e | inr v => inr (Some v)
      end
    else if bool_decide (axis_arg = "y"%string) then
      match plane s Ex 1 (ix1 (generic_index (0, cut, 0)%Q)) with
      | inl e => inl e | inr v => inr (Some v)
      end
    else if bool_decide (axis_arg = "z"%string) then
      match plane s Ex 2 (ix2 (generic_index (0, 0, cut)%Q)) with
      | inl e => inl e | inr v => inr (Some v)
      end
    else inr None in
  match data with
  | inl e => inl e
  | inr data =>
      match time_step_getitem (time_step s) 1 with
      | inl e => inl e
      | inr x =>
          match global_dt with
          | None => inl (NameError "space")
          | Some d =>
              match data with
              | None => inl (UnboundLocalError "data")
              | Some v =>
                  inr (mkSnapshot v ("t=" +:+ str (x * d)%Q) "ex")
              end
          end
      end
  end.

(** The memo table of a copy in progress over the base store [h0]:
    every entry sends an object to a location the base store did not
    have, which holds the same object; no two entries share their copy. *)
Definition memo_ok (h0 h : Heap) (memo : gmap loc loc) : Prop :=
  (forall x y, memo !! x = Some y ->
     (y ∈ dom h) /\ (y ∉ dom h0) /\ (h !! y = h0 !! x)) /\
  (forall x1 x2 y, memo !! x1 = Some y -> memo !! x2 = Some y -> x1 = x2).

(** What one action does to the array of component [c], when the other
    arrays are [env]. *)
Definition field_exec (env : Component -> Array) (c : Component)
    (arr : Array) (a : Action) : Array :=
  match a with
  | CallUpdate c' mo p1 p2 dt d1 d2 =>
      if decide (c' = c)
      then mkArray (arr_shape arr) (pw_update mo arr (env p1) (env p2) dt d1 d2)
      else arr
  | _ => arr
  end.

(** An action of a phase that updates the components of one kind
    (electric when [e] holds) from the components of the other kind. *)
Definition phase_pure (e : bool) (a : Action) : Prop :=
  match a with
  | CallUpdate c _ p1 p2 _ _ _ =>
      is_electric c = e /\ is_electric p1 = negb e /\ is_electric p2 = negb e
  | _ => True
  end.

(** A schedule of two threads that takes their actions in turn. *)
Fixpoint alternate {A} (l1 l2 : list A) : list A :=
  match l1, l2 with
  | a :: l1', b :: l2' => a :: b :: alternate l1' l2'
  | _, _ => l1 ++ l2
  end.

(** The trace of [TEzFDTD.step] over a schedule [trE] of its two
    electric threads. *)
Definition TEz_step_over (trE : list Action) (s : State) : list Action :=
  let blkE := trE ++ [IncN (1 # 2); SetT] in
  blkE ++
    ((method_body (m_update Hz) (run blkE s)).1 ++ [IncN (1 # 2); IncT]).

(** ** The counter as a binary64 number *)

(** A binary64 number: [m * 2 ^ e] with a significand of at most 53
    bits and an exponent in the range of the format. *)
Definition binary64 (q : Q) : Prop :=
  exists m e : Z,
    Z.abs m < 2 ^ 53 /\ -1074 <= e <= 971 /\
    (q == inject_Z m * Qpower 2 e)%Q.

(** The additions to the counter. *)
Definition is_inc (a : Action) : Prop :=
  match a with IncN _ => True | _ => False end.

#[global] Instance is_inc_dec a : Decision (is_inc a).
Proof. destruct a; simpl; apply _. Defined.

Definition additions (tr : list Action) : nat := length (filter is_inc tr).

(** An action that adds [d] to the counter, if it adds to it. *)
Definition adds (d : Q) (a : Action) : Prop :=
  match a with IncN d' => d' = d | _ => True end.

(** ** Schedules *)

Section Interleave.
Context {A : Type}.
Implicit Types (ls : list (list A)) (tr : list A).

Lemma interleave_nil_inv ls tr :
  Forall (fun l => l = []) ls -> interleave ls tr -> tr = [].
Proof.
  intros Hall Hi. destruct Hi as [|ls i a l tr Hl _]; [done|].
  apply (Forall_lookup_1 _ _ _ _ Hall) in Hl. discriminate.
Qed.

(** Running the threads one after the other is a schedule. *)
Lemma interleave_concat ls : interleave ls (concat ls).
Proof.
  assert (Hgen : forall pre,
    Forall (fun l => l = []) pre -> interleave (pre ++ ls) (concat ls)).
  { induction ls as [|l ls IH]; intros pre Hpre; simpl.
    - rewrite app_nil_r. by constructor.
    - induction l as [|a l IHl]; simpl.
      + replace (pre ++ [] :: ls) with ((pre ++ [[]]) ++ ls)
          by (by rewrite <- app_assoc).
        apply IH. apply Forall_app. split; [done|]. by repeat constructor.
      + apply (interleave_step _ (length pre) a l).
        * by rewrite list_lookup_middle.
        * rewrite insert_app_r_alt by lia.
          replace (length pre - length pre)%nat with 0%nat by lia. simpl.
          exact IHl. }
  apply (Hgen []). constructor.
Qed.

(** Every action of a schedule is an action of some thread, and back. *)
Lemma interleave_elem_of ls tr a :
  interleave ls tr -> a ∈ tr <-> exists l, l ∈ ls /\ a ∈ l.
Proof.
  induction 1 as [ls Hall|ls i b l tr Hl Hi IH].
  - split; [intros Ha; by apply elem_of_nil in Ha|].
    intros (l & Hl & Ha). rewrite Forall_forall in Hall.
    rewrite (Hall _ Hl) in Ha. by apply elem_of_nil in Ha.
  - rewrite elem_of_cons, IH. split.
    + intros [->|(l' & Hl' & Ha)].
      * exists (b :: l). split; [by eapply list_elem_of_lookup_2|left].
      * apply list_elem_of_lookup in Hl' as [j Hj].
        destruct (decide (j = i)) as [->|Hne].
        -- rewrite list_lookup_insert_eq in Hj
             by (by eapply lookup_lt_Some).
           injection Hj as <-. exists (b :: l).
           split; [by eapply list_elem_of_lookup_2|by right].
        -- rewrite list_lookup_insert_ne in Hj by done.
           exists l'. split; [by eapply list_elem_of_lookup_2|done].
    + intros (l' & Hl' & Ha).
      apply list_elem_of_lookup in Hl' as [j Hj].
      destruct (decide (j = i)) as [->|Hne].
      * rewrite Hl in Hj. injection Hj as <-.
        apply elem_of_cons in Ha as [->|Ha]; [by left|right].
        exists l. split; [|done].
        apply list_elem_of_lookup. exists i.
        apply list_lookup_insert_eq. by eapply lookup_lt_Some.
      * right. exists l'. split; [|done].
        apply list_elem_of_lookup. exists j.
        by rewrite list_lookup_insert_ne.
Qed.

(** Selecting actions from a schedule gives a schedule of the selections. *)
Lemma interleave_filter (P : A -> Prop) `{!forall x, Decision (P x)} ls tr :
  interleave ls tr -> interleave (filter P <$> ls) (filter P tr).
Proof.
  induction 1 as [ls Hall|ls i a l tr Hl Hi IH].
  - constructor. apply Forall_fmap. eapply Forall_impl; [exact Hall|].
    by intros l ->.
  - rewrite list_fmap_insert in IH.
    destruct (decide (P a)) as [Ha|Ha].
    + rewrite filter_cons_True by done.
      apply (interleave_step _ i a (filter P l)); [|done].
      rewrite list_lookup_fmap, Hl. simpl. by rewrite filter_cons_True.
    + rewrite filter_cons_False by done.
      rewrite list_insert_id in IH; [done|].
      rewrite list_lookup_fmap, Hl. simpl. by rewrite filter_cons_False.
Qed.

(** When only one thread has actions, the schedule is that thread. *)
Lemma interleave_single ls tr i l :
  interleave ls tr -> ls !! i = Some l ->
  (forall j l', j <> i -> ls !! j = Some l' -> l' = []) ->
  tr = l.
Proof.
  intros Hi. revert l. induction Hi as [ls Hall|ls k a l0 tr Hl Hi IH];
    intros l Hli Hothers.
  - symmetry. apply (Forall_lookup_1 _ _ _ _ Hall Hli).
  - destruct (decide (k = i)) as [->|Hne].
    + rewrite Hl in Hli. injection Hli as <-. f_equal. apply IH.
      * apply list_lookup_insert_eq. by eapply lookup_lt_Some.
      * intros j l' Hj Hl'. rewrite list_lookup_insert_ne in Hl' by done.
        by eapply Hothers.
    + by specialize (Hothers k _ Hne Hl).
Qed.

(** The actions one thread alone can take keep their order. *)
Lemma interleave_project (P : A -> Prop) `{!forall x, Decision (P x)} ls tr i l :
  interleave ls tr -> ls !! i = Some l ->
  (forall j l', j <> i -> ls !! j = Some l' -> Forall (fun a => ~ P a) l') ->
  filter P tr = filter P l.
Proof.
  intros Hi Hl Hothers.
  apply (interleave_single (filter P <$> ls) _ i).
  - by apply interleave_filter.
  - by rewrite list_lookup_fmap, Hl.
  - intros j l' Hj Hl'. rewrite list_lookup_fmap in Hl'.
    destruct (ls !! j) as [l0|] eqn:Hl0; [|discriminate].
    injection Hl' as <-. specialize (Hothers j l0 Hj Hl0).
    clear Hl0. induction Hothers as [|a l1 Ha _ IH]; [done|].
    by rewrite filter_cons_False.
Qed.

End Interleave.

(** ** Workers *)

Lemma wbind_trace {A B} (m : Worker A) (f : A -> Worker B) :
  (wbind m f).1 =
    m.1 ++ match m.2 with inl _ => [] | inr x => (f x).1 end.
Proof. destruct m as [tr [e|x]]; simpl; [by rewrite app_nil_r|done]. Qed.

Lemma wbind_result {A B} (m : Worker A) (f : A -> Worker B) :
  (wbind m f).2 =
    match m.2 with inl e => inl e | inr x => (f x).2 end.
Proof. by destruct m as [tr [e|x]]. Qed.

Lemma for_each_Forall {A} (P : Action -> Prop) (l : list A)
    (body : A -> Worker unit) :
  (forall x, x ∈ l -> Forall P (body x).1) ->
  Forall P (for_each l body).1.
Proof.
  induction l as [|x l IH]; intros Hbody; simpl; [constructor|].
  rewrite wbind_trace. apply Forall_app. split.
  - apply Hbody. by left.
  - destruct (body x).2; [constructor|].
    apply IH. intros y Hy. apply Hbody. by right.
Qed.

(** A loop whose body emits one action per element and never raises. *)
Lemma for_each_emit {A} (l : list A) (f : A -> Action) :
  for_each l (fun x => emit (f x)) = (f <$> l, inr tt).
Proof.
  induction l as [|x l IH]; [done|].
  simpl. rewrite IH. reflexivity.
Qed.

Lemma for_each_ext {A} (l : list A) (body1 body2 : A -> Worker unit) :
  (forall x, x ∈ l -> body1 x = body2 x) ->
  for_each l body1 = for_each l body2.
Proof.
  induction l as [|x l IH]; intros Heq; [done|].
  simpl. rewrite (Heq x) by (by left). rewrite IH; [done|].
  intros y Hy. apply Heq. by right.
Qed.

(** A method emits only its own actions. *)
Lemma init_material_pass_emits c boundary s :
  Forall (emits (m_init_material c)) (init_material_pass c boundary s).1.
Proof.
  unfold init_material_pass. rewrite !wbind_trace. simpl.
  apply Forall_cons. split; [simpl; by left|].
  apply Forall_app. split.
  - apply for_each_Forall. intros idx _.
    destruct (boundary _ idx); [by repeat constructor|].
    simpl. destruct (geom_tree s _); by repeat constructor.
  - destruct (for_each _ _).2; [constructor|].
    apply Forall_cons. split; [simpl; by left|constructor].
Qed.

Lemma init_source_pass_emits c s :
  Forall (emits (m_init_source c)) (init_source_pass c s).1.
Proof.
  unfold init_source_pass. apply for_each_Forall. intros so _.
  by repeat constructor.
Qed.

Lemma update_pass_emits c p1 p2 d1 d2 s :
  Forall (emits (m_update c)) (update_pass c p1 p2 d1 d2 s).1.
Proof.
  unfold update_pass. rewrite !wbind_trace. simpl.
  apply Forall_cons. split; [simpl; by right|].
  apply Forall_app. split.
  - apply for_each_Forall. intros cell _.
    destruct cell.2; by repeat constructor.
  - destruct (for_each _ _).2; [constructor|].
    apply Forall_cons. split; [simpl; by right|constructor].
Qed.

Lemma method_body_emits m s : Forall (emits m) (method_body m s).1.
Proof.
  destruct m as [c|c|c|c]; destruct c; cbn [method_body];
    first [ apply init_material_pass_emits
          | apply init_source_pass_emits
          | apply update_pass_emits
          | by apply Forall_nil
          | apply Forall_cons; split; [reflexivity|by apply Forall_nil] ].
Qed.

Lemma thread_emits m s : Forall (emits m) (thread m s).
Proof.
  unfold thread. constructor; [done|].
  apply Forall_app. split; [apply method_body_emits|].
  destruct (method_body m s).2; by repeat constructor.
Qed.

(** ** Running a trace: what each part of the state depends on *)

Lemma run_app tr1 tr2 s : run (tr1 ++ tr2) s = run tr2 (run tr1 s).
Proof. apply fold_left_app. Qed.

Lemma run_cons a tr s : run (a :: tr) s = run tr (exec a s).
Proof. reflexivity. Qed.

Lemma schedulable_app tr1 tr2 s :
  schedulable (tr1 ++ tr2) s <->
  schedulable tr1 s /\ schedulable tr2 (run tr1 s).
Proof.
  revert s. induction tr1 as [|a tr1 IH]; intros s; simpl; [tauto|].
  rewrite IH. tauto.
Qed.

(** A part of the state that only the actions in [P] write is left alone
    by a trace without them. *)
Lemma run_frame {X} (proj : State -> X) (P : Action -> Prop) :
  (forall a s, ~ P a -> proj (exec a s) = proj s) ->
  forall tr s, Forall (fun a => ~ P a) tr -> proj (run tr s) = proj s.
Proof.
  intros Hexec tr. induction tr as [|a tr IH]; intros s Hall; [done|].
  apply Forall_cons in Hall as [Ha Hall].
  rewrite run_cons, IH by done. by apply Hexec.
Qed.

(** No action writes the configuration. *)
Lemma run_config tr s :
  space (run tr s) = space s /\ st_dx (run tr s) = st_dx s /\
  st_dy (run tr s) = st_dy s /\ st_dz (run tr s) = st_dz s /\
  st_dt (run tr s) = st_dt s /\ geom_tree (run tr s) = geom_tree s /\
  src_list (run tr s) = src_list s.
Proof.
  revert s. induction tr as [|a tr IH]; intros s; [done|].
  rewrite run_cons. destruct (IH (exec a s)) as (-> & -> & -> & -> & -> & -> & ->).
  by destruct a.
Qed.

(** Updates rewrite samples in place: no array changes its shape. *)
Lemma run_shape tr s c :
  arr_shape (field (run tr s) c) = arr_shape (field s c).
Proof.
  revert s. induction tr as [|a tr IH]; intros s; [done|].
  rewrite run_cons, IH. destruct a; try done.
  simpl. unfold upd. by case_decide; subst.
Qed.

Lemma run_time_step tr s :
  Forall (fun a => ~ is_tick a) tr -> time_step (run tr s) = time_step s.
Proof.
  apply (run_frame time_step is_tick). intros a s0 Ha.
  destruct a; try done; by destruct Ha.
Qed.

Lemma run_field tr s c :
  Forall (fun a => ~ is_call c a) tr -> field (run tr s) c = field s c.
Proof.
  apply (run_frame (fun s => field s c) (is_call c)). intros a s0 Ha.
  destruct a; try done. simpl in *. unfold upd. by case_decide.
Qed.

Lemma run_hdf5_log tr s :
  Forall (fun a => ~ is_export a) tr -> hdf5_log (run tr s) = hdf5_log s.
Proof.
  apply (run_frame hdf5_log is_export). intros a s0 Ha.
  destruct a; try done; by destruct Ha.
Qed.

(** The grid of a component is the fold of its own writes. *)
Lemma run_material_grid tr s c :
  material_grid (run tr s) c =
    fold_left (grid_exec c (space s)) tr (material_grid s c).
Proof.
  revert s. induction tr as [|a tr IH]; intros s; [done|].
  rewrite run_cons, IH. simpl.
  replace (space (exec a s)) with (space s) by (by destruct a).
  f_equal. destruct a; try done; simpl; unfold upd;
    (case_decide; case_decide; congruence).
Qed.

Lemma grid_fold_filter c sp tr g :
  fold_left (grid_exec c sp) tr g =
    fold_left (grid_exec c sp) (filter (is_grid_write c) tr) g.
Proof.
  revert g. induction tr as [|a tr IH]; intros g; [done|].
  destruct (decide (is_grid_write c a)) as [Ha|Ha].
  - rewrite filter_cons_True by done. simpl. apply IH.
  - rewrite filter_cons_False by done. simpl. rewrite <- IH. f_equal.
    destruct a; try done; simpl in *; by case_decide.
Qed.

(** The lock of a component is the fold of its own operations. *)
Lemma run_lock tr s c :
  lock (run tr s) c = fold_left (lock_exec c) tr (lock s c).
Proof.
  revert s. induction tr as [|a tr IH]; intros s; [done|].
  rewrite run_cons, IH. simpl. f_equal.
  destruct a; try done; simpl; unfold upd;
    (case_decide; case_decide; congruence).
Qed.

Lemma lock_fold_filter c tr b :
  fold_left (lock_exec c) tr b =
    fold_left (lock_exec c) (filter (is_lock_op c) tr) b.
Proof.
  revert b. induction tr as [|a tr IH]; intros b; [done|].
  destruct (decide (is_lock_op c a)) as [Ha|Ha].
  - rewrite filter_cons_True by done. simpl. apply IH.
  - rewrite filter_cons_False by done. simpl. rewrite <- IH. f_equal.
    destruct a; try done; simpl in *; by case_decide.
Qed.

(** ** The main thread *)

Lemma seq_normal (m1 m2 : Main) s tr s' r :
  (forall s0 tr0 s0' e, ~ m1 s0 tr0 s0' (Some e)) ->
  (m1 >>> m2) s tr s' r ->
  exists s1 tr1 tr2, m1 s tr1 s1 None /\ m2 s1 tr2 s' r /\ tr = tr1 ++ tr2.
Proof.
  intros Hnoraise [H|(e & H & _)]; [done|]. by apply Hnoraise in H.
Qed.

Lemma fork_join_returns targets s tr s' e :
  ~ fork_join targets s tr s' (Some e).
Proof. unfold fork_join. intros (_ & _ & _ & ?). discriminate. Qed.

Lemma act_returns a s tr s' e : ~ act a s tr s' (Some e).
Proof. unfold act. intros (_ & _ & ?). discriminate. Qed.

Lemma advance_inv d s tr s' r :
  advance d s tr s' r ->
  tr = [IncN d; SetT] /\ s' = run [IncN d; SetT] s /\ r = None.
Proof.
  intros H. apply seq_normal in H; [|apply act_returns].
  destruct H as (s1 & tr1 & tr2 & (-> & -> & _) & (-> & -> & ->) & ->).
  done.
Qed.

(** After [advance d] the counter is [d] further and the time is the
    counter times the time step. *)
Lemma advance_time d s :
  time_step (run [IncN d; SetT] s) =
    mkTime (n (time_step s) + d)%Q ((n (time_step s) + d) * st_dt s)%Q.
Proof. reflexivity. Qed.

(** Every action of a fork-join block is emitted by one of its targets. *)
Lemma fork_join_emits targets s tr s' r :
  fork_join targets s tr s' r ->
  Forall (fun a => exists m, m ∈ targets /\ emits m a) tr.
Proof.
  intros (Hi & _). apply Forall_forall. intros a Ha.
  apply (interleave_elem_of _ _ a Hi) in Ha as (l & Hl & Ha).
  apply list_elem_of_fmap in Hl as (m & -> & Hm).
  exists m. split; [done|].
  pose proof (thread_emits m s) as Hall. rewrite Forall_forall in Hall.
  by apply Hall.
Qed.

Lemma fork_join_no_tick targets s tr s' r :
  fork_join targets s tr s' r -> Forall (fun a => ~ is_tick a) tr.
Proof.
  intros H. eapply Forall_impl; [by eapply fork_join_emits|].
  intros a (m & _ & Hm) Ha. by destruct a.
Qed.

Lemma method_body_no_tick m s :
  Forall (fun a => ~ is_tick a) (method_body m s).1.
Proof.
  eapply Forall_impl; [apply method_body_emits|].
  intros a Hm Ha. by destruct a.
Qed.

(** Two different methods share an action only when they are the two
    users of one lock. *)
Lemma emits_shared m m' a :
  emits m a -> emits m' a -> m <> m' ->
  exists c, (m = m_init_material c /\ m' = m_update c) \/
            (m = m_update c /\ m' = m_init_material c).
Proof.
  destruct a; simpl; try congruence; try tauto.
  - intros [->| ->] [->| ->] Hne; try done; exists c; tauto.
  - intros [->| ->] [->| ->] Hne; try done; exists c; tauto.
Qed.

Lemma emits_stepping_inj m m' a :
  stepping m -> stepping m' -> emits m a -> emits m' a -> m = m'.
Proof.
  intros Hm Hm' Ha Ha'. destruct (decide (m = m')) as [|Hne]; [done|].
  destruct (emits_shared m m' a Ha Ha' Hne) as (c & [[-> ->]|[-> ->]]);
    by simpl in *.
Qed.

Lemma emits_building_inj m m' a :
  building m -> building m' -> emits m a -> emits m' a -> m = m'.
Proof.
  intros Hm Hm' Ha Ha'. destruct (decide (m = m')) as [|Hne]; [done|].
  destruct (emits_shared m m' a Ha Ha' Hne) as (c & [[-> ->]|[-> ->]]);
    by simpl in *.
Qed.

(** In a block whose targets are pairwise distinct and of one kind, the
    actions of one target are its thread, in order. *)
Lemma fork_join_thread (kind : Method -> Prop) targets s tr s' r m :
  (forall m1 m2 a, kind m1 -> kind m2 -> emits m1 a -> emits m2 a -> m1 = m2) ->
  Forall kind targets -> NoDup targets -> m ∈ targets ->
  fork_join targets s tr s' r ->
  filter (emits m) tr = thread m s.
Proof.
  intros Hinj Hkind Hnodup Hm (Hi & _).
  apply list_elem_of_lookup in Hm as [i Hi'].
  rewrite (interleave_project (emits m) _ _ i (thread m s) Hi).
  - pose proof (thread_emits m s) as Hall.
    induction Hall as [|a l Ha _ IH]; [done|].
    by rewrite filter_cons_True, IH.
  - by rewrite list_lookup_fmap, Hi'.
  - intros j l' Hj Hl'. rewrite list_lookup_fmap in Hl'.
    destruct (targets !! j) as [m'|] eqn:Hm'; [|discriminate].
    injection Hl' as <-.
    eapply Forall_impl; [apply thread_emits|].
    intros a Ha' Ha. rewrite Forall_forall in Hkind.
    assert (m' = m) as ->.
    { eapply Hinj; [| |done|done]; apply Hkind;
        by eapply list_elem_of_lookup_2. }
    apply Hj. by eapply NoDup_lookup.
Qed.

(** A target that is not in the block has no action in it. *)
Lemma fork_join_absent (kind : Method -> Prop) targets s tr s' r m :
  (forall m1 m2 a, kind m1 -> kind m2 -> emits m1 a -> emits m2 a -> m1 = m2) ->
  Forall kind targets -> kind m -> m ∉ targets ->
  fork_join targets s tr s' r ->
  filter (emits m) tr = [].
Proof.
  intros Hinj Hkind Hm Hnotin Hfj.
  pose proof (fork_join_emits _ _ _ _ _ Hfj) as Hall. clear Hfj.
  induction Hall as [|a l (m' & Hm' & Ha') _ IH]; [done|].
  rewrite filter_cons_False; [done|].
  intros Ha. apply Hnotin. rewrite Forall_forall in Hkind.
  by rewrite (Hinj m m' a Hm (Hkind _ Hm') Ha Ha').
Qed.

(** ** What threads read is static *)

Lemma same_static_refl s : same_static s s.
Proof. by repeat split. Qed.

Lemma same_static_trans s1 s2 s3 :
  same_static s1 s2 -> same_static s2 s3 -> same_static s1 s3.
Proof.
  intros (? & ? & ? & ? & ? & ? & ? & Hsh & Hg)
         (? & ? & ? & ? & ? & ? & ? & Hsh' & Hg').
  repeat split; try congruence.
Qed.

Lemma same_static_run tr s :
  Forall (fun a => forall c, ~ is_grid_write c a) tr ->
  same_static s (run tr s).
Proof.
  intros Hall. unfold same_static.
  destruct (run_config tr s) as (-> & -> & -> & -> & -> & -> & ->).
  repeat split; try done.
  - intros c. by rewrite run_shape.
  - intros c. rewrite run_material_grid, grid_fold_filter.
    replace (filter (is_grid_write c) tr) with (@nil Action); [done|].
    symmetry. clear s. induction Hall as [|a l Ha _ IH]; [done|].
    by rewrite filter_cons_False.
Qed.

(** A method called on two states with the same static parts does the
    same. *)
Lemma method_body_static m s1 s2 :
  same_static s1 s2 -> method_body m s1 = method_body m s2.
Proof.
  intros (Hsp & Hdx & Hdy & Hdz & Hdt & Htree & Hsrc & Hsh & Hg).
  destruct m as [c|c|c|c]; destruct c; cbn [method_body];
    unfold init_material_ex, init_material_ey, init_material_ez,
      init_material_hx, init_material_hy, init_material_hz,
      init_material_pass,
      init_source_ex, init_source_ey, init_source_ez,
      init_source_hx, init_source_hy, init_source_hz, init_source_pass,
      update_ex, update_ey, update_ez, update_hx, update_hy, update_hz,
      update_pass, flat, write_ex;
    rewrite ?Hsp, ?Hdx, ?Hdy, ?Hdz, ?Hdt, ?Htree, ?Hsrc, ?Hsh, ?Hg;
    reflexivity.
Qed.

Lemma thread_static m s1 s2 :
  same_static s1 s2 -> thread m s1 = thread m s2.
Proof. intros H. unfold thread. by rewrite (method_body_static m s1 s2 H). Qed.

Lemma phase_block_static f s1 s2 electric blk :
  same_static s1 s2 ->
  phase_block f s1 electric blk -> phase_block f s2 electric blk.
Proof.
  intros Hst Hblk c. rewrite (Hblk c).
  by rewrite (thread_static (f c) s1 s2 Hst).
Qed.

(** ** Traces of the overridable methods *)

Lemma traces_in_seq P (m1 m2 : Main) :
  traces_in P m1 -> traces_in P m2 -> traces_in P (m1 >>> m2).
Proof.
  intros H1 H2 s tr s' r [(s1 & tr1 & tr2 & Hm1 & Hm2 & ->)|(e & Hm1 & ->)].
  - apply H1 in Hm1 as [-> Hall1]. apply H2 in Hm2 as [-> Hall2].
    split; [by rewrite run_app|]. apply Forall_app. by split.
  - by apply H1 in Hm1.
Qed.

Lemma traces_in_fork_join (P : Action -> Prop) targets :
  (forall m a, m ∈ targets -> emits m a -> P a) ->
  traces_in P (fork_join targets).
Proof.
  intros HP s tr s' r Hfj. split; [apply Hfj|].
  eapply Forall_impl; [by eapply fork_join_emits|].
  intros a (m & Hm & Ha). by eapply HP.
Qed.

Lemma traces_in_call (P : Action -> Prop) m :
  (forall a, emits m a -> P a) -> traces_in P (call m).
Proof.
  intros HP s tr s' r (-> & _ & -> & _). split; [done|].
  eapply Forall_impl; [apply method_body_emits|]. done.
Qed.

Lemma traces_in_act (P : Action -> Prop) a : P a -> traces_in P (act a).
Proof.
  intros HP s tr s' r (-> & -> & _). split; [done|]. by repeat constructor.
Qed.

Lemma traces_in_skip (P : Action -> Prop) : traces_in P skip.
Proof. intros s tr s' r (-> & -> & _). split; [done|]. constructor. Qed.

Lemma step_action_stepping m a : stepping m -> emits m a -> step_action a.
Proof. intros Hm Ha. left. by exists m. Qed.

Lemma step_traces k : traces_in step_action (step k).
Proof.
  destruct k; unfold step, e_phase, h_phase, advance;
    repeat first
      [ apply traces_in_seq
      | apply traces_in_act; by right
      | apply traces_in_call; intros a; by apply step_action_stepping
      | apply traces_in_fork_join; intros m a Hm;
        apply step_action_stepping;
        repeat (apply elem_of_cons in Hm as [->|Hm]; [done|]);
        by apply elem_of_nil in Hm ].
Qed.

Lemma steps_traces k count : traces_in step_action (steps k count).
Proof.
  induction count as [|count IH]; simpl.
  - apply traces_in_skip.
  - apply traces_in_seq; [apply step_traces|done].
Qed.

Lemma step_action_no_grid_write a c : step_action a -> ~ is_grid_write c a.
Proof.
  intros [(m & Hm & Ha)|Ha] Hw; destruct a; try done;
    simpl in *; subst; done.
Qed.

(** Stepping leaves the static parts alone, whatever the class. *)
Lemma step_static k s tr s' r : step k s tr s' r -> same_static s s'.
Proof.
  intros H. apply step_traces in H as [-> Hall].
  apply same_static_run. eapply Forall_impl; [exact Hall|].
  intros a Ha c. by apply step_action_no_grid_write.
Qed.

(** ** Building runs *)

Lemma seq_intro (m1 m2 : Main) s tr1 s1 tr2 s' r :
  m1 s tr1 s1 None -> m2 s1 tr2 s' r -> (m1 >>> m2) s (tr1 ++ tr2) s' r.
Proof. intros H1 H2. left. by exists s1, tr1, tr2. Qed.

Lemma fork_join_sequential targets s :
  schedulable (sequential targets s) s ->
  fork_join targets s (sequential targets s)
    (run (sequential targets s) s) None.
Proof. intros Hs. repeat split; [apply interleave_concat|done]. Qed.

Lemma call_intro m s :
  schedulable (method_body m s).1 s ->
  call m s (method_body m s).1 (run (method_body m s).1 s)
    match (method_body m s).2 with inl e => Some e | inr _ => None end.
Proof. by repeat split. Qed.

Lemma advance_intro d s :
  advance d s [IncN d; SetT] (run [IncN d; SetT] s) None.
Proof. apply (seq_intro _ _ s [IncN d] (exec (IncN d) s) [SetT]); by repeat split. Qed.

(** ** The full three-dimensional stepper *)

Lemma seq_never_raises (m1 m2 : Main) :
  never_raises m1 -> never_raises m2 -> never_raises (m1 >>> m2).
Proof.
  intros H1 H2 s tr s' e [(s1 & tr1 & tr2 & _ & Hm2 & _)|(e' & Hm1 & _)].
  - by apply H2 in Hm2.
  - by apply H1 in Hm1.
Qed.

Lemma advance_never_raises d : never_raises (advance d).
Proof. apply seq_never_raises; intros s tr s' e; apply act_returns. Qed.

Lemma FDTD_e_phase_never_raises : never_raises (e_phase FDTD).
Proof.
  apply seq_never_raises; [|apply advance_never_raises].
  intros s tr s' e. apply fork_join_returns.
Qed.

Lemma FDTD_h_phase_never_raises : never_raises (h_phase FDTD).
Proof.
  apply seq_never_raises; [|apply advance_never_raises].
  intros s tr s' e. apply fork_join_returns.
Qed.

Lemma FDTD_step_never_raises : never_raises (step FDTD).
Proof.
  apply seq_never_raises;
    [apply FDTD_e_phase_never_raises|apply FDTD_h_phase_never_raises].
Qed.

(** The two blocks of a call of [FDTD.step]. *)
Lemma FDTD_step_inv s tr s' r :
  step FDTD s tr s' r ->
  exists trE sE trH sH,
    fork_join [m_update Ex; m_update Ey; m_update Ez;
               m_write Hx; m_write Hy; m_write Hz] s trE sE None /\
    fork_join [m_update Hx; m_update Hy; m_update Hz;
               m_write Ex; m_write Ey; m_write Ez]
      (run [IncN (1 # 2); SetT] sE) trH sH None /\
    tr = (trE ++ [IncN (1 # 2); SetT]) ++ (trH ++ [IncN (1 # 2); SetT]) /\
    s' = run [IncN (1 # 2); SetT] sH /\ r = None.
Proof.
  intros H. apply seq_normal in H; [|apply FDTD_e_phase_never_raises].
  destruct H as (s1 & tr1 & tr2 & He & Hh & ->).
  apply seq_normal in He; [|intros ? ? ? ?; apply fork_join_returns].
  destruct He as (sE & trE & tk1 & HfjE & Hadv1 & ->).
  apply advance_inv in Hadv1 as (-> & -> & _).
  apply seq_normal in Hh; [|intros ? ? ? ?; apply fork_join_returns].
  destruct Hh as (sH & trH & tk2 & HfjH & Hadv2 & ->).
  apply advance_inv in Hadv2 as (-> & -> & ->).
  by exists trE, sE, trH, sH.
Qed.

(** The block of a fork-join of stepping threads, read for [f]. *)
Lemma fork_join_phase_block (f : Component -> Method) targets electric
    ticks s tr s' r :
  (forall c, stepping (f c)) ->
  Forall stepping targets -> NoDup targets ->
  (forall c, f c ∈ targets <-> is_electric c = electric) ->
  Forall is_tick ticks ->
  fork_join targets s tr s' r ->
  phase_block f s electric (tr ++ ticks).
Proof.
  intros Hf Hkind Hnodup Hin Hticks Hfj c.
  rewrite filter_app.
  replace (filter (emits (f c)) ticks) with (@nil Action).
  2:{ symmetry. induction Hticks as [|a l Ha _ IH]; [done|].
      rewrite filter_cons_False; [done|]. destruct a; simpl in *; tauto. }
  rewrite app_nil_r. case_bool_decide as Hc.
  - eapply (fork_join_thread stepping); eauto using emits_stepping_inj.
    by apply Hin.
  - eapply (fork_join_absent stepping); eauto using emits_stepping_inj.
    by rewrite Hin.
Qed.

Lemma same_static_sym s1 s2 : same_static s1 s2 -> same_static s2 s1.
Proof.
  intros (? & ? & ? & ? & ? & ? & ? & Hsh & Hg). by repeat split.
Qed.

Ltac solve_targets :=
  first
    [ by intros []
    | by repeat constructor
    | by apply (bool_decide_unpack _); vm_compute
    | by intros []; apply (bool_decide_unpack _); vm_compute ].

(** Within a call of [FDTD.step] the trace splits in two blocks: the
    first holds the three electric update threads whole (and the write
    threads of the magnetic components), the second the three magnetic
    update threads whole (and the write threads of the electric ones). *)
Lemma FDTD_step_blocks s tr s' r :
  step FDTD s tr s' r ->
  r = None /\
  exists blkE blkH,
    tr = blkE ++ blkH /\
    phase_block m_update s true blkE /\ phase_block m_write s false blkE /\
    phase_block m_update s false blkH /\ phase_block m_write s true blkH.
Proof.
  intros H.
  apply FDTD_step_inv in H
    as (trE & sE & trH & sH & HfjE & HfjH & -> & -> & ->).
  split; [done|]. eexists _, _. split; [done|].
  assert (Hst : same_static (run [IncN (1 # 2); SetT] sE) s).
  { apply same_static_sym.
    assert (He : e_phase FDTD s (trE ++ [IncN (1 # 2); SetT])
                   (run [IncN (1 # 2); SetT] sE) None).
    { eapply seq_intro; [exact HfjE|apply advance_intro]. }
    assert (Htr : traces_in step_action (e_phase FDTD)).
    { unfold e_phase, advance.
      repeat first
        [ apply traces_in_seq
        | apply traces_in_act; by right
        | apply traces_in_fork_join; intros m a Hm;
          apply step_action_stepping;
          repeat (apply elem_of_cons in Hm as [->|Hm]; [done|]);
          by apply elem_of_nil in Hm ]. }
    apply Htr in He as [-> Hall]. apply same_static_run.
    eapply Forall_impl; [exact Hall|].
    intros a Ha c. by apply step_action_no_grid_write. }
  assert (Hticks : Forall is_tick [IncN (1 # 2); SetT])
    by (by repeat constructor).
  repeat split.
  - eapply fork_join_phase_block; [..|exact HfjE]; solve_targets.
  - eapply fork_join_phase_block; [..|exact HfjE]; solve_targets.
  - apply (phase_block_static _ _ _ _ _ Hst).
    eapply fork_join_phase_block; [..|exact HfjH]; solve_targets.
  - apply (phase_block_static _ _ _ _ _ Hst).
    eapply fork_join_phase_block; [..|exact HfjH]; solve_targets.
Qed.

(** C1. In every call of the three-dimensional [step] the three electric
    update passes run whole, from thread start to thread end, before any
    action of a magnetic update pass, and the three magnetic passes run
    whole before the call returns; the call always returns. Hence the
    trace of any number of consecutive calls is a sequence of blocks
    E, H, E, H, ...: each E block holds the complete update threads of
    Ex, Ey, Ez and nothing of those of Hx, Hy, Hz, each H block the
    reverse. *)
Theorem FDTD_phases_alternate count s tr s' r :
  steps FDTD count s tr s' r ->
  r = None /\
  exists blocks : list (list Action * list Action),
    length blocks = count /\
    tr = concat ((fun b => b.1 ++ b.2) <$> blocks) /\
    Forall (fun b => phase_block m_update s true b.1 /\
                     phase_block m_update s false b.2) blocks.
Proof.
  revert s tr. induction count as [|count IH]; intros s tr H.
  - destruct H as (-> & -> & ->). split; [done|]. by exists [].
  - simpl in H. apply seq_normal in H; [|apply FDTD_step_never_raises].
    destruct H as (s1 & tr1 & tr2 & Hstep & Hrest & ->).
    pose proof (step_static _ _ _ _ _ Hstep) as Hst.
    apply FDTD_step_blocks in Hstep
      as (_ & blkE & blkH & -> & HE & _ & HH & _).
    apply IH in Hrest as (-> & blocks & Hlen & -> & Hall).
    split; [done|]. exists ((blkE, blkH) :: blocks).
    split; [by rewrite <- Hlen|]. split; [done|].
    constructor; [done|].
    eapply Forall_impl; [exact Hall|].
    intros b [Hb1 Hb2].
    split; eapply phase_block_static; try eassumption;
      by apply same_static_sym.
Qed.

(** The sequential schedule is a run of [FDTD.step] whenever no thread
    of it has to wait. *)
Lemma FDTD_step_sequential s :
  schedulable (sequential_step s) s ->
  step FDTD s (sequential_step s) (run (sequential_step s) s) None.
Proof.
  unfold sequential_step. intros Hs.
  apply schedulable_app in Hs as [HsE HsH].
  apply schedulable_app in HsE as [HsE _].
  apply schedulable_app in HsH as [HsH _].
  rewrite (run_app (_ ++ [IncN (1 # 2); SetT])).
  set (E := [m_update Ex; m_update Ey; m_update Ez;
             m_write Hx; m_write Hy; m_write Hz]) in *.
  set (H := [m_update Hx; m_update Hy; m_update Hz;
             m_write Ex; m_write Ey; m_write Ez]) in *.
  set (sE := run (sequential E s ++ [IncN (1 # 2); SetT]) s) in *.
  apply (seq_intro (e_phase FDTD) (h_phase FDTD) s _ sE _ _ None).
  - unfold sE. rewrite run_app.
    apply (seq_intro (fork_join E) (advance (1 # 2)) s _
             (run (sequential E s) s)).
    + by apply fork_join_sequential.
    + apply advance_intro.
  - rewrite run_app.
    apply (seq_intro (fork_join H) (advance (1 # 2)) sE _
             (run (sequential H sE) sE)).
    + by apply fork_join_sequential.
    + apply advance_intro.
Qed.

Lemma FDTD_steps_sequential count s :
  schedulable (sequential_steps count s) s ->
  steps FDTD count s (sequential_steps count s)
    (run (sequential_steps count s) s) None.
Proof.
  revert s. induction count as [|count IH]; intros s Hs.
  - by repeat split.
  - cbn [sequential_steps steps] in *.
    apply schedulable_app in Hs as [Hs1 Hs2].
    rewrite run_app.
    apply (seq_intro (step FDTD) (steps FDTD count) s _
             (run (sequential_step s) s)).
    + by apply FDTD_step_sequential.
    + by apply IH.
Qed.

(** ** The update passes *)

Lemma filter_all {A} (P : A -> Prop) `{!forall x, Decision (P x)} (l : list A) :
  Forall P l -> filter P l = l.
Proof.
  induction 1 as [|x l Hx _ IH]; [done|]. by rewrite filter_cons_True, IH.
Qed.

Lemma filter_none {A} (P : A -> Prop) `{!forall x, Decision (P x)} (l : list A) :
  Forall (fun x => ~ P x) l <-> filter P l = [].
Proof.
  induction l as [|x l IH]; [by split; [|constructor]|].
  destruct (decide (P x)) as [Hx|Hx].
  - rewrite filter_cons_True by done. split; [|done].
    intros Hall. by apply Forall_cons in Hall as [? _].
  - rewrite filter_cons_False by done. rewrite <- IH. split.
    + intros Hall. by apply Forall_cons in Hall as [_ ?].
    + intros Hall. by constructor.
Qed.

Lemma filter_none_inv {A} (P : A -> Prop) `{!forall x, Decision (P x)}
    (l : list A) :
  filter P l = [] -> Forall (fun x => ~ P x) l.
Proof. apply filter_none. Qed.

Lemma filter_refine {A} (P Q : A -> Prop) `{!forall x, Decision (P x)}
    `{!forall x, Decision (Q x)} (l : list A) :
  (forall x, P x -> Q x) -> filter P (filter Q l) = filter P l.
Proof.
  intros HPQ. induction l as [|x l IH]; [done|].
  destruct (decide (Q x)) as [Hq|Hq].
  - rewrite (filter_cons_True Q) by done.
    destruct (decide (P x)).
    + by rewrite !filter_cons_True, IH.
    + by rewrite !filter_cons_False, IH.
  - rewrite (filter_cons_False Q) by done.
    rewrite (filter_cons_False P); [done|]. intros Hp. by apply Hq, HPQ.
Qed.

(** The loop of an update pass over a grid whose cells all hold a rule. *)
Lemma for_each_cells c s (g : PwMaterial -> Action) (l : list Idx) :
  (forall idx, idx ∈ l -> is_Some (material_grid s c !! idx)) ->
  for_each ((fun idx => (idx, material_grid s c !! idx)) <$> l)
    (fun cell =>
       match cell.2 with
       | None => raise (NoUpdateRule c cell.1)
       | Some mo => emit (g mo)
       end)
  = (g <$> omap (fun idx => material_grid s c !! idx) l, inr tt).
Proof.
  induction l as [|idx l IH]; intros Hall; [done|].
  destruct (Hall idx) as [mo Hmo]; [by left|].
  cbn [fmap list_fmap for_each omap list_omap]. simpl. rewrite Hmo.
  rewrite IH by (intros i Hi; apply Hall; by right). reflexivity.
Qed.

Lemma update_body_populated c s :
  populated s c ->
  method_body (m_update c) s =
    (Acquire c :: expected_calls s c ++ [Release c], inr tt).
Proof.
  intros Hpop. unfold expected_calls, rules.
  destruct c; cbn [method_body];
    unfold update_ex, update_ey, update_ez, update_hx, update_hy, update_hz,
      update_pass, flat;
    rewrite (for_each_cells _ s _ _ Hpop); reflexivity.
Qed.

(** Whatever the grid holds, every invocation of a pass is wired as the
    table says. *)
Lemma update_thread_wired c s : Forall (well_wired s) (thread (m_update c) s).
Proof.
  unfold thread. apply Forall_cons. split; [done|].
  apply Forall_app. split; [|destruct (method_body _ _).2; by repeat constructor].
  destruct c; cbn [method_body];
    unfold update_ex, update_ey, update_ez, update_hx, update_hy, update_hz,
      update_pass;
    rewrite !wbind_trace; simpl;
    (apply Forall_cons; split; [done|]);
    (apply Forall_app; split;
      [ apply for_each_Forall; intros cell _;
        destruct cell.2; by repeat constructor
      | destruct (for_each _ _).2; by repeat constructor ]).
Qed.

(** Over a whole call of [FDTD.step], the actions of the update thread
    of any component are that thread, in order. *)
Lemma FDTD_step_update_thread s tr s' r c :
  step FDTD s tr s' r -> filter (emits (m_update c)) tr = thread (m_update c) s.
Proof.
  intros H. apply FDTD_step_blocks in H
    as (_ & blkE & blkH & -> & HE & _ & HH & _).
  rewrite filter_app, (HE c), (HH c).
  destruct c; simpl; by rewrite ?app_nil_r.
Qed.

(** C2. In every call of the three-dimensional [step], every rule
    invocation hands the rule the array of its component, the two curl
    partners and the two cell widths of the spec's table (Ex: Hz, Hy, dy,
    dz; Ey: Hx, Hz, dz, dx; Ez: Hy, Hx, dx, dy; Hx: Ez, Ey, dy, dz; Hy:
    Ex, Ez, dz, dx; Hz: Ey, Ex, dx, dy) and the time step; and for each
    component whose grid holds a rule in every cell, the invocations of
    the call are exactly one per rule of the grid, in the grid's order. *)
Theorem FDTD_update_wiring s tr s' r :
  step FDTD s tr s' r ->
  Forall (well_wired s) tr /\
  forall c, populated s c -> filter (is_call c) tr = expected_calls s c.
Proof.
  intros H. split.
  - apply Forall_forall. intros a Ha.
    destruct a as [| | | | | | |c mo p1 p2 dt0 d1 d2| | | |]; try done.
    assert (Hin : CallUpdate c mo p1 p2 dt0 d1 d2
                    ∈ filter (emits (m_update c)) tr).
    { apply list_elem_of_filter. by split. }
    rewrite (FDTD_step_update_thread _ _ _ _ c H) in Hin.
    pose proof (update_thread_wired c s) as Hall.
    rewrite Forall_forall in Hall. by apply Hall in Hin.
  - intros c Hpop.
    rewrite <- (filter_refine (is_call c) (emits (m_update c))).
    2:{ intros a Ha. destruct a; try done. simpl in *. by subst. }
    rewrite (FDTD_step_update_thread _ _ _ _ c H).
    unfold thread. rewrite (update_body_populated c s Hpop). simpl.
    rewrite filter_cons_False by (simpl; tauto).
    rewrite filter_cons_False by (simpl; tauto).
    rewrite <- app_assoc, filter_app. simpl.
    rewrite (filter_cons_False _ (Release c)) by (simpl; tauto).
    rewrite (filter_cons_False _ (ThreadEnd _)) by (simpl; tauto).
    rewrite filter_nil, app_nil_r. apply filter_all.
    unfold expected_calls. apply Forall_fmap. by apply Forall_true.
Qed.

(** ** The export threads *)

(** One export of the array of [c] in a trace that does not update it:
    the writer receives the array as it was before the trace. *)
Lemma run_export_single tr s c name low high :
  Forall (fun a => ~ is_call c a) tr ->
  filter is_export tr = [WriteHdf5 c name low high] ->
  hdf5_log (run tr s) = hdf5_log s ++ [mkHdf5 (field s c) name low high].
Proof.
  revert s. induction tr as [|a tr IH]; intros s Hcalls Hexp; [done|].
  apply Forall_cons in Hcalls as [Ha Hcalls]. rewrite run_cons.
  destruct (decide (is_export a)) as [He|He].
  - rewrite filter_cons_True in Hexp by done.
    injection Hexp as -> Hrest.
    rewrite run_hdf5_log by (by apply (filter_none_inv is_export)). reflexivity.
  - rewrite filter_cons_False in Hexp by done.
    rewrite (IH _ Hcalls Hexp). f_equal; [by destruct a|].
    f_equal. f_equal. destruct a; try done.
    simpl in *. unfold upd. by case_decide.
Qed.

(** Only [write_ex] exports: the exports of a block are those of its
    thread. *)
Lemma export_filter blk :
  (forall c, c <> Ex ->
     Forall (fun a => ~ is_export a) (filter (emits (m_write c)) blk)) ->
  filter is_export blk = filter is_export (filter (emits (m_write Ex)) blk).
Proof.
  induction blk as [|a blk IH]; intros Hothers; [done|].
  assert (Hrest : forall c, c <> Ex ->
    Forall (fun a => ~ is_export a) (filter (emits (m_write c)) blk)).
  { intros c Hc. specialize (Hothers c Hc).
    destruct (decide (emits (m_write c) a)).
    - rewrite filter_cons_True in Hothers by done.
      by apply Forall_cons in Hothers as [_ ?].
    - by rewrite filter_cons_False in Hothers. }
  destruct (decide (is_export a)) as [He|He].
  - destruct a as [| | | | | | | |c name low high| | |]; try done.
    destruct (decide (c = Ex)) as [->|Hc].
    + rewrite (filter_cons_True (emits _)) by done.
      rewrite !(filter_cons_True is_export) by done. f_equal. by apply IH.
    + specialize (Hothers c Hc).
      rewrite filter_cons_True in Hothers by done.
      by apply Forall_cons in Hothers as [? _].
  - rewrite (filter_cons_False is_export) by done. rewrite IH by done.
    destruct (decide (emits (m_write Ex) a)).
    + rewrite (filter_cons_True (emits _)) by done.
      by rewrite (filter_cons_False is_export).
    + by rewrite (filter_cons_False (emits _)).
Qed.

(** The write threads, as [thread] computes them. *)
Lemma write_thread_noop c s :
  c <> Ex -> thread (m_write c) s = [ThreadStart (m_write c); ThreadEnd (m_write c)].
Proof. by destruct c. Qed.

Lemma write_ex_thread s :
  thread (m_write Ex) s =
    [ThreadStart (m_write Ex);
     WriteHdf5 Ex EmptyString (0, 0, 0)
       (ix0 (arr_shape (field s Ex)) + 1, ix1 (arr_shape (field s Ex)) + 1,
        ix2 (arr_shape (field s Ex)) + 1);
     ThreadEnd (m_write Ex)].
Proof. reflexivity. Qed.

(** The exports of a block that holds the write threads of the electric
    components ([electric = true]) or of the magnetic ones. *)
Lemma phase_block_exports s electric blk :
  phase_block m_write s electric blk ->
  filter is_export blk =
    if electric
    then [WriteHdf5 Ex EmptyString (0, 0, 0)
            (ix0 (arr_shape (field s Ex)) + 1,
             ix1 (arr_shape (field s Ex)) + 1,
             ix2 (arr_shape (field s Ex)) + 1)]
    else [].
Proof.
  intros Hblk. rewrite export_filter.
  - rewrite (Hblk Ex). by destruct electric.
  - intros c Hc. rewrite (Hblk c). case_bool_decide; [|constructor].
    rewrite write_thread_noop by done. repeat constructor; by intros [].
Qed.

(** C10. Every call of the three-dimensional [step] runs the write
    threads next to the update threads: those of Hx, Hy, Hz, which do
    nothing, in the block of the electric updates, those of Ex, Ey, Ez in
    the block of the magnetic updates. [write_ex] without arguments calls
    the HDF5 writer once, with an empty name, on the whole Ex array, from
    index (0, 0, 0) to the shape of the array plus one in every axis; no
    other export happens. So each call appends exactly that one record
    to the writer's log. *)
Theorem FDTD_step_exports s tr s' r :
  step FDTD s tr s' r ->
  let high := (ix0 (arr_shape (field s Ex)) + 1,
               ix1 (arr_shape (field s Ex)) + 1,
               ix2 (arr_shape (field s Ex)) + 1) in
  exists blkE blkH,
    tr = blkE ++ blkH /\
    phase_block m_update s true blkE /\ phase_block m_write s false blkE /\
    phase_block m_update s false blkH /\ phase_block m_write s true blkH /\
    (forall c, c <> Ex ->
       thread (m_write c) s = [ThreadStart (m_write c); ThreadEnd (m_write c)]) /\
    thread (m_write Ex) s =
      [ThreadStart (m_write Ex); WriteHdf5 Ex EmptyString (0, 0, 0) high;
       ThreadEnd (m_write Ex)] /\
    filter is_export blkE = [] /\
    filter is_export blkH = [WriteHdf5 Ex EmptyString (0, 0, 0) high] /\
    hdf5_log s' =
      hdf5_log s ++ [mkHdf5 (field s' Ex) EmptyString (0, 0, 0) high].
Proof.
  intros H high. pose proof (step_traces _ _ _ _ _ H) as [-> _].
  apply FDTD_step_blocks in H
    as (_ & blkE & blkH & -> & HE & HEw & HH & HHw).
  exists blkE, blkH.
  pose proof (phase_block_exports _ _ _ HEw) as HexpE.
  pose proof (phase_block_exports _ _ _ HHw) as HexpH.
  simpl in HexpE, HexpH.
  assert (HnoEx : Forall (fun a => ~ is_call Ex a) blkH).
  { specialize (HH Ex). simpl in HH. apply filter_none_inv in HH.
    eapply Forall_impl; [exact HH|].
    intros a Ha Hc. apply Ha. destruct a; try done. simpl in *. by subst. }
  repeat split; try done.
  - intros c Hc. by apply write_thread_noop.
  - rewrite !run_app.
    rewrite (run_export_single blkH _ Ex EmptyString (0, 0, 0) high HnoEx HexpH).
    rewrite run_hdf5_log by (by apply (filter_none_inv is_export)).
    by rewrite (run_field blkH) by done.
Qed.

(** ** The time state *)

Lemma emits_no_tick m a : emits m a -> ~ is_tick a.
Proof. destruct a; simpl; tauto. Qed.

Lemma fork_join_quiet targets :
  traces_in (fun a => ~ is_tick a) (fork_join targets).
Proof. apply traces_in_fork_join. intros m a _. apply emits_no_tick. Qed.

Lemma call_quiet m : traces_in (fun a => ~ is_tick a) (call m).
Proof. apply traces_in_call. intros a. apply emits_no_tick. Qed.

(** A phase that returns: the updates [X] leave the time state alone and
    [advance d] moves it. *)
Lemma phase_time (X : Main) d s tr s' :
  traces_in (fun a => ~ is_tick a) X ->
  (X >>> advance d) s tr s' None ->
  time_step s' =
    mkTime (n (time_step s) + d)%Q ((n (time_step s) + d) * st_dt s)%Q /\
  exists tr1, tr = tr1 ++ [IncN d; SetT] /\ X s tr1 (run tr1 s) None.
Proof.
  intros HX [(s1 & tr1 & tr2 & H1 & H2 & ->)|(e & _ & ?)]; [|done].
  apply advance_inv in H2 as (-> & -> & _).
  pose proof (HX _ _ _ _ H1) as [-> Hq].
  split; [|by exists tr1].
  rewrite advance_time, (run_time_step tr1 s Hq).
  by destruct (run_config tr1 s) as (_ & _ & _ & _ & -> & _).
Qed.

Lemma e_phase_time k s tr s' :
  e_phase k s tr s' None ->
  time_step s' =
    mkTime (n (time_step s) + increment k)%Q
           ((n (time_step s) + increment k) * st_dt s)%Q.
Proof.
  destruct k; intros H; apply phase_time in H as [H _];
    first [exact H | apply fork_join_quiet | apply call_quiet].
Qed.

Lemma h_phase_time k s tr s' :
  k <> TEzFDTD ->
  h_phase k s tr s' None ->
  time_step s' =
    mkTime (n (time_step s) + increment k)%Q
           ((n (time_step s) + increment k) * st_dt s)%Q.
Proof.
  intros Hk. destruct k; try done; intros H; apply phase_time in H as [H _];
    first [exact H | apply fork_join_quiet | apply call_quiet].
Qed.

(** The second half of [TEzFDTD.step] adds [dt] to [t] instead of
    recomputing it. *)
Lemma TEz_h_phase_time s tr s' :
  h_phase TEzFDTD s tr s' None ->
  time_step s' =
    mkTime (n (time_step s) + (1 # 2))%Q (t (time_step s) + st_dt s)%Q.
Proof.
  intros [(s1 & tr1 & tr2 & H1 & H2 & ->)|(e & _ & ?)]; [|done].
  apply seq_normal in H2; [|apply act_returns].
  destruct H2 as (s2 & tr3 & tr4 & (-> & -> & _) & (-> & -> & _) & ->).
  pose proof (call_quiet _ _ _ _ _ H1) as [-> Hq]. simpl.
  rewrite (run_time_step tr1 s Hq).
  by destruct (run_config tr1 s) as (_ & _ & _ & _ & -> & _).
Qed.

(** A call of [step] that returns ran both phases. *)
Lemma step_phases k s tr s' :
  step k s tr s' None ->
  exists s1 tr1 tr2,
    e_phase k s tr1 s1 None /\ h_phase k s1 tr2 s' None /\ tr = tr1 ++ tr2.
Proof. intros [H|(e & _ & ?)]; [done|done]. Qed.

Lemma e_phase_static k s tr s' r : e_phase k s tr s' r -> same_static s s'.
Proof.
  intros H.
  assert (Htr : traces_in step_action (e_phase k)).
  { destruct k; unfold e_phase, advance;
      repeat first
        [ apply traces_in_seq
        | apply traces_in_act; by right
        | apply traces_in_call; intros a; by apply step_action_stepping
        | apply traces_in_fork_join; intros m a Hm;
          apply step_action_stepping;
          repeat (apply elem_of_cons in Hm as [->|Hm]; [done|]);
          by apply elem_of_nil in Hm ]. }
  apply Htr in H as [-> Hall]. apply same_static_run.
  eapply Forall_impl; [exact Hall|].
  intros a Ha c. by apply step_action_no_grid_write.
Qed.

(** Every class but the one-dimensional ones: each phase adds one half
    to the counter, a call adds one. *)
Lemma step_counter_half k s tr s' :
  tem_pair k = None ->
  step k s tr s' None ->
  (n (time_step s') == n (time_step s) + 1)%Q /\
  exists s1 tr1 tr2,
    e_phase k s tr1 s1 None /\ h_phase k s1 tr2 s' None /\ tr = tr1 ++ tr2 /\
    n (time_step s1) = (n (time_step s) + (1 # 2))%Q /\
    n (time_step s') = (n (time_step s1) + (1 # 2))%Q.
Proof.
  intros Hk H. apply step_phases in H as (s1 & tr1 & tr2 & He & Hh & ->).
  assert (Hn1 : n (time_step s1) = (n (time_step s) + (1 # 2))%Q).
  { rewrite (e_phase_time _ _ _ _ He). by destruct k. }
  assert (Hn2 : n (time_step s') = (n (time_step s1) + (1 # 2))%Q).
  { destruct (decide (k = TEzFDTD)) as [->|Hne].
    - by rewrite (TEz_h_phase_time _ _ _ Hh).
    - rewrite (h_phase_time _ _ _ _ Hne Hh). by destruct k. }
  split; [|by exists s1, tr1, tr2].
  rewrite Hn2, Hn1. ring.
Qed.

(** Every class but [TEzFDTD]: after each phase the time is the counter
    times the time step. *)
Lemma step_time_product k s tr s' :
  k <> TEzFDTD ->
  step k s tr s' None ->
  exists s1 tr1 tr2,
    e_phase k s tr1 s1 None /\ h_phase k s1 tr2 s' None /\ tr = tr1 ++ tr2 /\
    t (time_step s1) = (n (time_step s1) * st_dt s1)%Q /\
    t (time_step s') = (n (time_step s') * st_dt s')%Q.
Proof.
  intros Hk H. apply step_phases in H as (s1 & tr1 & tr2 & He & Hh & ->).
  exists s1, tr1, tr2. repeat split; try done.
  - rewrite (e_phase_time _ _ _ _ He). simpl.
    by destruct (e_phase_static _ _ _ _ _ He) as (_ & _ & _ & _ & <- & _).
  - pose proof (step_static k s (tr1 ++ tr2) s' None
                  (seq_intro _ _ _ _ _ _ _ _ He Hh))
      as (_ & _ & _ & _ & Hdt & _).
    destruct (e_phase_static _ _ _ _ _ He) as (_ & _ & _ & _ & Hdt1 & _).
    rewrite (h_phase_time _ _ _ _ Hk Hh). simpl. congruence.
Qed.

(** The counter over the two phases of a one-dimensional class. *)
Lemma TEM_phase_counters k s tr s' :
  is_Some (tem_pair k) ->
  step k s tr s' None ->
  exists s1 tr1 tr2,
    e_phase k s tr1 s1 None /\ h_phase k s1 tr2 s' None /\ tr = tr1 ++ tr2 /\
    n (time_step s1) = (n (time_step s) + 5)%Q /\
    n (time_step s') = (n (time_step s1) + 5)%Q.
Proof.
  intros Hk H. apply step_phases in H as (s1 & tr1 & tr2 & He & Hh & ->).
  assert (Hn1 : n (time_step s1) = (n (time_step s) + 5)%Q).
  { rewrite (e_phase_time _ _ _ _ He). destruct k; try done; by destruct Hk. }
  assert (Hn2 : n (time_step s') = (n (time_step s1) + 5)%Q).
  { rewrite (h_phase_time k _ _ _) by (done || by intros ->; destruct Hk).
    destruct k; try done; by destruct Hk. }
  by exists s1, tr1, tr2.
Qed.

(** C4 (the code departs from it). In the three one-dimensional classes
    each phase of [step] adds 5 to the counter [n], not one half: a call
    that returns adds 10. *)
Theorem TEM_step_counter k s tr s' :
  is_Some (tem_pair k) ->
  step k s tr s' None ->
  exists s1 tr1 tr2,
    e_phase k s tr1 s1 None /\ h_phase k s1 tr2 s' None /\ tr = tr1 ++ tr2 /\
    n (time_step s1) = (n (time_step s) + 5)%Q /\
    n (time_step s') = (n (time_step s1) + 5)%Q /\
    (n (time_step s') == n (time_step s) + 10)%Q /\
    ~ (n (time_step s') == n (time_step s) + 1)%Q.
Proof.
  intros Hk H.
  destruct (TEM_phase_counters k s tr s' Hk H)
    as (s1 & tr1 & tr2 & He & Hh & -> & Hn1 & Hn2).
  exists s1, tr1, tr2. repeat split; try done.
  - rewrite Hn2, Hn1. ring.
  - rewrite Hn2, Hn1. intros Heq. lra.
Qed.

(** C5 (the code departs from it). After a call of [TEzFDTD.step] that
    returns, the time is half a time step ahead of the counter times the
    time step; the two differ unless the time step is zero. *)
Theorem TEz_step_time s tr s' :
  step TEzFDTD s tr s' None ->
  (t (time_step s') ==
     n (time_step s') * st_dt s' + (1 # 2) * st_dt s')%Q /\
  (~ (st_dt s == 0)%Q ->
   ~ (t (time_step s') == n (time_step s') * st_dt s')%Q).
Proof.
  intros H. pose proof (step_static _ _ _ _ _ H) as (_ & _ & _ & _ & Hdt & _).
  apply step_phases in H as (s1 & tr1 & tr2 & He & Hh & ->).
  destruct (e_phase_static _ _ _ _ _ He) as (_ & _ & _ & _ & Hdt1 & _).
  pose proof (e_phase_time _ _ _ _ He) as Ht1.
  pose proof (TEz_h_phase_time _ _ _ Hh) as Ht2.
  rewrite Ht1 in Ht2. simpl in Ht2. rewrite <- Hdt1, Hdt in Ht2.
  assert (Heq : (t (time_step s') ==
            n (time_step s') * st_dt s' + (1 # 2) * st_dt s')%Q).
  { rewrite Ht2. simpl. ring. }
  split; [done|]. intros Hnz Hbad. apply Hnz. rewrite Hdt.
  rewrite Hbad in Heq. lra.
Qed.

Lemma update_body_calls c c' s :
  c' <> c -> Forall (fun a => ~ is_call c' a) (method_body (m_update c) s).1.
Proof.
  intros Hne. eapply Forall_impl; [apply method_body_emits|].
  intros a Ha Hc. destruct a; try done. simpl in *. congruence.
Qed.

(** C7 (the code departs from it in the time state). A call of the
    [step] of a one-dimensional class that returns runs the update pass
    of its electric component, then that of its magnetic component
    (TEMx: Ey then Hz; TEMy: Ez then Hx; TEMz: Ex then Hy), and leaves
    every other field array as it was; after each pass it adds 5, not
    one half, to the counter. *)
Theorem TEM_step_trace k e h s tr s' :
  tem_pair k = Some (e, h) ->
  step k s tr s' None ->
  is_electric e = true /\ is_electric h = false /\
  tr = (method_body (m_update e) s).1 ++ [IncN 5; SetT] ++
       (method_body (m_update h) s).1 ++ [IncN 5; SetT] /\
  (forall c, c <> e -> c <> h -> field s' c = field s c) /\
  (n (time_step s') == n (time_step s) + 10)%Q.
Proof.
  intros Hk H.
  pose proof (step_traces _ _ _ _ _ H) as [Hs' _].
  destruct (TEM_phase_counters k s tr s' (ltac:(by rewrite Hk)) H)
    as (s1 & tr1 & tr2 & He & Hh & -> & Hn1 & Hn2).
  assert (Hn : (n (time_step s') == n (time_step s) + 10)%Q)
    by (rewrite Hn2, Hn1; ring).
  pose proof (e_phase_static _ _ _ _ _ He) as Hst.
  assert (Htr1 : tr1 = (method_body (m_update e) s).1 ++ [IncN 5; SetT]).
  { destruct k; try done; injection Hk as <- <-;
      apply phase_time in He as (_ & tr0 & -> & (-> & _));
      first [done | apply call_quiet]. }
  assert (Htr2 : tr2 = (method_body (m_update h) s).1 ++ [IncN 5; SetT]).
  { rewrite (method_body_static (m_update h) s s1 Hst).
    destruct k; try done; injection Hk as <- <-;
      apply phase_time in Hh as (_ & tr0 & -> & (-> & _));
      first [done | apply call_quiet]. }
  subst tr1 tr2. repeat split.
  - destruct k; try done; by injection Hk as <- <-.
  - destruct k; try done; by injection Hk as <- <-.
  - by rewrite <- !app_assoc.
  - intros c Hce Hch. rewrite Hs'. apply run_field.
    repeat (apply Forall_app; split);
      first [ by apply update_body_calls
            | repeat constructor; by intros [] ].
  - done.
Qed.

(** ** The constructor's blocks *)

Lemma filter_refine_in {A} (P Q : A -> Prop) `{!forall x, Decision (P x)}
    `{!forall x, Decision (Q x)} (l : list A) :
  Forall (fun x => P x -> Q x) l -> filter P (filter Q l) = filter P l.
Proof.
  induction 1 as [|x l Hx _ IH]; [done|].
  destruct (decide (Q x)) as [Hq|Hq].
  - rewrite (filter_cons_True Q) by done.
    destruct (decide (P x)).
    + by rewrite !filter_cons_True, IH.
    + by rewrite !filter_cons_False, IH.
  - rewrite (filter_cons_False Q) by done.
    rewrite (filter_cons_False P); [done|]. intros Hp. by apply Hq, Hx.
Qed.

(** In a block of the threads [f c'] of one family, the actions in [P],
    which only the thread for [c] takes, are those of that thread, in
    order. *)
Lemma fork_join_family_project (kind : Method -> Prop)
    (f : Component -> Method) (P : Action -> Prop)
    `{!forall a, Decision (P a)} targets s tr s' r c :
  (forall m1 m2 a, kind m1 -> kind m2 -> emits m1 a -> emits m2 a -> m1 = m2) ->
  Forall kind targets -> NoDup targets ->
  (forall m, m ∈ targets -> exists c', m = f c') ->
  f c ∈ targets ->
  (forall a c', emits (f c') a -> P a -> c' = c) ->
  fork_join targets s tr s' r ->
  filter P tr = filter P (thread (f c) s).
Proof.
  intros Hinj Hkind Hnodup Hfam Hin HP Hfj.
  rewrite <- (fork_join_thread kind targets s tr s' r (f c)) by done.
  symmetry. apply filter_refine_in.
  eapply Forall_impl; [by eapply fork_join_emits|].
  intros a (m & Hm & Ha) Hp.
  destruct (Hfam m Hm) as [c' ->]. by rewrite <- (HP a c' Ha Hp).
Qed.

Lemma init_source_thread c s :
  thread (m_init_source c) s =
    ThreadStart (m_init_source c) :: (SetSource c <$> src_list s)
      ++ [ThreadEnd (m_init_source c)].
Proof.
  unfold thread.
  replace (method_body (m_init_source c) s)
    with (init_source_pass c s) by (by destruct c).
  unfold init_source_pass. by rewrite for_each_emit.
Qed.

Lemma grid_fold_sources c sp (l : list Source) g :
  fold_left (grid_exec c sp) (SetSource c <$> l) g =
    fold_left (fun g so => set_pointwise_source so c sp g) l g.
Proof.
  revert g. induction l as [|so l IH]; intros g; [done|].
  simpl. rewrite decide_True by done. apply IH.
Qed.

(** C6. Source injection of the three-dimensional engine leaves in the
    material grid of every component the result of handing the grid to
    every source of the source list, one after the other, in the order of
    the list; for two sources A, B registered in this order, that is B's
    overlay applied to the result of A's overlay. *)
Theorem init_source_in_order s tr s' r c :
  init_source FDTD s tr s' r ->
  material_grid s' c =
    fold_left (fun g so => set_pointwise_source so c (space s) g)
      (src_list s) (material_grid s c) /\
  forall A B, src_list s = [A; B] ->
    material_grid s' c =
      set_pointwise_source B c (space s)
        (set_pointwise_source A c (space s) (material_grid s c)).
Proof.
  intros H.
  assert (Hgrid : material_grid s' c =
    fold_left (fun g so => set_pointwise_source so c (space s) g)
      (src_list s) (material_grid s c)).
  { assert (Hf : filter (is_grid_write c) tr =
              filter (is_grid_write c) (thread (m_init_source c) s)).
    { eapply (fork_join_family_project building m_init_source);
        [..|exact H].
      - apply emits_building_inj.
      - solve_targets.
      - solve_targets.
      - intros m Hm.
        repeat (apply elem_of_cons in Hm as [->|Hm]; [by eexists|]).
        by apply elem_of_nil in Hm.
      - destruct c; solve_targets.
      - intros a c' Ha Hp. destruct a; try done. simpl in *. congruence. }
    pose proof H as (_ & _ & -> & _).
    rewrite run_material_grid, grid_fold_filter, Hf, init_source_thread.
    rewrite filter_cons_False by (simpl; tauto).
    rewrite filter_app, filter_all.
    - rewrite (filter_cons_False _ (ThreadEnd _)) by (simpl; tauto).
      rewrite filter_nil, app_nil_r. apply grid_fold_sources.
    - apply Forall_fmap. by apply Forall_true. }
  split; [done|]. intros A B HAB. by rewrite Hgrid, HAB.
Qed.

(** ** Classification passes *)

Lemma init_boundary_spec c shape idx :
  init_boundary c shape idx = true <-> on_boundary c shape idx.
Proof.
  destruct c; unfold on_boundary; simpl;
    rewrite orb_true_iff, !Z.eqb_eq; tauto.
Qed.

Lemma init_material_body c s :
  method_body (m_init_material c) s =
    init_material_pass c (init_boundary c) s.
Proof. by destruct c. Qed.

(** The loop of a pass, cell by cell. *)
Lemma init_material_loop s c l :
  for_each l (fun idx =>
     if init_boundary c (arr_shape (field s c)) idx then
       emit (SetMaterial c idx (Dummy c idx 1))
     else
       let co := index_to_space (space s) c idx in
       match geom_tree s co with
       | None => raise (ClassificationError co)
       | Some geom_obj =>
           emit (SetMaterial c idx (Pointwise (material geom_obj) c idx co))
       end)
  = ((fun p => SetMaterial c p.1 p.2) <$> classified_prefix s c l,
     match first_failure s c l with
     | Some idx => inl (ClassificationError (index_to_space (space s) c idx))
     | None => inr tt
     end).
Proof.
  rewrite (for_each_ext l _ (fun idx =>
    match classify s c idx with
    | Some mo => emit (SetMaterial c idx mo)
    | None => raise (ClassificationError (index_to_space (space s) c idx))
    end)).
  2:{ intros idx _. unfold classify.
      destruct (init_boundary c _ idx); [done|].
      simpl. by destruct (geom_tree s _). }
  induction l as [|idx l IH]; [done|].
  cbn [classified_prefix first_failure].
  change (for_each (idx :: l) ?b) with (wbind (b idx) (fun _ => for_each l b)).
  cbv beta.
  destruct (classify s c idx) as [mo|]; [|done].
  unfold wbind at 1. by rewrite IH.
Qed.

Lemma init_material_thread c s :
  thread (m_init_material c) s =
    ThreadStart (m_init_material c) :: Acquire c ::
      ((fun p => SetMaterial c p.1 p.2)
         <$> classified_prefix s c (ndindex (arr_shape (field s c)))) ++
      match first_failure s c (ndindex (arr_shape (field s c))) with
      | Some idx =>
          [ThreadDied (m_init_material c)
             (ClassificationError (index_to_space (space s) c idx))]
      | None => [Release c; ThreadEnd (m_init_material c)]
      end.
Proof.
  unfold thread. rewrite init_material_body. unfold init_material_pass.
  rewrite init_material_loop.
  by destruct (first_failure s c _); simpl; rewrite <- ?app_assoc.
Qed.

Lemma classified_prefix_sound s c l :
  Forall (fun p => classify s c p.1 = Some p.2) (classified_prefix s c l).
Proof.
  induction l as [|idx l IH]; simpl; [constructor|].
  destruct (classify s c idx) eqn:Hc; by constructor.
Qed.

Lemma classified_prefix_total s c l :
  (forall idx, idx ∈ l -> is_Some (classify s c idx)) ->
  (classified_prefix s c l).*1 = l /\ first_failure s c l = None.
Proof.
  induction l as [|idx l IH]; intros Hall; [done|]. simpl.
  destruct (Hall idx) as [mo ->]; [by left|].
  destruct IH as [IH1 IH2]; [intros i Hi; apply Hall; by right|].
  split; [|done]. rewrite fmap_cons. simpl. by f_equal.
Qed.

Lemma classified_prefix_stops s c pre idx0 post :
  (forall idx, idx ∈ pre -> is_Some (classify s c idx)) ->
  classify s c idx0 = None ->
  (classified_prefix s c (pre ++ idx0 :: post)).*1 = pre /\
  first_failure s c (pre ++ idx0 :: post) = Some idx0.
Proof.
  intros Hpre Hfail. induction pre as [|idx pre IH]; simpl.
  - by rewrite Hfail.
  - destruct (Hpre idx) as [mo ->]; [by left|].
    destruct IH as [IH1 IH2]; [intros i Hi; apply Hpre; by right|].
    split; [|done]. rewrite fmap_cons. simpl. by f_equal.
Qed.

Lemma grid_exec_set (c : Component) (sp : Space) (g : gmap Idx PwMaterial)
    (idx : Idx) (mo : PwMaterial) :
  grid_exec c sp g (SetMaterial c idx mo) = <[idx := mo]> g.
Proof. unfold grid_exec. by rewrite decide_True. Qed.

(** The grid after the assignments of a pass. *)
Lemma grid_fold_assignments (c : Component) (sp : Space)
    (l : list (Idx * PwMaterial)) (g : gmap Idx PwMaterial) :
  fold_left (grid_exec c sp) ((fun p => SetMaterial c p.1 p.2) <$> l) g =
    fold_left (fun g p => <[p.1 := p.2]> g) l g.
Proof.
  revert g. induction l as [|p l IH]; intros g; [done|].
  rewrite fmap_cons. cbn [fold_left]. rewrite grid_exec_set. apply IH.
Qed.

Lemma assignments_lookup (F : Idx -> option PwMaterial)
    (l : list (Idx * PwMaterial)) (g : gmap Idx PwMaterial) (idx : Idx) :
  Forall (fun p => F p.1 = Some p.2) l ->
  fold_left (fun g p => <[p.1 := p.2]> g) l g !! idx =
    if decide (idx ∈ l.*1) then F idx else g !! idx.
Proof.
  revert g. induction l as [|p l IH]; intros g Hall.
  - rewrite fmap_nil, decide_False by apply not_elem_of_nil. done.
  - apply Forall_cons in Hall as [Hp Hall].
    rewrite fmap_cons. cbn [fold_left]. rewrite IH by done.
    destruct (decide (idx ∈ l.*1)) as [Hin|Hnin].
    + rewrite decide_True; [done|]. by right.
    + destruct (decide (idx = p.1)) as [->|Hne].
      * rewrite decide_True by (by left). by rewrite lookup_insert_eq.
      * rewrite decide_False.
        -- by rewrite lookup_insert_ne.
        -- intros [?|?]%elem_of_cons; done.
Qed.

(** What a block of classification threads leaves in the grid and the
    lock of a component whose thread is in the block. *)
Lemma init_material_grid targets s tr s' r c idx :
  Forall building targets -> NoDup targets ->
  (forall m, m ∈ targets -> exists c', m = m_init_material c') ->
  m_init_material c ∈ targets ->
  fork_join targets s tr s' r ->
  material_grid s' c !! idx =
    if decide (idx ∈ (classified_prefix s c
                        (ndindex (arr_shape (field s c)))).*1)
    then classify s c idx else material_grid s c !! idx.
Proof.
  intros Hkind Hnodup Hfam Hin H.
  assert (Hf : filter (is_grid_write c) tr =
            filter (is_grid_write c) (thread (m_init_material c) s)).
  { eapply (fork_join_family_project building m_init_material);
      [..|exact H]; try done; [apply emits_building_inj|].
    intros a c' Ha Hp. destruct a; try done. simpl in *. congruence. }
  pose proof H as (_ & _ & -> & _).
  rewrite run_material_grid, grid_fold_filter, Hf, init_material_thread.
  rewrite filter_cons_False by (simpl; tauto).
  rewrite filter_cons_False by (simpl; tauto).
  rewrite filter_app, filter_all
    by (apply Forall_fmap; by apply Forall_true).
  replace (filter (is_grid_write c) _) with (@nil Action)
    by (by destruct (first_failure s c _)).
  rewrite app_nil_r, grid_fold_assignments.
  apply assignments_lookup, classified_prefix_sound.
Qed.

Lemma init_material_lock targets s tr s' r c :
  Forall building targets -> NoDup targets ->
  (forall m, m ∈ targets -> exists c', m = m_init_material c') ->
  m_init_material c ∈ targets ->
  fork_join targets s tr s' r ->
  lock s' c =
    match first_failure s c (ndindex (arr_shape (field s c))) with
    | Some _ => true
    | None => false
    end.
Proof.
  intros Hkind Hnodup Hfam Hin H.
  assert (Hf : filter (is_lock_op c) tr =
            filter (is_lock_op c) (thread (m_init_material c) s)).
  { eapply (fork_join_family_project building m_init_material);
      [..|exact H]; try done; [apply emits_building_inj|].
    intros a c' Ha Hp. destruct a; try done; simpl in *;
      destruct Ha as [Ha|Ha]; congruence. }
  pose proof H as (_ & _ & -> & _).
  rewrite run_lock, lock_fold_filter, Hf, init_material_thread.
  rewrite filter_cons_False by (simpl; tauto).
  rewrite filter_cons_True by done.
  rewrite filter_app.
  replace (filter (is_lock_op c) (_ <$> _)) with (@nil Action).
  2:{ symmetry. apply (filter_none (is_lock_op c)).
      apply Forall_fmap, Forall_forall. intros p _. simpl. tauto. }
  destruct (first_failure s c _).
  - rewrite filter_cons_False by (simpl; tauto).
    cbn [app filter list_filter fold_left lock_exec].
    by rewrite decide_True.
  - rewrite filter_cons_True by done.
    rewrite filter_cons_False by (simpl; tauto).
    cbn [app filter list_filter fold_left lock_exec].
    by rewrite !decide_True.
Qed.

Lemma FDTD_init_material_family m :
  m ∈ [m_init_material Ex; m_init_material Ey; m_init_material Ez;
       m_init_material Hx; m_init_material Hy; m_init_material Hz] ->
  exists c', m = m_init_material c'.
Proof.
  intros Hm.
  repeat (apply elem_of_cons in Hm as [->|Hm]; [by eexists|]).
  by apply elem_of_nil in Hm.
Qed.

Lemma FDTD_init_material_grid s tr s' r c idx :
  init_material FDTD s tr s' r ->
  material_grid s' c !! idx =
    if decide (idx ∈ (classified_prefix s c
                        (ndindex (arr_shape (field s c)))).*1)
    then classify s c idx else material_grid s c !! idx.
Proof.
  intros H.
  apply (init_material_grid
           [m_init_material Ex; m_init_material Ey; m_init_material Ez;
            m_init_material Hx; m_init_material Hy; m_init_material Hz]
           s tr s' r c idx);
    [solve_targets|solve_targets|apply FDTD_init_material_family
    |destruct c; solve_targets|exact H].
Qed.

Lemma FDTD_init_material_lock s tr s' r c :
  init_material FDTD s tr s' r ->
  lock s' c =
    match first_failure s c (ndindex (arr_shape (field s c))) with
    | Some _ => true
    | None => false
    end.
Proof.
  intros H.
  apply (init_material_lock
           [m_init_material Ex; m_init_material Ey; m_init_material Ez;
            m_init_material Hx; m_init_material Hy; m_init_material Hz]
           s tr s' r c);
    [solve_targets|solve_targets|apply FDTD_init_material_family
    |destruct c; solve_targets|exact H].
Qed.

Lemma covered_classify s c idx :
  covered s c -> idx ∈ ndindex (arr_shape (field s c)) ->
  is_Some (classify s c idx).
Proof.
  intros Hcov Hidx. unfold classify.
  destruct (init_boundary c _ idx) eqn:Hb; [by eexists|].
  destruct (Hcov idx Hidx) as [g ->]; [|by eexists].
  rewrite <- init_boundary_spec. by rewrite Hb.
Qed.

(** C3. Material grid construction of the three-dimensional engine, for a
    geometry that covers every cell off the boundary: every index of a
    component's array gets a rule; the rule is the stub [Dummy] exactly
    when the index is on the component's boundary (one of its two
    transverse indices at the shape minus one for an electric component,
    at zero for a magnetic one), and otherwise it is the rule that the
    material of the object covering the cell's coordinate produces for
    the index and the coordinate. *)
Theorem init_material_cells s tr s' r c idx :
  init_material FDTD s tr s' r ->
  covered s c ->
  idx ∈ ndindex (arr_shape (field s c)) ->
  exists mo,
    material_grid s' c !! idx = Some mo /\
    (is_dummy mo = true <-> on_boundary c (arr_shape (field s c)) idx) /\
    (on_boundary c (arr_shape (field s c)) idx -> mo = Dummy c idx 1) /\
    (~ on_boundary c (arr_shape (field s c)) idx ->
     exists g,
       geom_tree s (index_to_space (space s) c idx) = Some g /\
       mo = Pointwise (material g) c idx (index_to_space (space s) c idx)).
Proof.
  intros H Hcov Hidx.
  assert (Hgrid : material_grid s' c !! idx = classify s c idx).
  { rewrite (FDTD_init_material_grid s tr s' r c idx H).
    destruct (classified_prefix_total s c (ndindex (arr_shape (field s c))))
      as [-> _]; [intros i Hi; by apply covered_classify|].
    by rewrite decide_True. }
  rewrite Hgrid. unfold classify.
  pose proof (init_boundary_spec c (arr_shape (field s c)) idx) as Hspec.
  destruct (init_boundary c _ idx) eqn:Hb.
  - exists (Dummy c idx 1). repeat split; try done.
    + intros _. by apply Hspec.
    + intros Hn. destruct Hn. by apply Hspec.
  - assert (Hnb : ~ on_boundary c (arr_shape (field s c)) idx).
    { intros Hon. apply Hspec in Hon. discriminate. }
    destruct (Hcov idx Hidx Hnb) as [g Hg]. rewrite Hg. simpl.
    eexists. repeat split; try done.
    intros _. by exists g.
Qed.

(** ** The engine's own copies of the lists *)

Lemma alloc_fresh (h : Heap) o : (alloc h o).2 ∉ dom h.
Proof. apply is_fresh. Qed.

Lemma alloc_lookup (h : Heap) o l :
  l ∈ dom h -> (alloc h o).1 !! l = h !! l.
Proof.
  intros Hl. unfold alloc. simpl. apply lookup_insert_ne.
  intros <-. by apply (is_fresh (dom h)).
Qed.

Lemma alloc_dom (h : Heap) o : dom h ⊆ dom (alloc h o).1.
Proof. unfold alloc. simpl. rewrite dom_insert. set_solver. Qed.

(** Copying the elements: the store only grows, and every copy is a
    location the base store [h0] did not have. *)
Lemma deepcopy_items_fresh (h0 : Heap) items :
  forall (h : Heap) (memo : gmap loc loc) h' memo' ys,
    dom h0 ⊆ dom h ->
    (forall x y, memo !! x = Some y -> y ∉ dom h0) ->
    deepcopy_items h memo items = Some (h', memo', ys) ->
    dom h ⊆ dom h' /\
    (forall l, l ∈ dom h -> h' !! l = h !! l) /\
    (forall y, y ∈ ys -> y ∉ dom h0).
Proof.
  induction items as [|x rest IH]; intros h memo h' memo' ys Hdom Hmemo Hcp.
  - injection Hcp as <- <- <-. repeat split; try done.
    intros y Hy. by apply elem_of_nil in Hy.
  - simpl in Hcp. destruct (memo !! x) as [y|] eqn:Hx.
    + destruct (deepcopy_items h memo rest) as [[[h1 m1] ys1]|] eqn:Hrest;
        [|discriminate].
      simpl in Hcp. injection Hcp as <- <- <-.
      destruct (IH _ _ _ _ _ Hdom Hmemo Hrest) as (Hd & Hl & Hys).
      repeat split; try done.
      intros y' [->|Hy']%elem_of_cons; [by eapply Hmemo|by apply Hys].
    + destruct (h !! x) as [o|] eqn:Hhx; [|discriminate].
      assert (Hrest : exists r,
        deepcopy_items (alloc h o).1 (<[x := (alloc h o).2]> memo) rest
          = Some r /\
        h' = r.1.1 /\ memo' = r.1.2 /\ ys = (alloc h o).2 :: r.2).
      { destruct o as [items'|g|so]; [discriminate| |];
          (destruct (deepcopy_items _ _ rest) as [r0|]; [|discriminate]);
          simpl in Hcp; injection Hcp as <- <- <-; by exists r0. }
      clear Hcp. destruct Hrest as ([[h1 m1] ys1] & Hrest & -> & -> & ->).
      cbn [fst snd].
      pose proof (alloc_fresh h o) as Hfresh.
      pose proof (alloc_dom h o) as Hadom.
      assert (Hdom1 : dom h0 ⊆ dom (alloc h o).1) by (by etransitivity).
      assert (Hnew : (alloc h o).2 ∉ dom h0).
      { intros Hin. apply Hfresh. by apply Hdom. }
      assert (Hmemo1 : forall x' y',
        <[x := (alloc h o).2]> memo !! x' = Some y' -> y' ∉ dom h0).
      { intros x' y' Hl. apply lookup_insert_Some in Hl as [[_ <-]|[_ Hl]].
        - done.
        - by eapply Hmemo. }
      destruct (IH _ _ _ _ _ Hdom1 Hmemo1 Hrest) as (Hd & Hl & Hys).
      split; [by etransitivity|]. split.
      * intros l Hl'. rewrite Hl by (by apply Hadom). by apply alloc_lookup.
      * intros y' [->|Hy']%elem_of_cons; [done|by apply Hys].
Qed.

(** [deepcopy]: the copy of the list and the copies of its elements are
    new locations, and nothing that existed is changed. *)
Lemma deepcopy_fresh (h : Heap) lst h' lst' :
  deepcopy h lst = Some (h', lst') ->
  dom h ⊆ dom h' /\
  (forall l, l ∈ dom h -> h' !! l = h !! l) /\
  exists ys, h' !! lst' = Some (ListObj ys) /\
             forall l, l ∈ lst' :: ys -> l ∉ dom h.
Proof.
  unfold deepcopy. intros Hcp.
  destruct (h !! lst) as [[items|?|?]|]; try discriminate.
  destruct (deepcopy_items h ∅ items) as [[[h1 m1] ys]|] eqn:Hitems;
    [|discriminate].
  cbn [mbind option_bind fst snd] in Hcp.
  assert (Hpair : alloc h1 (ListObj ys) = (h', lst')) by congruence.
  assert (Hh' : h' = (alloc h1 (ListObj ys)).1) by (by rewrite Hpair).
  assert (Hlst' : lst' = (alloc h1 (ListObj ys)).2) by (by rewrite Hpair).
  clear Hcp Hpair. subst h' lst'.
  destruct (deepcopy_items_fresh h items h ∅ h1 m1 ys) as (Hd & Hl & Hys);
    [done|by intros x y ?%lookup_empty_Some|done|].
  pose proof (alloc_fresh h1 (ListObj ys)) as Hfresh.
  pose proof (alloc_dom h1 (ListObj ys)) as Hadom.
  split; [by etransitivity|]. split.
  - intros l Hl'. rewrite alloc_lookup by (by apply Hd). by apply Hl.
  - exists ys. split; [apply lookup_insert_eq|].
    intros l [->|Hy]%elem_of_cons; [|by apply Hys].
    intros Hin. apply Hfresh. by apply Hd.
Qed.

Lemma fold_alter_other (F : Obj -> Obj) items (h : Heap) l :
  l ∉ items ->
  fold_left (fun h x => alter F x h) items h !! l = h !! l.
Proof.
  revert h. induction items as [|x items IH]; intros h Hl; [done|].
  simpl. rewrite IH by (intros ?; apply Hl; by right).
  apply lookup_alter_ne. intros ->. apply Hl. by left.
Qed.

Lemma fold_alter_list (F : Obj -> Obj) items (h : Heap) l xs :
  (forall ys, F (ListObj ys) = ListObj ys) ->
  h !! l = Some (ListObj xs) ->
  fold_left (fun h x => alter F x h) items h !! l = Some (ListObj xs).
Proof.
  intros HF. revert h. induction items as [|x items IH]; intros h Hl; [done|].
  simpl. apply IH. destruct (decide (x = l)) as [->|Hne].
  - by rewrite lookup_alter_eq, Hl; simpl; rewrite HF.
  - by rewrite lookup_alter_ne.
Qed.

Lemma fold_alter_dom (F : Obj -> Obj) items (h : Heap) :
  dom (fold_left (fun h x => alter F x h) items h) = dom h.
Proof.
  revert h. induction items as [|x items IH]; intros h; [done|].
  simpl. rewrite IH. apply dom_alter_L.
Qed.

(** The constructor's handling of the lists leaves every object the
    caller had as it was, and the engine's two lists and their elements
    are locations the caller's store did not have. *)
Lemma init_lists_owned h sp geom_list src_list h' gl sl tree :
  init_lists h sp geom_list src_list = Some (h', gl, sl, tree) ->
  (forall l, l ∈ dom h -> h' !! l = h !! l) /\
  (forall l, l ∈ owned h' gl ++ owned h' sl -> l ∉ dom h).
Proof.
  unfold init_lists. intros H.
  destruct (deepcopy h geom_list) as [[h1 gl1]|] eqn:Hc1; [|discriminate].
  cbn [mbind option_bind fst snd] in H.
  destruct (deepcopy_fresh _ _ _ _ Hc1) as (Hd1 & Hl1 & ys1 & Hgl1 & Hf1).
  assert (Hit1 : deref_items h1 gl1 = Some ys1)
    by (unfold deref_items; by rewrite Hgl1).
  rewrite Hit1 in H. cbn [mbind option_bind fst snd] in H.
  set (h2 := fold_left (init_geom_at sp) ys1 h1) in *.
  destruct (deref_geom_list h2 gl1) as [geoms|]; [|discriminate].
  cbn [mbind option_bind fst snd] in H.
  destruct (deepcopy h2 src_list) as [[h3 sl1]|] eqn:Hc2; [|discriminate].
  cbn [mbind option_bind fst snd] in H.
  destruct (deepcopy_fresh _ _ _ _ Hc2) as (Hd3 & Hl3 & ys3 & Hsl3 & Hf3).
  assert (Hit3 : deref_items h3 sl1 = Some ys3)
    by (unfold deref_items; by rewrite Hsl3).
  rewrite Hit3 in H. cbn [mbind option_bind fst snd] in H.
  injection H as <- <- <- <-.
  assert (Hdom2 : dom h2 = dom h1) by apply fold_alter_dom.
  assert (Hgl2 : h2 !! gl1 = Some (ListObj ys1)).
  { apply fold_alter_list; [done|done]. }
  assert (Hgl4 : fold_left (init_src_at (GeomBoxTree geoms) sp) ys3 h3 !! gl1
                 = Some (ListObj ys1)).
  { apply fold_alter_list; [done|].
    rewrite Hl3; [done|]. apply elem_of_dom. by rewrite Hgl2. }
  assert (Hsl4 : fold_left (init_src_at (GeomBoxTree geoms) sp) ys3 h3 !! sl1
                 = Some (ListObj ys3)).
  { by apply fold_alter_list. }
  assert (Hsub : forall l, l ∈ dom h -> l ∈ dom h2).
  { intros l Hl. rewrite Hdom2. by apply Hd1. }
  split.
  - intros l Hl.
    unfold init_src_at. rewrite fold_alter_other.
    2:{ intros Hin. apply (Hf3 l); [by right|by apply Hsub]. }
    rewrite Hl3 by (by apply Hsub).
    unfold h2, init_geom_at. rewrite fold_alter_other.
    2:{ intros Hin. apply (Hf1 l); [by right|done]. }
    by apply Hl1.
  - unfold owned, deref_items. rewrite Hgl4, Hsl4. cbn [default].
    intros l Hl. apply elem_of_app in Hl as [Hl|Hl].
    + by apply Hf1.
    + intros Hin. apply (Hf3 l Hl). by apply Hsub.
Qed.

(** A mutation changes the object it targets and no other. *)
Lemma mutate_other (h : Heap) m l :
  l <> target m -> mutate h m !! l = h !! l.
Proof.
  intros Hne. destruct m; simpl in *; by apply lookup_alter_ne.
Qed.

Lemma mutate_all_other ms (h : Heap) l :
  Forall (fun m => target m <> l) ms -> mutate_all ms h !! l = h !! l.
Proof.
  revert h. induction ms as [|m ms IH]; intros h Hall; [done|].
  apply Forall_cons in Hall as [Hm Hall]. unfold mutate_all in *. simpl.
  rewrite IH by done. by apply mutate_other.
Qed.

Lemma mapM_ext {A B} (f g : A -> option B) (l : list A) :
  (forall x, x ∈ l -> f x = g x) -> mapM f l = mapM g l.
Proof.
  induction l as [|x l IH]; intros Hfg; [done|].
  simpl. rewrite (Hfg x) by (by left).
  rewrite IH; [done|]. intros y Hy. apply Hfg. by right.
Qed.

(** What is read through a list attribute depends on the list and its
    elements only. *)
Lemma engine_list_ext (h1 h2 : Heap) lst :
  (forall l, l ∈ owned h1 lst -> h2 !! l = h1 !! l) ->
  deref_geom_list h2 lst = deref_geom_list h1 lst /\
  deref_src_list h2 lst = deref_src_list h1 lst.
Proof.
  intros Hown. unfold deref_geom_list, deref_src_list, deref_items.
  rewrite (Hown lst) by (by left).
  destruct (h1 !! lst) as [[items| |]|] eqn:Hl; try done. simpl.
  split; apply mapM_ext; intros y Hy;
    unfold deref_geom, deref_src; rewrite (Hown y); try done;
    unfold owned, deref_items; rewrite Hl; by right.
Qed.

(** The tree the constructor leaves is the tree over the objects of the
    engine's geometry list. *)
Lemma init_lists_tree h sp geom_list src_list h' gl sl tree :
  init_lists h sp geom_list src_list = Some (h', gl, sl, tree) ->
  exists items geoms,
    deref_items h' gl = Some items /\
    mapM (deref_geom h') items = Some geoms /\
    tree = GeomBoxTree geoms.
Proof.
  unfold init_lists. intros H.
  destruct (deepcopy h geom_list) as [[h1 gl1]|] eqn:Hc1; [|discriminate].
  cbn [mbind option_bind fst snd] in H.
  destruct (deepcopy_fresh _ _ _ _ Hc1) as (Hd1 & Hl1 & ys1 & Hgl1 & Hf1).
  assert (Hit1 : deref_items h1 gl1 = Some ys1)
    by (unfold deref_items; by rewrite Hgl1).
  rewrite Hit1 in H. cbn [mbind option_bind fst snd] in H.
  set (h2 := fold_left (init_geom_at sp) ys1 h1) in *.
  destruct (deref_geom_list h2 gl1) as [geoms|] eqn:Hg2; [|discriminate].
  cbn [mbind option_bind fst snd] in H.
  destruct (deepcopy h2 src_list) as [[h3 sl1]|] eqn:Hc2; [|discriminate].
  cbn [mbind option_bind fst snd] in H.
  destruct (deepcopy_fresh _ _ _ _ Hc2) as (Hd3 & Hl3 & ys3 & Hsl3 & Hf3).
  assert (Hit3 : deref_items h3 sl1 = Some ys3)
    by (unfold deref_items; by rewrite Hsl3).
  rewrite Hit3 in H. cbn [mbind option_bind fst snd] in H.
  injection H as <- <- <- <-.
  assert (Hgl2 : h2 !! gl1 = Some (ListObj ys1))
    by (by apply fold_alter_list).
  set (h4 := fold_left (init_src_at (GeomBoxTree geoms) sp) ys3 h3).
  assert (Hkeep : forall l, l ∈ dom h2 -> h4 !! l = h2 !! l).
  { intros l Hl. unfold h4, init_src_at. rewrite fold_alter_other.
    - by apply Hl3.
    - intros Hin. apply (Hf3 l); [by right|done]. }
  assert (Hg2' := Hg2). unfold deref_geom_list, deref_items in Hg2'.
  rewrite Hgl2 in Hg2'. cbn [mbind option_bind] in Hg2'.
  assert (Hys : forall y, y ∈ ys1 -> y ∈ dom h2).
  { intros y Hy. apply mapM_Some in Hg2'.
    apply list_elem_of_lookup in Hy as [i Hi].
    destruct (Forall2_lookup_l _ _ _ _ _ Hg2' Hi) as (g & _ & Hg).
    unfold deref_geom in Hg. apply elem_of_dom.
    destruct (h2 !! y); [by eexists|done]. }
  exists ys1, geoms. split; [|split; [|done]].
  - unfold deref_items. rewrite Hkeep, Hgl2; [done|].
    apply elem_of_dom. by eexists.
  - rewrite <- Hg2'. apply mapM_ext. intros y Hy.
    unfold deref_geom. by rewrite Hkeep by (by apply Hys).
Qed.

(** The two passes of the constructor end in the state their trace
    leads to. *)
Lemma build_run k s tr s' r :
  (init_material k >>> init_source k) s tr s' r -> s' = run tr s.
Proof.
  assert (Ht : traces_in (fun _ => True) (init_material k >>> init_source k)).
  { apply traces_in_seq;
      destruct k; by apply traces_in_fork_join. }
  intros H. by apply Ht in H as [-> _].
Qed.

(** Right after the construction the engine's methods run on the state
    the constructor left. *)
Lemma construct_live k h sp gl sl h' e tr r :
  construct k h sp gl sl h' e tr r ->
  live_state (tree_refs h' e) (self_src_list e) h' (self_state e)
    = Some (self_state e).
Proof.
  intros (tree & srcs & Hinit & Hsrcs & H).
  destruct (init_lists_tree _ _ _ _ _ _ _ _ Hinit)
    as (items & geoms & Hitems & Hgeoms & ->).
  pose proof (build_run _ _ _ _ _ H) as Hrun.
  destruct (run_config tr (new_state sp (GeomBoxTree geoms) srcs))
    as (_ & _ & _ & _ & _ & Htree & Hsl).
  rewrite <- Hrun in Htree, Hsl. cbn [new_state geom_tree src_list] in Htree, Hsl.
  unfold live_state, live_tree, tree_refs.
  rewrite Hitems. cbn [default from_option id]. rewrite Hgeoms, Hsrcs.
  cbn [fmap option_fmap option_map mbind option_bind].
  rewrite <- Htree, <- Hsl. by destruct (self_state e).
Qed.

(** What the engine reads through the store depends on its two lists
    and their elements only. *)
Lemma live_state_ext (h1 h2 : Heap) gl sl s :
  (forall l, l ∈ owned h1 gl ++ owned h1 sl -> h2 !! l = h1 !! l) ->
  live_state (default [] (deref_items h1 gl)) sl h2 s =
    live_state (default [] (deref_items h1 gl)) sl h1 s.
Proof.
  intros Hown. unfold live_state, live_tree.
  destruct (engine_list_ext h1 h2 sl) as [_ ->];
    [intros l Hl; apply Hown, elem_of_app; by right|].
  rewrite (mapM_ext (deref_geom h2) (deref_geom h1)); [done|].
  intros y Hy. unfold deref_geom. rewrite Hown; [done|].
  apply elem_of_app. left. unfold owned. by right.
Qed.

(** The stores a caller of [h] can reach from [h']: those that agree
    with [h'] on everything the engine owns. *)
Lemma caller_mutation_keeps (h h' hm : Heap) (owns : list loc) m :
  (forall l, l ∈ owns -> l ∉ dom h) ->
  target m ∈ dom h ->
  (forall l, l ∈ owns -> hm !! l = h' !! l) ->
  forall l, l ∈ owns -> mutate hm m !! l = h' !! l.
Proof.
  intros Hfresh Hm Hagree l Hl. rewrite mutate_other; [by apply Hagree|].
  intros ->. by apply (Hfresh _ Hl).
Qed.

(** Mutations of what the caller had leave the engine's view alone. *)
Lemma construct_view k h sp geom_list src_list h' e tr r ms :
  construct k h sp geom_list src_list h' e tr r ->
  Forall (fun m => target m ∈ dom h) ms ->
  engine_view (tree_refs h' e) (mutate_all ms h') e
    = engine_view (tree_refs h' e) h' e.
Proof.
  intros (tree & srcs & Hinit & _) Hms.
  destruct (init_lists_owned _ _ _ _ _ _ _ _ Hinit) as [_ Hown].
  assert (Hframe : forall l,
    l ∈ owned h' (self_geom_list e) ++ owned h' (self_src_list e) ->
    mutate_all ms h' !! l = h' !! l).
  { intros l Hl. apply mutate_all_other.
    eapply Forall_impl; [exact Hms|].
    intros m Hm <-. by apply (Hown _ Hl). }
  unfold engine_view, tree_refs.
  rewrite (live_state_ext h' (mutate_all ms h') _ _ _ Hframe).
  destruct (engine_list_ext h' (mutate_all ms h') (self_geom_list e))
    as [-> _]; [intros l Hl; apply Hframe, elem_of_app; by left|].
  destruct (engine_list_ext h' (mutate_all ms h') (self_src_list e))
    as [_ ->]; [intros l Hl; apply Hframe, elem_of_app; by right|].
  done.
Qed.

(** A session of a caller that mutates only what it holds is the
    session of its method calls alone. *)
Lemma session_calls k (h h' : Heap) gl sl evs :
  (forall l, l ∈ owned h' gl ++ owned h' sl -> l ∉ dom h) ->
  Forall (caller_event h) evs ->
  forall hm s tr s' r,
    (forall l, l ∈ owned h' gl ++ owned h' sl -> hm !! l = h' !! l) ->
    session k (default [] (deref_items h' gl)) sl evs hm s tr s' r <->
    session k (default [] (deref_items h' gl)) sl (Invoke <$> calls_of evs)
      h' s tr s' r.
Proof.
  intros Hfresh Hevs.
  induction Hevs as [|ev evs Hev _ IH]; intros hm s tr s' r Hagree; [done|].
  destruct ev as [m|c].
  - cbn [session calls_of omap]. apply IH.
    by apply (caller_mutation_keeps h h' hm).
  - change (calls_of (Invoke c :: evs)) with (c :: calls_of evs).
    rewrite fmap_cons. cbn [session].
    rewrite (live_state_ext h' hm gl sl s Hagree).
    split; intros (ls & Hls & [(s1 & tr1 & tr2 & Hc & Hrest & ->)|Hex]);
      exists ls; (split; [done|]); try (by right);
      left; exists s1, tr1, tr2; (split; [done|]); (split; [|done]).
    + by apply (IH hm).
    + by apply (IH hm).
Qed.

(** C9. The constructor works on deep copies of the two lists: the
    engine's lists and their elements are objects the caller's store did
    not have, and they are what the engine's tree and its methods read.
    So for any two runs that differ only in what the caller does, after
    construction and between the calls, to the lists it passed and to
    their elements, the engine's state -- the contents of its two lists,
    its tree, its sources and its other attributes, as read through the
    store -- is the same, and so are the traces, the results and the
    final states of every sequence of calls of [init_material],
    [init_source] and [step]. *)
Theorem deepcopy_isolates k h sp geom_list src_list h' e tr r evs1 evs2 :
  construct k h sp geom_list src_list h' e tr r ->
  Forall (caller_event h) evs1 ->
  Forall (caller_event h) evs2 ->
  calls_of evs1 = calls_of evs2 ->
  (forall l,
     l ∈ owned h' (self_geom_list e) ++ owned h' (self_src_list e) ->
     l ∉ dom h) /\
  (engine_view (tree_refs h' e) h' e).2 = Some (self_state e) /\
  engine_view (tree_refs h' e) (mutate_all (mutations_of evs1) h') e
    = engine_view (tree_refs h' e) (mutate_all (mutations_of evs2) h') e /\
  forall tr' s' r',
    session k (tree_refs h' e) (self_src_list e) evs1 h' (self_state e)
      tr' s' r' <->
    session k (tree_refs h' e) (self_src_list e) evs2 h' (self_state e)
      tr' s' r'.
Proof.
  intros Hc Hev1 Hev2 Hcalls.
  assert (Hown : forall l,
    l ∈ owned h' (self_geom_list e) ++ owned h' (self_src_list e) ->
    l ∉ dom h).
  { destruct Hc as (tree & srcs & Hinit & _).
    by destruct (init_lists_owned _ _ _ _ _ _ _ _ Hinit). }
  assert (Hmut : forall evs, Forall (caller_event h) evs ->
            Forall (fun m => target m ∈ dom h) (mutations_of evs)).
  { intros evs Hevs. induction Hevs as [|[m|c] evs Hev _ IH];
      [constructor|by constructor|done]. }
  split; [done|]. split; [by eapply construct_live|]. split.
  - rewrite (construct_view _ _ _ _ _ _ _ _ _ _ Hc (Hmut _ Hev1)).
    by rewrite (construct_view _ _ _ _ _ _ _ _ _ _ Hc (Hmut _ Hev2)).
  - intros tr' s' r'. unfold tree_refs.
    rewrite (session_calls k h h' _ _ evs1 Hown Hev1 h') by done.
    rewrite (session_calls k h h' _ _ evs2 Hown Hev2 h') by done.
    by rewrite Hcalls.
Qed.

(** ** Runs of the reduced classes *)

Lemma call_then_advance m d s :
  schedulable (method_body m s).1 s ->
  (method_body m s).2 = inr tt ->
  (call m >>> advance d) s ((method_body m s).1 ++ [IncN d; SetT])
    (run ((method_body m s).1 ++ [IncN d; SetT]) s) None.
Proof.
  intros Hs Hret. rewrite run_app.
  apply (seq_intro (call m) (advance d) s _ (run (method_body m s).1 s)).
  - pose proof (call_intro m s Hs) as Hc. by rewrite Hret in Hc.
  - apply advance_intro.
Qed.

Lemma TEM_step_direct k e h s :
  tem_pair k = Some (e, h) ->
  schedulable (direct_step e h s) s ->
  (method_body (m_update e) s).2 = inr tt ->
  (method_body (m_update h) s).2 = inr tt ->
  step k s (direct_step e h s) (run (direct_step e h s) s) None.
Proof.
  unfold direct_step. intros Hk Hs He Hh.
  apply schedulable_app in Hs as [HsE HsH].
  apply schedulable_app in HsE as [HsE _].
  apply schedulable_app in HsH as [HsH _].
  set (blkE := (method_body (m_update e) s).1 ++ [IncN 5; SetT]) in *.
  assert (Hst : same_static s (run blkE s)).
  { apply same_static_run. unfold blkE. apply Forall_app. split.
    - eapply Forall_impl; [apply method_body_emits|].
      intros a Ha c Hw. destruct a; simpl in *; try done; congruence.
    - repeat constructor; intros c Hw; exact Hw. }
  rewrite (run_app blkE).
  assert (HeP : e_phase k s blkE (run blkE s) None).
  { destruct k; try done; injection Hk as <- <-;
      by apply call_then_advance. }
  assert (HhP : h_phase k (run blkE s)
                  ((method_body (m_update h) (run blkE s)).1 ++ [IncN 5; SetT])
                  (run ((method_body (m_update h) (run blkE s)).1
                          ++ [IncN 5; SetT]) (run blkE s)) None).
  { rewrite (method_body_static _ _ _ Hst) in Hh.
    destruct k; try done; injection Hk as <- <-;
      by apply call_then_advance. }
  exact (seq_intro (e_phase k) (h_phase k) s _ _ _ _ None HeP HhP).
Qed.

Lemma TEz_step_sequential s :
  schedulable (TEz_sequential_step s) s ->
  (method_body (m_update Hz) s).2 = inr tt ->
  step TEzFDTD s (TEz_sequential_step s) (run (TEz_sequential_step s) s) None.
Proof.
  unfold TEz_sequential_step. intros Hs Hh.
  apply schedulable_app in Hs as [HsE HsH].
  apply schedulable_app in HsE as [HsE _].
  apply schedulable_app in HsH as [HsH _].
  set (E := [m_update Ex; m_update Ey]) in *.
  set (blkE := sequential E s ++ [IncN (1 # 2); SetT]) in *.
  assert (HeP : e_phase TEzFDTD s blkE (run blkE s) None).
  { unfold blkE. rewrite run_app.
    apply (seq_intro (fork_join E) (advance (1 # 2)) s _
             (run (sequential E s) s)).
    - by apply fork_join_sequential.
    - apply advance_intro. }
  pose proof (e_phase_static _ _ _ _ _ HeP) as Hst.
  rewrite (method_body_static _ _ _ Hst) in Hh.
  set (sE := run blkE s) in *.
  set (body := (method_body (m_update Hz) sE).1) in *.
  assert (HhP : h_phase TEzFDTD sE (body ++ [IncN (1 # 2); IncT])
                  (run (body ++ [IncN (1 # 2); IncT]) sE) None).
  { rewrite run_app.
    apply (seq_intro (call (m_update Hz)) _ sE _ (run body sE)).
    - pose proof (call_intro (m_update Hz) sE HsH) as Hc.
      by rewrite Hh in Hc.
    - apply (seq_intro (act (IncN (1 # 2))) (act IncT) (run body sE)
               [IncN (1 # 2)] (exec (IncN (1 # 2)) (run body sE)) [IncT]);
        by repeat split. }
  rewrite (run_app blkE).
  exact (seq_intro (e_phase TEzFDTD) (h_phase TEzFDTD) s _ _ _ _ None HeP HhP).
Qed.

(** ** Runs of the constructor *)

Lemma FDTD_build_sequential s :
  schedulable (sequential_build s) s ->
  (init_material FDTD >>> init_source FDTD) s (sequential_build s)
    (run (sequential_build s) s) None.
Proof.
  unfold sequential_build. intros Hs.
  apply schedulable_app in Hs as [HsM HsS].
  set (M := [m_init_material Ex; m_init_material Ey; m_init_material Ez;
             m_init_material Hx; m_init_material Hy; m_init_material Hz]) in *.
  set (S := [m_init_source Ex; m_init_source Ey; m_init_source Ez;
             m_init_source Hx; m_init_source Hy; m_init_source Hz]) in *.
  rewrite run_app.
  apply (seq_intro (init_material FDTD) (init_source FDTD) s _
           (run (sequential M s) s)).
  - by apply fork_join_sequential.
  - by apply (fork_join_sequential S).
Qed.

Lemma FDTD_construct_sequential h sp geom_list src_list h' gl sl tree srcs :
  init_lists h sp geom_list src_list = Some (h', gl, sl, tree) ->
  deref_src_list h' sl = Some srcs ->
  schedulable (sequential_build (new_state sp tree srcs))
    (new_state sp tree srcs) ->
  construct FDTD h sp geom_list src_list h'
    (mkEngine gl sl
       (run (sequential_build (new_state sp tree srcs))
          (new_state sp tree srcs)))
    (sequential_build (new_state sp tree srcs)) None.
Proof.
  intros Hinit Hsrcs Hs. exists tree, srcs. simpl.
  repeat split; try done. by apply FDTD_build_sequential.
Qed.

(** ** Locks: when a block can run, and when it cannot *)

Lemma schedulable_never_waits tr s :
  Forall never_waits tr -> schedulable tr s.
Proof.
  revert s. induction tr as [|a tr IH]; intros s Hall; [done|].
  apply Forall_cons in Hall as [Ha Hall].
  split; [by destruct a|by apply IH].
Qed.

(** A method takes its lock first, if it has one, and no lock after. *)
Lemma method_body_acquire m s :
  exists rest,
    Forall never_waits rest /\
    (method_body m s).1 =
      match lock_of m with Some c => Acquire c :: rest | None => rest end.
Proof.
  destruct m as [c|c|c|c]; cbn [lock_of].
  - rewrite init_material_body. unfold init_material_pass.
    rewrite !wbind_trace. cbn [emit fst snd app].
    eexists. split; [|reflexivity].
    apply Forall_app. split.
    + apply for_each_Forall. intros idx _.
      destruct (init_boundary c _ idx); [by repeat constructor|].
      cbv zeta. destruct (geom_tree s _); by repeat constructor.
    + destruct (for_each _ _).2; by repeat constructor.
  - exists (method_body (m_init_source c) s).1. split; [|done].
    eapply Forall_impl; [apply method_body_emits|].
    intros a Ha. destruct a; try done. simpl in Ha.
    destruct Ha; discriminate.
  - assert (Hpass : forall p1 p2 d1 d2, exists rest,
      Forall never_waits rest /\
      (update_pass c p1 p2 d1 d2 s).1 = Acquire c :: rest).
    { intros p1 p2 d1 d2. unfold update_pass.
      rewrite !wbind_trace. cbn [emit fst snd app].
      eexists. split; [|reflexivity].
      apply Forall_app. split.
      - apply for_each_Forall. intros cell _.
        destruct cell.2; by repeat constructor.
      - destruct (for_each _ _).2; by repeat constructor. }
    destruct c; cbn [method_body]; apply Hpass.
  - exists (method_body (m_write c) s).1. split; [|done].
    eapply Forall_impl; [apply method_body_emits|].
    intros a Ha. destruct a; try done. simpl in Ha.
    destruct Ha; discriminate.
Qed.

Lemma thread_schedulable m s0 s :
  (forall c, lock_of m = Some c -> lock s c = false) ->
  schedulable (thread m s0) s.
Proof.
  intros Hfree. unfold thread.
  destruct (method_body_acquire m s0) as (rest & Hrest & ->).
  split; [done|]. cbn [exec].
  assert (Hend : Forall never_waits
    (rest ++ [match (method_body m s0).2 with
              | inl e => ThreadDied m e
              | inr _ => ThreadEnd m
              end])).
  { apply Forall_app. split; [done|].
    destruct (method_body m s0).2; by repeat constructor. }
  destruct (lock_of m) as [c|].
  - split; [by apply Hfree|]. by apply schedulable_never_waits.
  - by apply schedulable_never_waits.
Qed.

Lemma emits_lock_op m a c : emits m a -> is_lock_op c a -> lock_of m = Some c.
Proof.
  destruct a; try done; simpl; intros [->| ->] <-; done.
Qed.

(** A thread leaves the locks of the other components as they are. *)
Lemma thread_lock_frame m s0 s c :
  lock_of m <> Some c -> lock (run (thread m s0) s) c = lock s c.
Proof.
  intros Hne. rewrite run_lock, lock_fold_filter.
  replace (filter (is_lock_op c) (thread m s0)) with (@nil Action); [done|].
  symmetry. apply (filter_none (is_lock_op c)).
  eapply Forall_impl; [apply thread_emits|].
  intros a Ha Hl. apply Hne. by eapply emits_lock_op.
Qed.

(** Threads that take different locks, all free, can run one after the
    other. *)
Lemma sequential_schedulable targets s0 s :
  NoDup (omap lock_of targets) ->
  (forall m c, m ∈ targets -> lock_of m = Some c -> lock s c = false) ->
  schedulable (sequential targets s0) s.
Proof.
  revert s. induction targets as [|m targets IH]; intros s Hnodup Hfree;
    [done|].
  unfold sequential. rewrite fmap_cons. cbn [concat].
  apply schedulable_app. split.
  - apply thread_schedulable. intros c Hc. apply (Hfree m c); [by left|done].
  - apply IH.
    + cbn [omap list_omap] in Hnodup.
      destruct (lock_of m); [by apply NoDup_cons in Hnodup as [_ ?]|done].
    + intros m' c' Hm' Hc'. rewrite thread_lock_frame.
      * apply (Hfree m' c'); [by right|done].
      * intros Hmc. cbn [omap list_omap] in Hnodup. rewrite Hmc in Hnodup.
        apply NoDup_cons in Hnodup as [Hnotin _]. apply Hnotin.
        apply list_elem_of_omap. by exists m'.
Qed.

(** A block of stepping threads leaves the lock of a component alone
    when the update thread of that component is not in it. *)
Lemma sequential_lock_frame targets s0 s c :
  (forall m, m ∈ targets -> lock_of m <> Some c) ->
  lock (run (sequential targets s0) s) c = lock s c.
Proof.
  revert s. induction targets as [|m targets IH]; intros s Hne; [done|].
  unfold sequential. rewrite fmap_cons. cbn [concat].
  rewrite run_app.
  change (concat ((fun m => thread m s0) <$> targets))
    with (sequential targets s0).
  rewrite IH by (intros m' Hm'; apply Hne; by right).
  apply thread_lock_frame. apply Hne. by left.
Qed.

Lemma ticks_lock_frame d s c : lock (run [IncN d; SetT] s) c = lock s c.
Proof. reflexivity. Qed.

(** [FDTD.step] returns whenever the six locks are free. *)
Lemma FDTD_step_total s :
  (forall c, lock s c = false) ->
  exists tr s', step FDTD s tr s' None.
Proof.
  intros Hfree. eexists _, _. apply FDTD_step_sequential.
  unfold sequential_step.
  set (E := [m_update Ex; m_update Ey; m_update Ez;
             m_write Hx; m_write Hy; m_write Hz]).
  set (H := [m_update Hx; m_update Hy; m_update Hz;
             m_write Ex; m_write Ey; m_write Ez]).
  apply schedulable_app. split.
  - apply schedulable_app. split; [|by repeat split].
    apply sequential_schedulable; [solve_targets|].
    intros m c _ _. apply Hfree.
  - apply schedulable_app. split; [|by repeat split].
    apply sequential_schedulable; [solve_targets|].
    intros m c Hm Hc. rewrite run_app, ticks_lock_frame.
    destruct (decide (is_electric c = true)) as [He|He].
    + exfalso. unfold H in Hm.
      repeat (apply elem_of_cons in Hm as [->|Hm];
              [by (injection Hc as <- || discriminate Hc)|]).
      by apply elem_of_nil in Hm.
    + rewrite sequential_lock_frame; [apply Hfree|].
      intros m' Hm' Hc'. unfold E in Hm'.
      repeat (apply elem_of_cons in Hm' as [->|Hm'];
              [by (injection Hc' as <- || discriminate Hc')|]).
      by apply elem_of_nil in Hm'.
Qed.

(** A trace whose first operation on a held lock is to acquire it cannot
    be scheduled. *)
Lemma blocked_trace tr s c rest :
  schedulable tr s -> lock s c = true ->
  filter (is_lock_op c) tr = Acquire c :: rest -> False.
Proof.
  revert s. induction tr as [|a tr IH]; intros s Hs Hheld Hf;
    [discriminate|].
  destruct Hs as [Ha Hs].
  destruct (decide (is_lock_op c a)) as [Hl|Hl].
  - rewrite filter_cons_True in Hf by done. injection Hf as -> _.
    simpl in Ha. congruence.
  - rewrite filter_cons_False in Hf by done.
    apply (IH (exec a s) Hs); [|done].
    rewrite <- Hheld. destruct a; try done; simpl in *; unfold upd;
      by rewrite decide_False by congruence.
Qed.

(** In a block of stepping threads the operations on the lock of [c] are
    those of the update thread of [c]. *)
Lemma fork_join_lock_ops targets s tr s' r c :
  Forall stepping targets -> NoDup targets -> m_update c ∈ targets ->
  fork_join targets s tr s' r ->
  filter (is_lock_op c) tr = filter (is_lock_op c) (thread (m_update c) s).
Proof.
  intros Hkind Hnodup Hin Hfj.
  rewrite <- (fork_join_thread stepping targets s tr s' r (m_update c))
    by (done || apply emits_stepping_inj).
  symmetry. apply filter_refine_in.
  eapply Forall_impl; [by eapply fork_join_emits|].
  intros a (m & Hm & Ha) Hl. rewrite Forall_forall in Hkind.
  pose proof (emits_lock_op m a c Ha Hl) as Hlock.
  destruct m as [c'|c'|c'|c']; try done.
  - by apply Hkind in Hm.
  - by injection Hlock as ->.
Qed.

Lemma fork_join_blocked targets s tr s' r c :
  Forall stepping targets -> NoDup targets -> m_update c ∈ targets ->
  lock s c = true ->
  ~ fork_join targets s tr s' r.
Proof.
  intros Hkind Hnodup Hin Hheld Hfj.
  pose proof (fork_join_lock_ops _ _ _ _ _ c Hkind Hnodup Hin Hfj) as Hops.
  destruct Hfj as (_ & Hs & _).
  unfold thread in Hops.
  destruct (method_body_acquire (m_update c) s) as (rest & _ & Hbody).
  rewrite Hbody in Hops. cbn [lock_of] in Hops.
  rewrite filter_cons_False in Hops by (simpl; congruence).
  rewrite <- app_comm_cons, filter_cons_True in Hops by done.
  by eapply blocked_trace.
Qed.

Lemma fork_join_lock_frame targets s tr s' r c :
  (forall m, m ∈ targets -> lock_of m <> Some c) ->
  fork_join targets s tr s' r ->
  lock s' c = lock s c.
Proof.
  intros Hne Hfj. pose proof (fork_join_emits _ _ _ _ _ Hfj) as Hall.
  destruct Hfj as (_ & _ & -> & _).
  rewrite run_lock, lock_fold_filter.
  replace (filter (is_lock_op c) tr) with (@nil Action); [done|].
  symmetry. apply (filter_none (is_lock_op c)).
  eapply Forall_impl; [exact Hall|].
  intros a (m & Hm & Ha) Hl. apply (Hne m Hm). by eapply emits_lock_op.
Qed.

(** With the lock of any component held and nobody to release it, no
    call of [FDTD.step] returns: the update pass of that component waits
    for the lock, and the join waits for the pass. *)
Lemma FDTD_step_blocked s c tr s' r :
  lock s c = true -> ~ step FDTD s tr s' r.
Proof.
  intros Hheld H.
  apply FDTD_step_inv in H
    as (trE & sE & trH & sH & HfjE & HfjH & _).
  destruct (is_electric c) eqn:He.
  - apply (fork_join_blocked _ _ _ _ _ c) in HfjE; try done;
      [solve_targets|solve_targets|destruct c; try done; solve_targets].
  - apply (fork_join_blocked _ _ _ _ _ c) in HfjH; try done;
      [solve_targets|solve_targets|destruct c; try done; solve_targets|].
    rewrite ticks_lock_frame, <- Hheld.
    apply (fork_join_lock_frame _ _ _ _ _ c) in HfjE; [done|].
    intros m Hm Hc.
    repeat (apply elem_of_cons in Hm as [->|Hm];
            [by (injection Hc as <- || discriminate Hc)|]).
    by apply elem_of_nil in Hm.
Qed.

(** After a call of [FDTD.step] the lock of a component whose grid holds
    a rule in every cell is free. *)
Lemma FDTD_step_releases s tr s' r c :
  step FDTD s tr s' r -> populated s c -> lock s' c = false.
Proof.
  intros H Hpop.
  pose proof (step_traces _ _ _ _ _ H) as [-> Hall].
  rewrite run_lock, lock_fold_filter.
  rewrite <- (filter_refine_in (is_lock_op c) (emits (m_update c))).
  2:{ eapply Forall_impl; [exact Hall|].
      intros a [(m & Hm & Ha)|Ha] Hl; [|by destruct a].
      pose proof (emits_lock_op m a c Ha Hl) as Hlock.
      destruct m as [c'|c'|c'|c']; try done. by injection Hlock as ->. }
  rewrite (FDTD_step_update_thread _ _ _ _ c H).
  unfold thread. rewrite (update_body_populated c s Hpop). cbn [fst snd].
  rewrite filter_cons_False by (simpl; congruence).
  rewrite <- app_comm_cons, filter_cons_True by done.
  rewrite <- app_assoc, filter_app.
  replace (filter (is_lock_op c) (expected_calls s c)) with (@nil Action).
  2:{ symmetry. apply (filter_none (is_lock_op c)).
      unfold expected_calls. apply Forall_fmap, Forall_forall.
      intros mo _. simpl. tauto. }
  cbn [app]. rewrite filter_cons_True by done.
  rewrite filter_cons_False by (simpl; congruence).
  cbn [filter list_filter fold_left lock_exec]. by rewrite !decide_True.
Qed.

Lemma populated_static s1 s2 c :
  same_static s1 s2 -> populated s1 c -> populated s2 c.
Proof.
  intros (_ & _ & _ & _ & _ & _ & _ & Hsh & Hg) Hpop idx Hidx.
  rewrite <- Hg. apply Hpop. by rewrite Hsh.
Qed.

(** Any number of calls of [FDTD.step] return, from a state with the
    locks free and a rule in every cell of the six grids. *)
Lemma FDTD_steps_total count s :
  (forall c, lock s c = false) -> (forall c, populated s c) ->
  exists tr s', steps FDTD count s tr s' None.
Proof.
  revert s. induction count as [|count IH]; intros s Hfree Hpop.
  - exists [], s. by repeat split.
  - destruct (FDTD_step_total s Hfree) as (tr1 & s1 & Hstep).
    destruct (IH s1) as (tr2 & s2 & Hrest).
    + intros c. by eapply FDTD_step_releases.
    + intros c. eapply populated_static; [by eapply step_static|done].
    + exists (tr1 ++ tr2), s2.
      exact (seq_intro (step FDTD) (steps FDTD count) s tr1 s1 tr2 s2 None
               Hstep Hrest).
Qed.

(** C8, as the code has it. When the classifier finds no object for a
    cell of a component, the error ends the worker thread of that
    component and goes no further: [init_material] joins its workers and
    returns without an error. The component's grid then holds the rules
    of the cells that come before the failing one in the order of the
    pass, its other cells are as they were before the call, and the
    component's lock stays held, so that no later call of [step]
    returns. *)
Theorem init_material_failure s tr s' r c pre idx0 post :
  init_material FDTD s tr s' r ->
  ndindex (arr_shape (field s c)) = pre ++ idx0 :: post ->
  (forall i, i ∈ pre -> is_Some (classify s c i)) ->
  classify s c idx0 = None ->
  r = None /\
  ThreadDied (m_init_material c)
    (ClassificationError (index_to_space (space s) c idx0)) ∈ tr /\
  (forall i, i ∈ pre -> material_grid s' c !! i = classify s c i) /\
  (forall i, i ∉ pre -> material_grid s' c !! i = material_grid s c !! i) /\
  lock s' c = true /\
  (forall tr2 s2 r2, ~ step FDTD s' tr2 s2 r2).
Proof.
  intros H Hsplit Hpre Hfail.
  destruct (classified_prefix_stops s c pre idx0 post Hpre Hfail)
    as [Hcells Hfirst].
  rewrite <- Hsplit in Hcells, Hfirst.
  assert (Hheld : lock s' c = true).
  { rewrite (FDTD_init_material_lock s tr s' r c H). by rewrite Hfirst. }
  split; [apply H|]. split; [|split; [|split; [|split]]].
  - destruct H as (Hi & _).
    apply (interleave_elem_of _ _ _ Hi).
    exists (thread (m_init_material c) s). split.
    + apply list_elem_of_fmap. exists (m_init_material c).
      split; [done|destruct c; solve_targets].
    + rewrite init_material_thread, Hfirst.
      do 2 right. apply elem_of_app. right. by left.
  - intros i Hi.
    rewrite (FDTD_init_material_grid s tr s' r c i H).
    rewrite Hcells. by rewrite decide_True.
  - intros i Hi.
    rewrite (FDTD_init_material_grid s tr s' r c i H).
    rewrite Hcells. by rewrite decide_False.
  - done.
  - intros tr2 s2 r2. by apply (FDTD_step_blocked s' c).
Qed.

(** ** The class family: which passes a call of [step] runs *)

Lemma e_components_electric k c : c ∈ e_components k -> is_electric c = true.
Proof.
  destruct k; intros H;
    repeat (apply elem_of_cons in H as [->|H]; [done|]);
    by apply elem_of_nil in H.
Qed.

Lemma h_components_magnetic k c : c ∈ h_components k -> is_electric c = false.
Proof.
  destruct k; intros H;
    repeat (apply elem_of_cons in H as [->|H]; [done|]);
    by apply elem_of_nil in H.
Qed.

Lemma emits_update_call c0 a c : emits (m_update c0) a -> is_call c a -> c = c0.
Proof. destruct a; try done. simpl. congruence. Qed.

Lemma emits_write_call c0 a c : emits (m_write c0) a -> ~ is_call c a.
Proof. destruct a; simpl; try tauto. intros Hm _. discriminate Hm. Qed.

Lemma is_call_emits c a : is_call c a -> emits (m_update c) a.
Proof. destruct a; try done. simpl. congruence. Qed.

Lemma traces_in_weaken (P Q : Action -> Prop) (m : Main) :
  (forall a, P a -> Q a) -> traces_in P m -> traces_in Q m.
Proof.
  intros HPQ Hm s tr s' r H. apply Hm in H as [-> Hall].
  split; [done|]. by eapply Forall_impl.
Qed.

Ltac solve_calls_within :=
  repeat first
    [ apply traces_in_seq
    | apply traces_in_act; intros c Hc; by destruct Hc
    | apply traces_in_call; intros a Ha c Hc;
      rewrite (emits_update_call _ _ _ Ha Hc); solve_targets
    | apply traces_in_fork_join; intros m a Hm Ha c Hc;
      repeat (apply elem_of_cons in Hm as [->|Hm];
              [first [ rewrite (emits_update_call _ _ _ Ha Hc); solve_targets
                     | by destruct (emits_write_call _ _ c Ha) ]|]);
      by apply elem_of_nil in Hm ].

Lemma e_phase_calls k : traces_in (calls_within (e_components k)) (e_phase k).
Proof. destruct k; unfold e_phase, advance; solve_calls_within. Qed.

Lemma h_phase_calls k : traces_in (calls_within (h_components k)) (h_phase k).
Proof. destruct k; unfold h_phase, advance; solve_calls_within. Qed.

Lemma step_calls k : traces_in (calls_within (active k)) (step k).
Proof.
  apply traces_in_seq.
  - eapply traces_in_weaken; [|apply e_phase_calls].
    intros a Ha c Hc. apply elem_of_app. left. by apply Ha.
  - eapply traces_in_weaken; [|apply h_phase_calls].
    intros a Ha c Hc. apply elem_of_app. right. by apply Ha.
Qed.

(** X1. In every class, the trace of a call of [step] splits in two:
    every rule invocation of the first part is on an electric component
    of the class, every rule invocation of the second part on a magnetic
    component of the class. No magnetic update precedes an electric
    one, also when the call ends with an exception. *)
Theorem step_electric_before_magnetic k s tr s' r :
  step k s tr s' r ->
  exists blkE blkH,
    tr = blkE ++ blkH /\
    Forall (fun a => forall c, is_call c a ->
                       is_electric c = true /\ c ∈ e_components k) blkE /\
    Forall (fun a => forall c, is_call c a ->
                       is_electric c = false /\ c ∈ h_components k) blkH.
Proof.
  intros [(s1 & tr1 & tr2 & He & Hh & ->)|(e & He & ->)].
  - exists tr1, tr2. split; [done|].
    apply e_phase_calls in He as [_ HallE].
    apply h_phase_calls in Hh as [_ HallH].
    split; (eapply Forall_impl; [eassumption|]); intros a Ha c Hc;
      (split; [|by apply Ha]).
    + eapply e_components_electric. by apply Ha.
    + eapply h_components_magnetic. by apply Ha.
  - exists tr, []. split; [by rewrite app_nil_r|].
    apply e_phase_calls in He as [_ HallE].
    split; [|constructor].
    eapply Forall_impl; [exact HallE|]. intros a Ha c Hc.
    split; [|by apply Ha]. eapply e_components_electric. by apply Ha.
Qed.

(** ** The wiring of the update passes, for every class *)

Lemma filter_none_intro {A} (P : A -> Prop) `{!forall x, Decision (P x)}
    (l : list A) :
  Forall (fun x => ~ P x) l -> filter P l = [].
Proof. apply filter_none. Qed.

Lemma update_thread_calls c s :
  populated s c ->
  filter (is_call c) (thread (m_update c) s) = expected_calls s c.
Proof.
  intros Hpop. unfold thread.
  rewrite (update_body_populated c s Hpop). simpl.
  rewrite filter_cons_False by (simpl; tauto).
  rewrite filter_cons_False by (simpl; tauto).
  rewrite <- app_assoc, filter_app. simpl.
  rewrite (filter_cons_False _ (Release c)) by (simpl; tauto).
  rewrite (filter_cons_False _ (ThreadEnd _)) by (simpl; tauto).
  rewrite filter_nil, app_nil_r. apply filter_all.
  unfold expected_calls. apply Forall_fmap. by apply Forall_true.
Qed.

Lemma update_body_expected c s :
  populated s c ->
  filter (is_call c) (method_body (m_update c) s).1 = expected_calls s c.
Proof.
  intros Hpop. rewrite (update_body_populated c s Hpop). simpl.
  rewrite filter_cons_False by (simpl; tauto).
  rewrite filter_app. simpl.
  rewrite (filter_cons_False _ (Release c)) by (simpl; tauto).
  rewrite filter_nil, app_nil_r. apply filter_all.
  unfold expected_calls. apply Forall_fmap. by apply Forall_true.
Qed.

Lemma expected_calls_static s1 s2 c :
  same_static s1 s2 -> expected_calls s1 c = expected_calls s2 c.
Proof.
  intros (_ & Hdx & Hdy & Hdz & Hdt & _ & _ & Hsh & Hg).
  unfold expected_calls, rules, curl_spacings.
  rewrite Hdt, (Hsh c), (Hg c).
  destruct c; simpl; by rewrite ?Hdx, ?Hdy, ?Hdz.
Qed.

Lemma wired_fork_join targets comps :
  Forall stepping targets -> NoDup targets ->
  (forall c, m_update c ∈ targets <-> c ∈ comps) ->
  wired comps (fork_join targets).
Proof.
  intros Hkind Hnd Hiff s tr s' H Hpop c.
  rewrite <- (filter_refine (is_call c) (emits (m_update c)))
    by apply is_call_emits.
  destruct (decide (c ∈ comps)) as [Hin|Hout].
  - rewrite (fork_join_thread stepping targets s tr s' None (m_update c)
               emits_stepping_inj Hkind Hnd (proj2 (Hiff c) Hin) H).
    by apply update_thread_calls, Hpop.
  - rewrite (fork_join_absent stepping targets s tr s' None (m_update c)
               emits_stepping_inj Hkind I); [done| |done].
    intros Hin. by apply Hout, Hiff.
Qed.

Lemma wired_call c0 : wired [c0] (call (m_update c0)).
Proof.
  intros s tr s' (-> & _ & _ & _) Hpop c.
  destruct (decide (c ∈ [c0])) as [Hin|Hout].
  - apply list_elem_of_singleton in Hin as ->.
    apply update_body_expected, Hpop. by apply list_elem_of_singleton.
  - apply filter_none_intro, update_body_calls.
    intros ->. apply Hout. by apply list_elem_of_singleton.
Qed.

Lemma wired_then_ticks comps (X Y : Main) :
  wired comps X -> traces_in is_tick Y -> wired comps (X >>> Y).
Proof.
  intros HX HY s tr s' [(s1 & tr1 & tr2 & H1 & H2 & ->)|(e & _ & [=])] Hpop c.
  rewrite filter_app, (HX s tr1 s1 H1 Hpop c).
  apply HY in H2 as [_ Hticks].
  rewrite (filter_none_intro (is_call c) tr2), app_nil_r; [done|].
  eapply Forall_impl; [exact Hticks|]. intros a Ha Hc. by destruct a.
Qed.

Lemma advance_ticks d : traces_in is_tick (advance d).
Proof. apply traces_in_seq; by apply traces_in_act. Qed.

Lemma e_phase_wired k : wired (e_components k) (e_phase k).
Proof.
  destruct k; unfold e_phase; apply wired_then_ticks;
    first [ apply advance_ticks
          | apply wired_call
          | apply wired_fork_join; solve_targets ].
Qed.

Lemma h_phase_wired k : wired (h_components k) (h_phase k).
Proof.
  destruct k; unfold h_phase; apply wired_then_ticks;
    first [ apply advance_ticks
          | apply traces_in_seq; by apply traces_in_act
          | apply wired_call
          | apply wired_fork_join; solve_targets ].
Qed.

(** X2. In every class, a call of [step] that starts with a rule in
    every cell of the grids of the class's components invokes, for each
    of them, exactly one rule per cell of its grid, in the grid's order
    and with the partners, spacings and time step of the table; and it
    invokes no rule of any other component. *)
Theorem step_wiring k s tr s' :
  step k s tr s' None ->
  (forall c, c ∈ active k -> populated s c) ->
  forall c,
    filter (is_call c) tr =
      if decide (c ∈ active k) then expected_calls s c else [].
Proof.
  intros H Hpop c.
  apply step_phases in H as (s1 & tr1 & tr2 & He & Hh & ->).
  pose proof (e_phase_static _ _ _ _ _ He) as Hst.
  rewrite filter_app.
  rewrite (e_phase_wired k s tr1 s1 He) by
    (intros c' Hc'; apply Hpop, elem_of_app; by left).
  rewrite (h_phase_wired k s1 tr2 s' Hh) by
    (intros c' Hc'; apply (populated_static s s1); [done|];
     apply Hpop, elem_of_app; by right).
  rewrite <- (expected_calls_static s s1 c Hst).
  destruct (decide (c ∈ e_components k)) as [HinE|HoutE];
    destruct (decide (c ∈ h_components k)) as [HinH|HoutH].
  - apply e_components_electric in HinE.
    apply h_components_magnetic in HinH. congruence.
  - rewrite app_nil_r, decide_True; [done|]. apply elem_of_app. by left.
  - rewrite decide_True; [done|]. apply elem_of_app. by right.
  - rewrite decide_False; [done|]. intros [?|?]%elem_of_app; tauto.
Qed.

(** ** Held locks, for every class *)

Lemma lock_frame tr s c :
  Forall (fun a => ~ is_lock_op c a) tr -> lock (run tr s) c = lock s c.
Proof.
  intros H.
  by rewrite run_lock, lock_fold_filter, (filter_none_intro (is_lock_op c) tr H).
Qed.

Lemma emits_update_lock c0 a c :
  emits (m_update c0) a -> is_lock_op c a -> c = c0.
Proof.
  intros Ha Hl. pose proof (emits_lock_op _ _ _ Ha Hl) as H.
  by injection H.
Qed.

Lemma emits_write_lock c0 a c : emits (m_write c0) a -> ~ is_lock_op c a.
Proof. intros Ha Hl. by pose proof (emits_lock_op _ _ _ Ha Hl). Qed.

Ltac solve_locks_within :=
  repeat first
    [ apply traces_in_seq
    | apply traces_in_act; intros c Hc; by destruct Hc
    | apply traces_in_call; intros a Ha c Hc;
      rewrite (emits_update_lock _ _ _ Ha Hc); solve_targets
    | apply traces_in_fork_join; intros m a Hm Ha c Hc;
      repeat (apply elem_of_cons in Hm as [->|Hm];
              [first [ rewrite (emits_update_lock _ _ _ Ha Hc); solve_targets
                     | by destruct (emits_write_lock _ _ c Ha) ]|]);
      by apply elem_of_nil in Hm ].

Lemma e_phase_locks k : traces_in (locks_within (e_components k)) (e_phase k).
Proof. destruct k; unfold e_phase, advance; solve_locks_within. Qed.

Lemma h_phase_locks k : traces_in (locks_within (h_components k)) (h_phase k).
Proof. destruct k; unfold h_phase, advance; solve_locks_within. Qed.

Lemma call_blocked c s tr s' r :
  lock s c = true -> ~ call (m_update c) s tr s' r.
Proof.
  intros Hheld (-> & Hs & _).
  destruct (method_body_acquire (m_update c) s) as (rest & _ & Hbody).
  rewrite Hbody in Hs. cbn [lock_of] in Hs. destruct Hs as [Ha _].
  simpl in Ha. congruence.
Qed.

Lemma e_phase_blocked k s c tr s' r :
  c ∈ e_components k -> lock s c = true -> ~ e_phase k s tr s' r.
Proof.
  intros Hin Hheld H.
  destruct k; unfold e_phase in H;
    destruct H as [(s1 & tr1 & tr2 & H1 & _)|(e & H1 & _)];
    repeat (apply elem_of_cons in Hin as [->|Hin];
            [first [ exact (call_blocked _ _ _ _ _ Hheld H1)
                   | refine (fork_join_blocked _ _ _ _ _ _ _ _ _ Hheld H1);
                     solve_targets ]|]);
    by apply elem_of_nil in Hin.
Qed.

Lemma h_phase_blocked k s c tr s' r :
  c ∈ h_components k -> lock s c = true -> ~ h_phase k s tr s' r.
Proof.
  intros Hin Hheld H.
  destruct k; unfold h_phase in H;
    destruct H as [(s1 & tr1 & tr2 & H1 & _)|(e & H1 & _)];
    repeat (apply elem_of_cons in Hin as [->|Hin];
            [first [ exact (call_blocked _ _ _ _ _ Hheld H1)
                   | refine (fork_join_blocked _ _ _ _ _ _ _ _ _ Hheld H1);
                     solve_targets ]|]);
    by apply elem_of_nil in Hin.
Qed.

Lemma e_phase_lock_frame k s tr s' r c :
  e_phase k s tr s' r -> c ∉ e_components k -> lock s' c = lock s c.
Proof.
  intros H Hc. apply e_phase_locks in H as [-> Hall]. apply lock_frame.
  eapply Forall_impl; [exact Hall|]. intros a Ha Hl. by apply Hc, Ha.
Qed.

Lemma h_phase_lock_frame k s tr s' r c :
  h_phase k s tr s' r -> c ∉ h_components k -> lock s' c = lock s c.
Proof.
  intros H Hc. apply h_phase_locks in H as [-> Hall]. apply lock_frame.
  eapply Forall_impl; [exact Hall|]. intros a Ha Hl. by apply Hc, Ha.
Qed.

Lemma e_not_h k c : c ∈ e_components k -> c ∉ h_components k.
Proof.
  intros He Hh. apply e_components_electric in He.
  apply h_components_magnetic in Hh. congruence.
Qed.

Lemma h_not_e k c : c ∈ h_components k -> c ∉ e_components k.
Proof. intros Hh He. by apply (e_not_h k c). Qed.

Lemma step_blocked k s c tr s' :
  c ∈ active k -> lock s c = true -> ~ step k s tr s' None.
Proof.
  intros Hin Hheld H.
  apply step_phases in H as (s1 & tr1 & tr2 & He & Hh & ->).
  apply elem_of_app in Hin as [Hin|Hin].
  - by eapply e_phase_blocked.
  - apply (h_phase_blocked k s1 c tr2 s' None Hin); [|done].
    rewrite <- Hheld. eapply e_phase_lock_frame; [exact He|].
    by apply h_not_e.
Qed.

Lemma step_blocked_electric k s c tr s' r :
  c ∈ e_components k -> lock s c = true -> ~ step k s tr s' r.
Proof.
  intros HinE Hheld [(s1 & tr1 & tr2 & He & _)|(e & He & _)];
    by eapply e_phase_blocked.
Qed.

(** X3. In every class, while the lock of one of the class's components
    is held and nobody is there to release it, no call of [step] returns
    normally: the update pass of that component waits for the lock. When
    the component is an electric one the call does not leave with an
    exception either. *)
Theorem step_waits_on_held_lock k s c :
  c ∈ active k -> lock s c = true ->
  (forall tr s', ~ step k s tr s' None) /\
  (c ∈ e_components k -> forall tr s' r, ~ step k s tr s' r).
Proof.
  intros Hin Hheld. split.
  - intros tr s'. by apply (step_blocked k s c).
  - intros HinE tr s' r. by apply (step_blocked_electric k s c).
Qed.

(** ** An update pass over a grid with an unassigned cell *)

Lemma for_each_cells_prefix (c : Component) (g : gmap Idx PwMaterial)
    (f : PwMaterial -> Action) (l : list Idx) :
  for_each ((fun idx => (idx, g !! idx)) <$> l)
    (fun cell =>
       match cell.2 with
       | None => raise (NoUpdateRule c cell.1)
       | Some mo => emit (f mo)
       end)
  = (f <$> assigned_prefix g l,
     match first_unassigned g l with
     | Some idx => inl (NoUpdateRule c idx)
     | None => inr tt
     end).
Proof.
  induction l as [|idx l IH]; [done|].
  rewrite fmap_cons. cbn [for_each first_unassigned assigned_prefix].
  rewrite IH. cbn [snd fst]. by destruct (g !! idx).
Qed.

Lemma update_body_hole c s idx0 :
  first_hole s c = Some idx0 ->
  method_body (m_update c) s =
    (Acquire c :: partial_calls s c, inl (NoUpdateRule c idx0)).
Proof.
  unfold first_hole, partial_calls. intros Hh.
  destruct c; cbn [method_body];
    unfold update_ex, update_ey, update_ez, update_hx, update_hy, update_hz,
      update_pass, flat;
    rewrite for_each_cells_prefix, Hh; reflexivity.
Qed.

Lemma partial_calls_calls s c : Forall (is_call c) (partial_calls s c).
Proof. unfold partial_calls. apply Forall_fmap. by apply Forall_true. Qed.

Lemma first_hole_static s1 s2 c :
  same_static s1 s2 -> first_hole s1 c = first_hole s2 c.
Proof.
  intros (_ & _ & _ & _ & _ & _ & _ & Hsh & Hg).
  unfold first_hole. by rewrite (Hsh c), (Hg c).
Qed.

Lemma partial_calls_static s1 s2 c :
  same_static s1 s2 -> partial_calls s1 c = partial_calls s2 c.
Proof.
  intros (_ & Hdx & Hdy & Hdz & Hdt & _ & _ & Hsh & Hg).
  unfold partial_calls, curl_spacings.
  rewrite Hdt, (Hsh c), (Hg c).
  destruct c; simpl; by rewrite ?Hdx, ?Hdy, ?Hdz.
Qed.

(** A pass run in the main thread over a grid with a hole: the call
    raises, after the invocations before the hole, with the lock held. *)
Lemma call_raises c s idx0 tr s' r :
  first_hole s c = Some idx0 ->
  call (m_update c) s tr s' r ->
  tr = Acquire c :: partial_calls s c /\ s' = run tr s /\
  r = Some (NoUpdateRule c idx0).
Proof.
  intros Hh (-> & _ & -> & ->). by rewrite (update_body_hole c s idx0 Hh).
Qed.

Lemma partial_run_time s0 s c :
  time_step (run (Acquire c :: partial_calls s0 c) s) = time_step s.
Proof.
  apply run_time_step. constructor; [simpl; tauto|].
  eapply Forall_impl; [apply partial_calls_calls|].
  intros a Ha. destruct a; simpl in *; tauto.
Qed.

Lemma partial_lock_ops s0 c :
  filter (is_lock_op c) (Acquire c :: partial_calls s0 c) = [Acquire c].
Proof.
  rewrite filter_cons_True by done. f_equal.
  apply filter_none_intro.
  eapply Forall_impl; [apply partial_calls_calls|].
  intros a Ha. destruct a; simpl in *; tauto.
Qed.

Lemma partial_run_lock s0 s c :
  lock (run (Acquire c :: partial_calls s0 c) s) c = true.
Proof.
  rewrite run_lock, lock_fold_filter, partial_lock_ops. simpl.
  by rewrite decide_True.
Qed.

Lemma direct_electric_phase k e :
  direct_electric k = Some e ->
  e ∈ e_components k /\
  exists d, e_phase k = (call (m_update e) >>> advance d).
Proof.
  destruct k; intros [= <-]; (split; [by repeat constructor|]);
    eexists; reflexivity.
Qed.

(** X4. The classes that run the electric pass in the main thread
    (TMx, TMy, TMz, TEMx, TEMy, TEMz), on a grid of that pass with a cell
    that holds no rule: the call of [step] leaves with the exception of
    the first such cell; its trace is the lock acquisition and the
    invocations for the cells before that one, and nothing else: no
    release, no change of the time state, no magnetic pass. The lock
    stays held, and no later call of [step] returns. *)
Theorem direct_electric_hole k e idx0 s tr s' r :
  direct_electric k = Some e -> first_hole s e = Some idx0 ->
  step k s tr s' r ->
  r = Some (NoUpdateRule e idx0) /\
  tr = Acquire e :: partial_calls s e /\
  time_step s' = time_step s /\
  lock s' e = true /\
  forall tr2 s2 r2, ~ step k s' tr2 s2 r2.
Proof.
  intros Hk Hh H.
  destruct (direct_electric_phase k e Hk) as (Hin & d & Hphase).
  assert (Hcall : call (m_update e) s tr s' r /\ r <> None).
  { unfold step in H. rewrite Hphase in H.
    destruct H as [(s1 & tr1 & tr2 & He & _)|(ex & He & ->)].
    - destruct He as [(s2 & tr3 & tr4 & Hc & _)|(ex & _ & [=])].
      by apply (call_raises e s idx0) in Hc as (_ & _ & [=]).
    - destruct He as [(s2 & tr3 & tr4 & Hc & _)|(ex' & Hc & [= ->])].
      + by apply (call_raises e s idx0) in Hc as (_ & _ & [=]).
      + done. }
  destruct Hcall as [Hcall _].
  apply (call_raises e s idx0 _ _ _ Hh) in Hcall as (-> & -> & ->).
  assert (Hheld : lock (run (Acquire e :: partial_calls s e) s) e = true)
    by apply partial_run_lock.
  repeat split; [apply partial_run_time|done|].
  intros tr2 s2 r2 [(s1 & tr3 & tr4 & He & _)|(ex & He & _)];
    by eapply e_phase_blocked.
Qed.

Lemma direct_magnetic_phase k h :
  direct_magnetic k = Some h ->
  h ∈ h_components k /\
  exists Y, h_phase k = (call (m_update h) >>> Y).
Proof.
  destruct k; intros [= <-]; (split; [by repeat constructor|]);
    eexists; reflexivity.
Qed.

(** With a rule in every cell of the electric grids of the class, the
    electric phase does not raise. *)
Lemma e_phase_returns k s tr s' ex :
  (forall c, c ∈ e_components k -> populated s c) ->
  ~ e_phase k s tr s' (Some ex).
Proof.
  intros Hpop H.
  destruct k; unfold e_phase in H;
    destruct H as [(s1 & tr1 & tr2 & _ & H2 & _)|(ex' & H1 & _)];
    first
      [ by apply advance_inv in H2 as (_ & _ & [=])
      | by apply fork_join_returns in H1
      | destruct H1 as (_ & _ & _ & Hr);
        rewrite update_body_populated in Hr
          by (apply Hpop; by repeat constructor);
        discriminate Hr ].
Qed.

(** X5. The classes that run the magnetic pass in the main thread
    (TEx, TEy, TEz, TEMx, TEMy, TEMz), with a rule in every cell of their
    electric grids and a magnetic grid with a cell that holds none: the
    call of [step] leaves with the exception of the first such cell, after
    the electric pass has run in full and the counter has advanced by one
    phase (one half, and 5 in the one-dimensional classes); the lock of
    the magnetic component stays held. *)
Theorem direct_magnetic_hole k h idx0 s tr s' r :
  direct_magnetic k = Some h -> first_hole s h = Some idx0 ->
  (forall c, c ∈ e_components k -> populated s c) ->
  step k s tr s' r ->
  r = Some (NoUpdateRule h idx0) /\
  n (time_step s') = (n (time_step s) + increment k)%Q /\
  lock s' h = true /\
  (forall c, c ∈ e_components k ->
     filter (is_call c) tr = expected_calls s c) /\
  filter (is_call h) tr = partial_calls s h.
Proof.
  intros Hk Hh Hpop H.
  destruct (direct_magnetic_phase k h Hk) as (Hin & Y & Hphase).
  destruct H as [(s1 & tr1 & tr2 & He & H2 & ->)|(ex & He & _)];
    [|by apply e_phase_returns in He].
  pose proof (e_phase_static _ _ _ _ _ He) as Hst.
  assert (Hh1 : first_hole s1 h = Some idx0)
    by (by rewrite <- (first_hole_static s s1 h Hst)).
  rewrite Hphase in H2.
  assert (Hcall : call (m_update h) s1 tr2 s' r).
  { destruct H2 as [(s2 & tr3 & tr4 & Hc & _)|(ex & Hc & ->)].
    - by apply (call_raises h s1 idx0) in Hc as (_ & _ & [=]).
    - pose proof (call_raises h s1 idx0 _ _ _ Hh1 Hc) as (_ & _ & [= ->]).
      done. }
  apply (call_raises h s1 idx0 _ _ _ Hh1) in Hcall as (-> & -> & ->).
  split; [done|]. split.
  { rewrite partial_run_time. by rewrite (e_phase_time _ _ _ _ He). }
  split; [apply partial_run_lock|]. split.
  - intros c Hc. rewrite filter_app.
    pose proof (e_phase_wired k s tr1 s1 He Hpop c) as Hw.
    rewrite decide_True in Hw by done. rewrite Hw.
    rewrite (filter_none_intro (is_call c)), app_nil_r; [done|].
    constructor; [simpl; tauto|].
    eapply Forall_impl; [apply partial_calls_calls|].
    intros a Ha Hca. destruct a; try done. simpl in *. subst.
    by apply (e_not_h k c).
  - rewrite filter_app.
    pose proof (e_phase_wired k s tr1 s1 He Hpop h) as Hw.
    rewrite decide_False in Hw by (by apply h_not_e). rewrite Hw.
    rewrite filter_cons_False by (simpl; tauto).
    rewrite (partial_calls_static s s1 h Hst).
    apply filter_all, partial_calls_calls.
Qed.

(** ** A threaded update pass over a grid with an unassigned cell *)




Lemma ticks_no_lock_op c tr :
  Forall is_tick tr -> Forall (fun a => ~ is_lock_op c a) tr.
Proof.
  intros H. eapply Forall_impl; [exact H|]. intros a Ha Hc. by destruct a.
Qed.






(** ** What stepping leaves alone *)

Lemma steps_traces_in (P : Action -> Prop) k count :
  traces_in P (step k) -> traces_in P (steps k count).
Proof.
  intros Hstep. induction count as [|count IH]; simpl.
  - apply traces_in_skip.
  - by apply traces_in_seq.
Qed.

Lemma step_locks k : traces_in (locks_within (active k)) (step k).
Proof.
  apply traces_in_seq.
  - eapply traces_in_weaken; [|apply e_phase_locks].
    intros a Ha c Hc. apply elem_of_app. left. by apply Ha.
  - eapply traces_in_weaken; [|apply h_phase_locks].
    intros a Ha c Hc. apply elem_of_app. right. by apply Ha.
Qed.

Lemma emits_update_export c a : emits (m_update c) a -> ~ is_export a.
Proof. destruct a; simpl; try tauto. intros Hm _. discriminate Hm. Qed.

Lemma reduced_step_no_export k :
  reduced k -> traces_in (fun a => ~ is_export a) (step k).
Proof.
  intros Hk. destruct k; [done|..]; unfold step, e_phase, h_phase, advance;
    repeat first
      [ apply traces_in_seq
      | apply traces_in_act; simpl; tauto
      | apply traces_in_call; intros a Ha; by eapply emits_update_export
      | apply traces_in_fork_join; intros m a Hm Ha;
        repeat (apply elem_of_cons in Hm as [->|Hm];
                [by eapply emits_update_export|]);
        by apply elem_of_nil in Hm ].
Qed.

(** X7. Any number of calls of [step], of any class and however they
    end, leave alone: the material grids, the shapes of the arrays, the
    cell widths and the time step, the geometry tree and the source list;
    the field array and the lock of every component that is not one of
    the class's; and, in every class but the three-dimensional one, the
    record of the exported files. *)
Theorem steps_frame k count s tr s' r :
  steps k count s tr s' r ->
  same_static s s' /\
  (forall c, c ∉ active k ->
     field s' c = field s c /\ lock s' c = lock s c) /\
  (reduced k -> hdf5_log s' = hdf5_log s).
Proof.
  intros H. split; [|split].
  - apply (steps_traces k count) in H as [-> Hall]. apply same_static_run.
    eapply Forall_impl; [exact Hall|].
    intros a Ha c. by apply step_action_no_grid_write.
  - intros c Hc. split.
    + apply (steps_traces_in _ k count (step_calls k)) in H as [-> Hall].
      apply run_field. eapply Forall_impl; [exact Hall|].
      intros a Ha Hcall. by apply Hc, Ha.
    + apply (steps_traces_in _ k count (step_locks k)) in H as [-> Hall].
      apply lock_frame. eapply Forall_impl; [exact Hall|].
      intros a Ha Hl. by apply Hc, Ha.
  - intros Hk.
    apply (steps_traces_in _ k count (reduced_step_no_export k Hk)) in H
      as [-> Hall].
    by apply run_hdf5_log.
Qed.

(** ** Every class: a call returns and frees the locks *)

Lemma expected_calls_no_lock_op s c c' :
  filter (is_lock_op c') (expected_calls s c) = [].
Proof.
  apply filter_none_intro. unfold expected_calls.
  apply Forall_fmap, Forall_forall. intros mo _. simpl. tauto.
Qed.

Lemma update_body_lock_ops c s :
  populated s c ->
  filter (is_lock_op c) (method_body (m_update c) s).1 =
    [Acquire c; Release c].
Proof.
  intros Hpop. rewrite (update_body_populated c s Hpop). cbn [fst].
  rewrite filter_cons_True by done.
  rewrite filter_app, expected_calls_no_lock_op. cbn [app].
  by rewrite filter_cons_True by done.
Qed.

Lemma update_thread_lock_ops c s :
  populated s c ->
  filter (is_lock_op c) (thread (m_update c) s) = [Acquire c; Release c].
Proof.
  intros Hpop. unfold thread.
  rewrite filter_cons_False by (simpl; tauto).
  rewrite filter_app, (update_body_lock_ops c s Hpop).
  rewrite (update_body_populated c s Hpop). cbn [snd].
  by rewrite filter_cons_False by (simpl; tauto).
Qed.

Lemma released_fold c b :
  fold_left (lock_exec c) [Acquire c; Release c] b = false.
Proof. simpl. by rewrite !decide_True. Qed.

Lemma fork_join_releases targets s tr s' c :
  Forall stepping targets -> NoDup targets -> m_update c ∈ targets ->
  populated s c ->
  fork_join targets s tr s' None -> lock s' c = false.
Proof.
  intros Hkind Hnd Hin Hpop Hfj.
  pose proof (fork_join_lock_ops _ _ _ _ _ c Hkind Hnd Hin Hfj) as Hops.
  destruct Hfj as (_ & _ & -> & _).
  rewrite run_lock, lock_fold_filter, Hops, (update_thread_lock_ops c s Hpop).
  apply released_fold.
Qed.

Lemma call_releases c s tr s' r :
  populated s c -> call (m_update c) s tr s' r -> lock s' c = false.
Proof.
  intros Hpop (-> & _ & -> & _).
  rewrite run_lock, lock_fold_filter, (update_body_lock_ops c s Hpop).
  apply released_fold.
Qed.

(** A block or a call, followed by statements on the time state. *)
Lemma then_ticks_lock (X Y : Main) s tr s' c :
  traces_in is_tick Y ->
  (forall s1 tr1, X s tr1 s1 None -> lock s1 c = false) ->
  (X >>> Y) s tr s' None -> lock s' c = false.
Proof.
  intros HY HX [(s1 & tr1 & tr2 & H1 & H2 & ->)|(e & _ & [=])].
  apply HY in H2 as [-> Hticks].
  rewrite (lock_frame tr2 s1 c (ticks_no_lock_op c tr2 Hticks)).
  by eapply HX.
Qed.

Lemma TEz_ticks : traces_in is_tick (act (IncN (1 # 2)) >>> act IncT).
Proof. apply traces_in_seq; by apply traces_in_act. Qed.

Lemma e_phase_releases k s tr s' c :
  c ∈ e_components k -> populated s c ->
  e_phase k s tr s' None -> lock s' c = false.
Proof.
  intros Hin Hpop H.
  destruct k; unfold e_phase in H;
    (eapply then_ticks_lock; [apply advance_ticks| |exact H]);
    intros s1 tr1 H1;
    repeat (apply elem_of_cons in Hin as [->|Hin];
            [first [ exact (call_releases _ _ _ _ _ Hpop H1)
                   | refine (fork_join_releases _ _ _ _ _ _ _ _ Hpop H1);
                     solve_targets ]|]);
    by apply elem_of_nil in Hin.
Qed.

Lemma h_phase_releases k s tr s' c :
  c ∈ h_components k -> populated s c ->
  h_phase k s tr s' None -> lock s' c = false.
Proof.
  intros Hin Hpop H.
  destruct k; unfold h_phase in H;
    (refine (then_ticks_lock _ _ s tr s' c _ _ H);
       [first [apply advance_ticks | apply TEz_ticks]|]);
    intros s1 tr1 H1;
    repeat (apply elem_of_cons in Hin as [->|Hin];
            [first [ exact (call_releases _ _ _ _ _ Hpop H1)
                   | refine (fork_join_releases _ _ _ _ _ _ _ _ Hpop H1);
                     solve_targets ]|]);
    by apply elem_of_nil in Hin.
Qed.

Lemma step_frees k s tr s' c :
  step k s tr s' None -> c ∈ active k -> populated s c -> lock s' c = false.
Proof.
  intros H Hin Hpop.
  apply step_phases in H as (s1 & tr1 & tr2 & He & Hh & ->).
  apply elem_of_app in Hin as [Hin|Hin].
  - rewrite (h_phase_lock_frame k s1 tr2 s' None c Hh (e_not_h k c Hin)).
    by eapply e_phase_releases.
  - eapply h_phase_releases; [done| |exact Hh].
    eapply populated_static; [by eapply e_phase_static|done].
Qed.

Lemma fork_join_total targets s :
  NoDup (omap lock_of targets) ->
  (forall m c, m ∈ targets -> lock_of m = Some c -> lock s c = false) ->
  fork_join targets s (sequential targets s)
    (run (sequential targets s) s) None.
Proof.
  intros Hnd Hfree. apply fork_join_sequential.
  by apply sequential_schedulable.
Qed.

Lemma call_total c s :
  lock s c = false -> populated s c ->
  call (m_update c) s (method_body (m_update c) s).1
    (run (method_body (m_update c) s).1 s) None.
Proof.
  intros Hfree Hpop. repeat split.
  - destruct (method_body_acquire (m_update c) s) as (rest & Hrest & ->).
    cbn [lock_of]. split; [done|]. by apply schedulable_never_waits.
  - by rewrite (update_body_populated c s Hpop).
Qed.

Lemma then_total (X Y : Main) s :
  (exists tr s', X s tr s' None) ->
  (forall s1, exists tr s', Y s1 tr s' None) ->
  exists tr s', (X >>> Y) s tr s' None.
Proof.
  intros (tr1 & s1 & H1) HY. destruct (HY s1) as (tr2 & s2 & H2).
  exists (tr1 ++ tr2), s2. left. by exists s1, tr1, tr2.
Qed.

Lemma act_total a s : exists tr s', act a s tr s' None.
Proof. by eexists _, _. Qed.

Lemma advance_total d s : exists tr s', advance d s tr s' None.
Proof. apply then_total; [apply act_total|intros; apply act_total]. Qed.

Ltac solve_free Hfree :=
  intros m c Hm Hc;
  repeat (apply elem_of_cons in Hm as [->|Hm];
          [first [ discriminate Hc
                 | injection Hc as <-; apply Hfree; solve_targets ]|]);
  by apply elem_of_nil in Hm.

Lemma e_phase_total k s :
  (forall c, c ∈ e_components k -> lock s c = false) ->
  (forall c, c ∈ e_components k -> populated s c) ->
  exists tr s', e_phase k s tr s' None.
Proof.
  intros Hfree Hpop.
  destruct k; unfold e_phase;
    (apply then_total; [|intros; apply advance_total]);
    first
      [ eexists _, _; apply call_total;
        [apply Hfree; solve_targets|apply Hpop; solve_targets]
      | eexists _, _; apply fork_join_total;
        [solve_targets|solve_free Hfree] ].
Qed.

Lemma h_phase_total k s :
  (forall c, c ∈ h_components k -> lock s c = false) ->
  (forall c, c ∈ h_components k -> populated s c) ->
  exists tr s', h_phase k s tr s' None.
Proof.
  intros Hfree Hpop.
  destruct k; unfold h_phase;
    (apply then_total;
       [|intros; first [apply advance_total
                       | apply then_total; [apply act_total
                                           |intros; apply act_total]]]);
    first
      [ eexists _, _; apply call_total;
        [apply Hfree; solve_targets|apply Hpop; solve_targets]
      | eexists _, _; apply fork_join_total;
        [solve_targets|solve_free Hfree] ].
Qed.

Lemma step_total k s :
  (forall c, c ∈ active k -> lock s c = false) ->
  (forall c, c ∈ active k -> populated s c) ->
  exists tr s', step k s tr s' None.
Proof.
  intros Hfree Hpop.
  destruct (e_phase_total k s) as (tr1 & s1 & He).
  { intros c Hc. apply Hfree, elem_of_app. by left. }
  { intros c Hc. apply Hpop, elem_of_app. by left. }
  destruct (h_phase_total k s1) as (tr2 & s2 & Hh).
  { intros c Hc.
    rewrite (e_phase_lock_frame k s tr1 s1 None c He (h_not_e k c Hc)).
    apply Hfree, elem_of_app. by right. }
  { intros c Hc. eapply populated_static; [by eapply e_phase_static|].
    apply Hpop, elem_of_app. by right. }
  exists (tr1 ++ tr2), s2. left. by exists s1, tr1, tr2.
Qed.

Lemma step_keeps_ready k s tr s' :
  (forall c, c ∈ active k -> populated s c) ->
  step k s tr s' None ->
  (forall c, c ∈ active k -> lock s' c = false) /\
  (forall c, c ∈ active k -> populated s' c).
Proof.
  intros Hpop Hstep. split; intros c Hc.
  - eapply step_frees; [exact Hstep|done|by apply Hpop].
  - eapply populated_static; [by eapply step_static|by apply Hpop].
Qed.

Lemma steps_total k count s :
  (forall c, c ∈ active k -> lock s c = false) ->
  (forall c, c ∈ active k -> populated s c) ->
  exists tr s', steps k count s tr s' None.
Proof.
  revert s. induction count as [|count IH]; intros s Hfree Hpop.
  - exists [], s. by repeat split.
  - destruct (step_total k s Hfree Hpop) as (tr1 & s1 & Hstep).
    destruct (step_keeps_ready k s tr1 s1 Hpop Hstep) as [Hfree1 Hpop1].
    destruct (IH s1 Hfree1 Hpop1) as (tr2 & s2 & Hrest).
    exists (tr1 ++ tr2), s2. left. by exists s1, tr1, tr2.
Qed.

Lemma steps_free k count s tr s' :
  (forall c, c ∈ active k -> lock s c = false) ->
  (forall c, c ∈ active k -> populated s c) ->
  steps k count s tr s' None ->
  forall c, c ∈ active k -> lock s' c = false.
Proof.
  revert s tr. induction count as [|count IH]; intros s tr Hfree Hpop.
  - intros (_ & -> & _). exact Hfree.
  - intros [(s1 & tr1 & tr2 & Hstep & Hrest & ->)|(e & _ & [=])].
    destruct (step_keeps_ready k s tr1 s1 Hpop Hstep) as [Hfree1 Hpop1].
    by apply (IH s1 tr2).
Qed.

(** X8. In every class: when the locks of the class's components are
    free and their grids hold a rule in every cell, any number of calls
    of [step] return normally, whatever the schedule of the threads; and
    after every such run the locks of the class's components are free
    again. *)
Theorem steps_return k count s :
  (forall c, c ∈ active k -> lock s c = false) ->
  (forall c, c ∈ active k -> populated s c) ->
  (exists tr s', steps k count s tr s' None) /\
  (forall tr s', steps k count s tr s' None ->
     forall c, c ∈ active k -> lock s' c = false).
Proof.
  intros Hfree Hpop. split; [by apply steps_total|].
  intros tr s'. by apply steps_free.
Qed.

(** ** The constructor's two passes, for every class *)

Lemma init_material_targets k :
  exists targets,
    init_material k = fork_join targets /\
    Forall building targets /\ NoDup targets /\
    (forall m, m ∈ targets -> exists c', m = m_init_material c') /\
    (forall c, m_init_material c ∈ targets <-> c ∈ active k).
Proof.
  destruct k; eexists; (split; [reflexivity|]);
    (split; [solve_targets|]); (split; [solve_targets|]);
    (split; [|solve_targets]);
    intros m Hm;
    repeat (apply elem_of_cons in Hm as [->|Hm]; [by eexists|]);
    by apply elem_of_nil in Hm.
Qed.

Lemma init_source_targets k :
  exists targets,
    init_source k = fork_join targets /\
    Forall building targets /\ NoDup targets /\
    (forall m, m ∈ targets -> exists c', m = m_init_source c') /\
    (forall c, m_init_source c ∈ targets <-> c ∈ active k).
Proof.
  destruct k; eexists; (split; [reflexivity|]);
    (split; [solve_targets|]); (split; [solve_targets|]);
    (split; [|solve_targets]);
    intros m Hm;
    repeat (apply elem_of_cons in Hm as [->|Hm]; [by eexists|]);
    by apply elem_of_nil in Hm.
Qed.

Lemma grid_frame tr s c :
  Forall (fun a => ~ is_grid_write c a) tr ->
  material_grid (run tr s) c = material_grid s c.
Proof.
  intros H.
  by rewrite run_material_grid, grid_fold_filter,
    (filter_none_intro (is_grid_write c) tr H).
Qed.

Lemma emits_init_material_grid_write c' a c :
  emits (m_init_material c') a -> is_grid_write c a -> c = c'.
Proof. destruct a; try done; simpl; congruence. Qed.

Lemma emits_init_source_grid_write c' a c :
  emits (m_init_source c') a -> is_grid_write c a -> c = c'.
Proof. destruct a; try done; simpl; congruence. Qed.

Lemma emits_init_source_lock_op c' a c :
  emits (m_init_source c') a -> ~ is_lock_op c a.
Proof.
  intros Ha Hl. by pose proof (emits_lock_op _ _ _ Ha Hl).
Qed.

Lemma init_material_returns k s tr s' r : init_material k s tr s' r -> r = None.
Proof.
  destruct (init_material_targets k) as (targets & -> & _).
  by intros (_ & _ & _ & ->).
Qed.

Lemma init_material_frame k s tr s' r c :
  init_material k s tr s' r -> c ∉ active k ->
  material_grid s' c = material_grid s c /\ lock s' c = lock s c.
Proof.
  intros H Hc.
  destruct (init_material_targets k)
    as (targets & Heq & Hkind & Hnd & Hfam & Hiff).
  rewrite Heq in H.
  pose proof (fork_join_emits _ _ _ _ _ H) as Hall.
  pose proof H as (_ & _ & -> & _). split.
  - apply grid_frame. eapply Forall_impl; [exact Hall|].
    intros a (m & Hm & Ha) Hw. destruct (Hfam m Hm) as [c' ->].
    rewrite (emits_init_material_grid_write c' a c Ha Hw) in Hc.
    by apply Hc, Hiff.
  - apply lock_frame. eapply Forall_impl; [exact Hall|].
    intros a (m & Hm & Ha) Hl. destruct (Hfam m Hm) as [c' ->].
    pose proof (emits_lock_op _ _ _ Ha Hl) as [= ->].
    by apply Hc, Hiff.
Qed.

Lemma init_material_active k s tr s' r c :
  init_material k s tr s' r -> c ∈ active k -> covered s c ->
  (forall idx, idx ∈ ndindex (arr_shape (field s c)) ->
     material_grid s' c !! idx = classify s c idx) /\
  populated s' c /\ lock s' c = false.
Proof.
  intros H Hc Hcov.
  destruct (init_material_targets k)
    as (targets & Heq & Hkind & Hnd & Hfam & Hiff).
  rewrite Heq in H.
  destruct (classified_prefix_total s c (ndindex (arr_shape (field s c))))
    as [Hpre Hnofail]; [intros i Hi; by apply covered_classify|].
  assert (Hcells : forall idx, idx ∈ ndindex (arr_shape (field s c)) ->
            material_grid s' c !! idx = classify s c idx).
  { intros idx Hidx.
    rewrite (init_material_grid targets s tr s' r c idx Hkind Hnd Hfam
               (proj2 (Hiff c) Hc) H).
    rewrite Hpre. by rewrite decide_True. }
  split; [exact Hcells|]. split.
  - intros idx Hidx.
    assert (Hsh : arr_shape (field s' c) = arr_shape (field s c))
      by (destruct H as (_ & _ & -> & _); apply run_shape).
    rewrite Hsh in Hidx.
    rewrite (Hcells idx Hidx). by apply covered_classify.
  - rewrite (init_material_lock targets s tr s' r c Hkind Hnd Hfam
               (proj2 (Hiff c) Hc) H).
    by rewrite Hnofail.
Qed.

Lemma init_material_total k s :
  (forall c, c ∈ active k -> lock s c = false) ->
  exists tr s', init_material k s tr s' None.
Proof.
  intros Hfree.
  destruct k; eexists _, _; apply fork_join_total;
    first [solve_targets | solve_free Hfree].
Qed.

(** X9. From a state where the locks of the class's components are
    free, [init_material] of any class returns normally: it has a run,
    and every run of it ends without an exception. Per component, for
    every run: for a component that is not one of the class's, the grid
    and the lock are as they were; for a component of the class whose
    cells off the boundary are all covered by an object, every cell of the
    grid holds the rule the classification gives it and the lock is
    free. *)
Theorem init_material_any_class k s c :
  (forall c', c' ∈ active k -> lock s c' = false) ->
  (exists tr s', init_material k s tr s' None) /\
  forall tr s' r,
    init_material k s tr s' r ->
    r = None /\
    (c ∉ active k ->
       material_grid s' c = material_grid s c /\ lock s' c = lock s c) /\
    (c ∈ active k -> covered s c ->
       (forall idx, idx ∈ ndindex (arr_shape (field s c)) ->
          material_grid s' c !! idx = classify s c idx) /\
       populated s' c /\ lock s' c = false).
Proof.
  intros Hfree. split; [by apply init_material_total|].
  intros tr s' r H. split; [by eapply init_material_returns|]. split.
  - by eapply init_material_frame.
  - by eapply init_material_active.
Qed.

Lemma init_source_returns k s tr s' r : init_source k s tr s' r -> r = None.
Proof.
  destruct (init_source_targets k) as (targets & -> & _).
  by intros (_ & _ & _ & ->).
Qed.

Lemma init_source_lock k s tr s' r c :
  init_source k s tr s' r -> lock s' c = lock s c.
Proof.
  intros H.
  destruct (init_source_targets k)
    as (targets & Heq & Hkind & Hnd & Hfam & Hiff).
  rewrite Heq in H.
  pose proof (fork_join_emits _ _ _ _ _ H) as Hall.
  pose proof H as (_ & _ & -> & _).
  apply lock_frame. eapply Forall_impl; [exact Hall|].
  intros a (m & Hm & Ha) Hl. destruct (Hfam m Hm) as [c' ->].
  by apply (emits_init_source_lock_op c' a c).
Qed.

Lemma init_source_grid k s tr s' r c :
  init_source k s tr s' r ->
  material_grid s' c =
    if decide (c ∈ active k)
    then fold_left (fun g so => set_pointwise_source so c (space s) g)
           (src_list s) (material_grid s c)
    else material_grid s c.
Proof.
  intros H.
  destruct (init_source_targets k)
    as (targets & Heq & Hkind & Hnd & Hfam & Hiff).
  rewrite Heq in H.
  pose proof (fork_join_emits _ _ _ _ _ H) as Hall.
  destruct (decide (c ∈ active k)) as [Hc|Hc].
  - assert (Hf : filter (is_grid_write c) tr =
              filter (is_grid_write c) (thread (m_init_source c) s)).
    { apply (fork_join_family_project building m_init_source
               (is_grid_write c) targets s tr s' r c
               emits_building_inj Hkind Hnd Hfam (proj2 (Hiff c) Hc));
        [|exact H].
      intros a c' Ha Hp. symmetry.
      by apply (emits_init_source_grid_write c' a c). }
    pose proof H as (_ & _ & -> & _).
    rewrite run_material_grid, grid_fold_filter, Hf, init_source_thread.
    rewrite filter_cons_False by (simpl; tauto).
    rewrite filter_app, filter_all
      by (apply Forall_fmap; by apply Forall_true).
    rewrite filter_cons_False by (simpl; tauto).
    rewrite filter_nil, app_nil_r. apply grid_fold_sources.
  - pose proof H as (_ & _ & -> & _).
    apply grid_frame. eapply Forall_impl; [exact Hall|].
    intros a (m & Hm & Ha) Hw. destruct (Hfam m Hm) as [c' ->].
    rewrite (emits_init_source_grid_write c' a c Ha Hw) in Hc.
    by apply Hc, Hiff.
Qed.

(** X10. [init_source] of any class returns normally and touches no
    lock; in the grid of each component of the class it leaves the result
    of handing the grid to every source of the list, in the order of the
    list; the grids of the other components are as they were. *)
Theorem init_source_any_class k s tr s' r c :
  init_source k s tr s' r ->
  r = None /\
  lock s' c = lock s c /\
  material_grid s' c =
    if decide (c ∈ active k)
    then fold_left (fun g so => set_pointwise_source so c (space s) g)
           (src_list s) (material_grid s c)
    else material_grid s c.
Proof.
  intros H. split; [by eapply init_source_returns|]. split.
  - by eapply init_source_lock.
  - by eapply init_source_grid.
Qed.

(** ** From the constructor to the time loop *)

Lemma covered_run tr s c : covered (run tr s) c <-> covered s c.
Proof.
  unfold covered. rewrite run_shape.
  by destruct (run_config tr s) as (-> & _ & _ & _ & _ & -> & _).
Qed.

Lemma overlays_keep_cells (srcs : list Source) (c : Component) (sp : Space)
    (g : gmap Idx PwMaterial) (idx : Idx) :
  Forall preserves_cells srcs -> is_Some (g !! idx) ->
  is_Some (fold_left (fun g so => set_pointwise_source so c sp g) srcs g
             !! idx).
Proof.
  intros Hall. revert g. induction Hall as [|so srcs Hso _ IH]; intros g Hg;
    [done|].
  simpl. apply IH. by apply Hso.
Qed.

(** The two passes of the constructor, from any state. *)
Lemma build_inv k s tr s' r :
  (init_material k >>> init_source k) s tr s' r ->
  r = None /\
  exists s1 tr1 tr2,
    init_material k s tr1 s1 None /\ init_source k s1 tr2 s' None /\
    tr = tr1 ++ tr2 /\ s1 = run tr1 s /\ s' = run tr2 s1.
Proof.
  intros [(s1 & tr1 & tr2 & H1 & H2 & ->)|(e & H1 & _)].
  - pose proof (init_source_returns _ _ _ _ _ H2) as ->.
    split; [done|]. exists s1, tr1, tr2. repeat split; try done.
    + destruct (init_material_targets k) as (targets & Heq & _).
      rewrite Heq in H1. by destruct H1 as (_ & _ & -> & _).
    + destruct (init_source_targets k) as (targets & Heq & _).
      rewrite Heq in H2. by destruct H2 as (_ & _ & -> & _).
  - by apply init_material_returns in H1.
Qed.

Lemma build_ready k s tr s' r :
  (init_material k >>> init_source k) s tr s' r ->
  (forall c, c ∈ active k -> covered s c) ->
  Forall preserves_cells (src_list s) ->
  forall c, c ∈ active k -> populated s' c /\ lock s' c = false.
Proof.
  intros H Hcov Hsrc c Hc.
  apply build_inv in H as (-> & s1 & tr1 & tr2 & H1 & H2 & -> & Hs1 & Hs').
  destruct (init_material_active k s tr1 s1 None c H1 Hc (Hcov c Hc))
    as (_ & Hpop & Hfree).
  split.
  - intros idx Hidx.
    rewrite (init_source_grid k s1 tr2 s' None c H2), decide_True by done.
    apply overlays_keep_cells.
    + subst s1. by destruct (run_config tr1 s) as (_ & _ & _ & _ & _ & _ & ->).
    + apply Hpop. subst s'. by rewrite run_shape in Hidx.
  - by rewrite (init_source_lock k s1 tr2 s' None c H2).
Qed.

(** X11. An engine of any class built over a geometry that covers every
    cell off the boundary of the class's components, with sources that
    only rewrite cells: the constructor returns normally, every grid of
    the class holds a rule in every cell, every lock of the class is
    free, and any number of calls of [step] return normally from
    there. *)
Theorem constructed_engine_steps k h sp gl sl h' e tr r count :
  construct k h sp gl sl h' e tr r ->
  (forall c, c ∈ active k -> covered (self_state e) c) ->
  Forall preserves_cells (src_list (self_state e)) ->
  r = None /\
  (forall c, c ∈ active k ->
     populated (self_state e) c /\ lock (self_state e) c = false) /\
  exists tr' s', steps k count (self_state e) tr' s' None.
Proof.
  intros (tree & srcs & _ & _ & H) Hcov Hsrc.
  pose proof (build_inv _ _ _ _ _ H) as (Hr & _ & _ & _ & _ & _ & _ & _ & _).
  assert (Hrun : self_state e = run tr (new_state sp tree srcs)).
  { apply build_inv in H as (_ & s1 & tr1 & tr2 & _ & _ & -> & -> & ->).
    by rewrite run_app. }
  assert (Hready : forall c, c ∈ active k ->
            populated (self_state e) c /\ lock (self_state e) c = false).
  { apply (build_ready k _ _ _ _ H).
    - intros c Hc. specialize (Hcov c Hc). rewrite Hrun in Hcov.
      by apply covered_run in Hcov.
    - rewrite Hrun in Hsrc.
      by destruct (run_config tr (new_state sp tree srcs))
        as (_ & _ & _ & _ & _ & _ & <-). }
  split; [done|]. split; [done|].
  apply steps_total; intros c Hc; by apply Hready.
Qed.

Lemma build_traces k s tr s' r :
  (init_material k >>> init_source k) s tr s' r ->
  s' = run tr s /\
  Forall (fun a => exists m, building m /\ emits m a) tr.
Proof.
  intros H.
  apply build_inv in H as (_ & s1 & tr1 & tr2 & H1 & H2 & -> & -> & ->).
  split; [by rewrite run_app|].
  destruct (init_material_targets k) as (tM & HeqM & HkM & _).
  destruct (init_source_targets k) as (tS & HeqS & HkS & _).
  rewrite HeqM in H1. rewrite HeqS in H2.
  apply Forall_app. split.
  - eapply Forall_impl; [by eapply fork_join_emits|].
    intros a (m & Hm & Ha). exists m. split; [|done].
    rewrite Forall_forall in HkM. by apply HkM.
  - eapply Forall_impl; [by eapply fork_join_emits|].
    intros a (m & Hm & Ha). exists m. split; [|done].
    rewrite Forall_forall in HkS. by apply HkS.
Qed.

(** ** The viewers *)

Lemma normalize_index_spec len i :
  normalize_index len i =
    if bool_decide (- len <= i < len) then Some (i `mod` len) else None.
Proof.
  unfold normalize_index. repeat case_bool_decide; try lia; f_equal.
  - symmetry. apply Z.mod_small. lia.
  - symmetry. rewrite <- (Z.mod_add i 1 len) by lia.
    rewrite Z.mul_1_l. apply Z.mod_small. lia.
Qed.

Lemma plane_spec s c a cut :
  plane s c a cut =
    if bool_decide (- axis a (arr_shape (field s c)) <= cut
                    < axis a (arr_shape (field s c)))
    then inr (mkPlaneView c a (cut `mod` axis a (arr_shape (field s c))))
    else inl IndexError.
Proof.
  unfold plane. rewrite normalize_index_spec. by case_bool_decide.
Qed.

(** X13. The six public viewers [show_ex] ... [show_hz]. A call returns
    exactly when the axis is the component's own (x for Ex and Hx, y for
    Ey and Hy, z for Ez and Hz) and the cut is an index of that axis,
    counted from either end. It then hands the display the plane of the
    component's array at that index, the figure number it found, the
    component's title and the labels of the axis, and adds one to the
    figure counter; of the two corners of the extent, the upper is on the
    component's own grid and the lower too, except for Hz, where it is
    taken on the grid of Ez. Otherwise it raises and leaves the counter:
    [ValueError] for an axis that is no direction, an unbound local for
    another component's axis, an index error for a cut outside the
    axis. *)
Theorem show_result c s fig ax cut amp ms :
  let len := axis (normal c) (arr_shape (field s c)) in
  match show c s fig ax cut amp ms with
  | inr (call, fig') =>
      ax = own_axis c /\ - len <= cut < len /\
      fig' = fig + 1 /\ sp_fig_id call = fig /\
      sp_field call = mkPlaneView c (normal c) (cut `mod` len) /\
      sp_extent call =
        extent_of ax
          (index_to_space (space s) (if decide (c = Hz) then Ez else c)
             (0, 0, 0))
          (index_to_space (space s) c (pred_idx (arr_shape (field s c)))) /\
      (sp_xlabel call, sp_ylabel call) = labels_of ax /\
      sp_title call =
        match c with
        | Ex => "Ex field" | Ey => "Ey field" | Ez => "Ez field"
        | Hx => "Hx field" | Hy => "Hy field" | Hz => "Hz field"
        end%string /\
      sp_amp_range call = amp /\ sp_msecs call = ms
  | inl e =>
      if decide (ax = NotDirectional) then
        e = ValueError
              "axis must be an instance of gmes.constants.Directional."
      else if decide (ax = own_axis c) then
        e = IndexError /\ ~ (- len <= cut < len)
      else e = UnboundLocalError "low"
  end.
Proof.
  destruct c, ax; cbn -[axis Z.modulo];
    unfold show_ex, show_ey, show_ez, show_hx, show_hy, show_hz, _show,
      show_branch;
    rewrite ?plane_spec; try done;
    case_bool_decide; cbn -[axis Z.modulo]; done.
Qed.

(** X14. [snapshot_ex] never reaches the call of [snapshot]: whatever
    its arguments and the state, it raises. With a space whose
    [space_to_index] returns an index, the exception is an index error
    exactly when the axis is one of 'x', 'y', 'z' and the index of the
    cut falls outside the axis of the array ([-len <= i < len] fails),
    and in every other case it is the failure of the subscript
    [self.time_step[1]]. *)
Theorem snapshot_ex_raises generic_index global_dt str s (ax : string) cut :
  snapshot_ex generic_index global_dt str s ax cut =
    inl (if bool_decide
              ((ax = "x"%string /\
                ~ (- axis 0 (arr_shape (field s Ex))
                     <= ix0 (generic_index (cut, 0, 0)%Q)
                     < axis 0 (arr_shape (field s Ex)))) \/
               (ax = "y"%string /\
                ~ (- axis 1 (arr_shape (field s Ex))
                     <= ix1 (generic_index (0, cut, 0)%Q)
                     < axis 1 (arr_shape (field s Ex)))) \/
               (ax = "z"%string /\
                ~ (- axis 2 (arr_shape (field s Ex))
                     <= ix2 (generic_index (0, 0, cut)%Q)
                     < axis 2 (arr_shape (field s Ex)))))
         then IndexError else NotSubscriptable).
Proof.
  unfold snapshot_ex, time_step_getitem. rewrite !plane_spec.
  repeat case_bool_decide; subst; try done; exfalso;
    intuition (discriminate || lia).
Qed.

Lemma data_axis_none d :
  data_axis d = None <-> ix0 d <= 1 /\ ix1 d <= 1 /\ ix2 d <= 1.
Proof. unfold data_axis. repeat case_bool_decide; split; (done || lia). Qed.

Lemma line_axis s c a lo hi b1 b2 i1 i2 v :
  line s c a lo hi b1 b2 i1 i2 = inr v ->
  lv_array v = c /\ lv_axis v = a /\ lv_lo v = lo /\ lv_hi v = hi.
Proof.
  unfold line. destruct (normalize_index _ i1); [|done].
  destruct (normalize_index _ i2); [|done]. by intros [= <-].
Qed.

Lemma line_error s c a lo hi b1 b2 i1 i2 e :
  line s c a lo hi b1 b2 i1 i2 = inl e -> e = IndexError.
Proof.
  unfold line. destruct (normalize_index _ i1); [|by intros [= <-]].
  destruct (normalize_index _ i2); [done|by intros [= <-]].
Qed.

Lemma line_spec s c a lo hi b1 b2 i1 i2 :
  line s c a lo hi b1 b2 i1 i2 =
    if bool_decide
         ((- axis b1 (arr_shape (field s c)) <= i1
             < axis b1 (arr_shape (field s c))) /\
          (- axis b2 (arr_shape (field s c)) <= i2
             < axis b2 (arr_shape (field s c))))
    then inr (mkLineView c a lo hi
                (i1 `mod` axis b1 (arr_shape (field s c)),
                 i2 `mod` axis b2 (arr_shape (field s c))))
    else inl IndexError.
Proof.
  unfold line. rewrite !normalize_index_spec.
  repeat case_bool_decide; (done || tauto).
Qed.

(** X15. [show_line_ex]. With [d] the number of cells the segment spans
    along each axis: when no axis has more than one cell the call raises
    the unbound-local error, on [step] for a segment of exactly one cell
    along every axis and on [y_data] otherwise. When some axis has more
    than one cell, with [a] the first such axis: the call returns exactly
    when the start index is inside the array along the two other axes,
    and raises an index error otherwise. When it returns, the line is cut
    from the array of Ex along [a], the figure counter has grown by one,
    and the label and the spacing of the abscissa are those of the first
    axis whose span is not one cell, which is the axis of the line
    exactly when every axis before it spans one cell. *)
Theorem show_line_ex_result arange s fig start end_ y_range ms :
  let start_idx := space_to_index (space s) Ex (Some start) in
  let end_idx := succ_idx (space_to_index (space s) Ex (Some end_)) in
  let d := (ix0 end_idx - ix0 start_idx, ix1 end_idx - ix1 start_idx,
            ix2 end_idx - ix2 start_idx) in
  match data_axis d with
  | None =>
      show_line_ex arange s fig start end_ y_range ms =
        inl (if decide (d = (1, 1, 1)) then UnboundLocalError "step"
             else UnboundLocalError "y_data")
  | Some a =>
      let inside :=
        forall b, (b < 3)%nat -> b <> a ->
          - axis b (arr_shape (field s Ex)) <= axis b start_idx
            < axis b (arr_shape (field s Ex)) in
      match show_line_ex arange s fig start end_ y_range ms with
      | inr (call, fig') =>
          inside /\
          fig' = fig + 1 /\ sl_fig_id call = fig /\
          lv_array (sl_y_data call) = Ex /\
          lv_axis (sl_y_data call) = a /\
          sl_xlabel call = axis_name (label_axis d).1 /\
          ((label_axis d).1 <= a)%nat /\
          ((label_axis d).1 = a <->
           forall b, (b < a)%nat -> axis b d = 1)
      | inl e => e = IndexError /\ ~ inside
      end
  end.
Proof.
  intros start_idx end_idx d. unfold show_line_ex.
  fold start_idx. fold end_idx.
  set (d0 := ix0 end_idx - ix0 start_idx) in *.
  set (d1 := ix1 end_idx - ix1 start_idx) in *.
  set (d2 := ix2 end_idx - ix2 start_idx) in *.
  clearbody d0 d1 d2. subst d.
  rewrite !line_spec.
  unfold data_axis, label_axis. cbn [ix0 ix1 ix2 fst snd].
  repeat case_bool_decide;
    cbn [fst snd sl_fig_id sl_y_data sl_xlabel lv_array lv_axis];
    try lia.
  all: try (case_decide as Hd;
         [ first [ reflexivity | injection Hd as ? ? ?; lia ]
         | first [ reflexivity
                 | assert (d0 = 1 /\ d1 = 1 /\ d2 = 1) as (-> & -> & ->)
                     by lia; done ] ]).
  all: try (split; [reflexivity|];
            let Hin := fresh "Hin" in
            intros Hin;
            pose proof (Hin 0%nat) as Hin0; pose proof (Hin 1%nat) as Hin1;
            pose proof (Hin 2%nat) as Hin2;
            cbn [axis] in Hin0, Hin1, Hin2;
            match goal with
            | H : ~ _ |- _ => apply H; split;
                first [apply Hin0 | apply Hin1 | apply Hin2]; lia
            end).
  all: try (split;
         [ intros [|[|[|b]]] Hb Hne; try lia; try done; cbn [axis]; tauto
         | repeat split; try done; try lia;
           first
             [ intros Hb;
               pose proof (Hb 0%nat) as Hb0; pose proof (Hb 1%nat) as Hb1;
               cbn [axis ix0 ix1 ix2 fst snd] in Hb0, Hb1; lia
             | intros _ b Hb; destruct b as [|[|b]];
               cbn [axis ix0 ix1 ix2 fst snd]; lia ] ]).
Qed.

(** ** What the engine's lists hold *)

Lemma deepcopy_items_spec (h0 : Heap) items :
  forall (h : Heap) (memo : gmap loc loc) h' memo' ys,
    dom h0 ⊆ dom h ->
    (forall l, l ∈ dom h0 -> h !! l = h0 !! l) ->
    memo_ok h0 h memo ->
    Forall (fun x => x ∈ dom h0) items ->
    deepcopy_items h memo items = Some (h', memo', ys) ->
    dom h ⊆ dom h' /\
    (forall l, l ∈ dom h -> h' !! l = h !! l) /\
    memo_ok h0 h' memo' /\
    memo ⊆ memo' /\
    Forall2 (fun x y => memo' !! x = Some y) items ys.
Proof.
  induction items as [|x rest IH];
    intros h memo h' memo' ys Hdom Hagree Hmemo Hitems Hcp.
  - injection Hcp as <- <- <-.
    split; [done|]. split; [done|]. split; [done|]. split; [done|].
    constructor.
  - apply Forall_cons in Hitems as [Hx0 Hitems].
    simpl in Hcp. destruct (memo !! x) as [y|] eqn:Hx.
    + destruct (deepcopy_items h memo rest) as [[[h1 m1] ys1]|] eqn:Hrest;
        [|discriminate].
      simpl in Hcp. injection Hcp as <- <- <-.
      destruct (IH _ _ _ _ _ Hdom Hagree Hmemo Hitems Hrest)
        as (Hd & Hl & Hm & Hsub & Hall).
      split; [done|]. split; [done|]. split; [done|]. split; [done|].
      constructor; [|done]. by eapply lookup_weaken.
    + destruct (h !! x) as [o|] eqn:Hhx; [|discriminate].
      assert (Hrest : exists r,
        deepcopy_items (alloc h o).1 (<[x := (alloc h o).2]> memo) rest
          = Some r /\
        h' = r.1.1 /\ memo' = r.1.2 /\ ys = (alloc h o).2 :: r.2).
      { destruct o as [items'|g|so]; [discriminate| |];
          (destruct (deepcopy_items _ _ rest) as [r0|]; [|discriminate]);
          simpl in Hcp; injection Hcp as <- <- <-; by exists r0. }
      clear Hcp. destruct Hrest as ([[h1 m1] ys1] & Hrest & -> & -> & ->).
      cbn [fst snd].
      pose proof (alloc_fresh h o) as Hfresh.
      pose proof (alloc_dom h o) as Hadom.
      assert (Hdom1 : dom h0 ⊆ dom (alloc h o).1) by (by etransitivity).
      assert (Hagree1 : forall l, l ∈ dom h0 -> (alloc h o).1 !! l = h0 !! l).
      { intros l Hl. rewrite alloc_lookup by (by apply Hdom). by apply Hagree. }
      assert (Hnew : (alloc h o).1 !! (alloc h o).2 = Some o)
        by (unfold alloc; cbn [fst snd]; apply lookup_insert_eq).
      assert (Hmemo1 : memo_ok h0 (alloc h o).1 (<[x := (alloc h o).2]> memo)).
      { destruct Hmemo as [Hm1 Hm2]. split.
        - intros x' y' Hl.
          apply lookup_insert_Some in Hl as [[<- <-]|[Hne Hl]].
          + split; [by apply elem_of_dom; eexists|]. split.
            * intros Hin. apply Hfresh. by apply Hdom.
            * rewrite Hnew, <- Hhx. by apply Hagree.
          + destruct (Hm1 _ _ Hl) as (Hy1 & Hy2 & Hy3).
            split; [by apply Hadom|]. split; [done|].
            rewrite <- Hy3. by apply alloc_lookup.
        - intros x1 x2 y' Hl1 Hl2.
          apply lookup_insert_Some in Hl1 as [[<- <-]|[Hne1 Hl1]];
            apply lookup_insert_Some in Hl2 as [[<- Heq]|[Hne2 Hl2]];
            try done.
          + exfalso. apply Hfresh. by apply (Hm1 _ _ Hl2).
          + exfalso. apply Hfresh. rewrite Heq. by apply (Hm1 _ _ Hl1).
          + by eapply Hm2. }
      destruct (IH _ _ _ _ _ Hdom1 Hagree1 Hmemo1 Hitems Hrest)
        as (Hd & Hl & Hm & Hsub & Hall).
      split; [by etransitivity|]. split.
      { intros l Hl'. rewrite Hl by (by apply Hadom). by apply alloc_lookup. }
      split; [done|]. split.
      { etransitivity; [|exact Hsub]. by apply insert_subseteq. }
      constructor; [|done].
      eapply lookup_weaken; [|exact Hsub]. apply lookup_insert_eq.
Qed.

Lemma memo_images_NoDup (memo : gmap loc loc) items ys :
  (forall x1 x2 y, memo !! x1 = Some y -> memo !! x2 = Some y -> x1 = x2) ->
  Forall2 (fun x y => memo !! x = Some y) items ys ->
  NoDup items -> NoDup ys.
Proof.
  intros Hinj Hall. induction Hall as [|x y items ys Hxy Hall IH];
    intros Hnd; [constructor|].
  apply NoDup_cons in Hnd as [Hx Hnd]. apply NoDup_cons. split; [|by apply IH].
  intros Hy. apply Hx.
  apply list_elem_of_lookup in Hy as [i Hi].
  destruct (Forall2_lookup_r _ _ _ _ _ Hall Hi) as (x' & Hx' & Hm).
  rewrite (Hinj x x' y Hxy Hm). by eapply list_elem_of_lookup_2.
Qed.

(** [deepcopy] of a list without repetitions: the copy lists one new
    object per element, in order, each holding what the element held. *)
Lemma deepcopy_spec (h : Heap) lst items h1 lst1 :
  h !! lst = Some (ListObj items) ->
  Forall (fun x => x ∈ dom h) items -> NoDup items ->
  deepcopy h lst = Some (h1, lst1) ->
  exists ys,
    h1 !! lst1 = Some (ListObj ys) /\ NoDup ys /\ (lst1 ∉ ys) /\
    (forall l, l ∈ lst1 :: ys -> l ∉ dom h) /\
    (forall l, l ∈ dom h -> h1 !! l = h !! l) /\
    Forall2 (fun x y => h1 !! y = h !! x) items ys.
Proof.
  intros Hlst Hitems Hnd Hcp. unfold deepcopy in Hcp. rewrite Hlst in Hcp.
  destruct (deepcopy_items h ∅ items) as [[[h2 memo] ys]|] eqn:Hci;
    [|discriminate].
  cbn [mbind option_bind fst snd] in Hcp. apply (inj Some) in Hcp.
  assert (h1 = (alloc h2 (ListObj ys)).1) as -> by (by rewrite Hcp).
  assert (lst1 = (alloc h2 (ListObj ys)).2) as -> by (by rewrite Hcp).
  clear Hcp.
  assert (Hm0 : memo_ok h h ∅) by (split; intros; simplify_map_eq).
  destruct (deepcopy_items_spec h items h ∅ h2 memo ys) as
    (Hd & Hl & [Hm1 Hm2] & _ & Hall); try done.
  pose proof (alloc_fresh h2 (ListObj ys)) as Hfresh.
  assert (Hys : forall y, y ∈ ys -> y ∈ dom h2 /\ y ∉ dom h).
  { intros y Hy. apply list_elem_of_lookup in Hy as [i Hi].
    destruct (Forall2_lookup_r _ _ _ _ _ Hall Hi) as (x & _ & Hm).
    by destruct (Hm1 _ _ Hm) as (? & ? & _). }
  exists ys. split; [unfold alloc; cbn [fst snd]; apply lookup_insert_eq|].
  split; [by eapply memo_images_NoDup|]. split.
  { intros Hin. apply Hfresh. by apply Hys. }
  split.
  { intros l [->|Hy]%elem_of_cons.
    - intros Hin. apply Hfresh. by apply Hd.
    - by apply Hys. }
  split.
  { intros l Hl'. rewrite alloc_lookup by (by apply Hd). by apply Hl. }
  eapply Forall2_impl; [exact Hall|].
  intros x y Hm. destruct (Hm1 _ _ Hm) as (Hy1 & _ & Hy3).
  by rewrite alloc_lookup.
Qed.

Lemma fold_alter_once (F : Obj -> Obj) ys (h : Heap) y :
  NoDup ys -> y ∈ ys ->
  fold_left (fun h x => alter F x h) ys h !! y = F <$> h !! y.
Proof.
  revert h. induction ys as [|x ys IH]; intros h Hnd Hy;
    [by apply elem_of_nil in Hy|].
  apply NoDup_cons in Hnd as [Hx Hnd]. simpl.
  apply elem_of_cons in Hy as [->|Hy].
  - rewrite fold_alter_other by done. apply lookup_alter_eq.
  - rewrite IH by done. rewrite lookup_alter_ne; [done|].
    intros ->. done.
Qed.

(** Copying a list and initialising the copies, as the constructor does
    for each of its two lists. *)
Lemma copy_then_init (F : Obj -> Obj) (h : Heap) lst items h1 lst1 :
  (forall ys, F (ListObj ys) = ListObj ys) ->
  h !! lst = Some (ListObj items) ->
  Forall (fun x => x ∈ dom h) items -> NoDup items ->
  deepcopy h lst = Some (h1, lst1) ->
  exists ys,
    deref_items h1 lst1 = Some ys /\
    let h2 := fold_left (fun h x => alter F x h) ys h1 in
    h2 !! lst1 = Some (ListObj ys) /\
    (forall l, l ∈ dom h -> h2 !! l = h !! l) /\
    dom h ⊆ dom h2 /\
    (forall l, l ∈ lst1 :: ys -> l ∉ dom h) /\
    Forall2 (fun x y => h2 !! y = F <$> h !! x) items ys.
Proof.
  intros HF Hlst Hitems Hnd Hcp.
  destruct (deepcopy_spec h lst items h1 lst1 Hlst Hitems Hnd Hcp)
    as (ys & Hl1 & Hndy & Hnot & Hfresh & Hkeep & Hall).
  exists ys. split; [unfold deref_items; by rewrite Hl1|].
  cbn zeta. split; [by apply fold_alter_list|]. split.
  { intros l Hl. rewrite fold_alter_other; [by apply Hkeep|].
    intros Hin. apply (Hfresh l); [by right|done]. }
  split.
  { rewrite fold_alter_dom.
    by destruct (deepcopy_fresh _ _ _ _ Hcp) as (Hd & _). }
  split; [done|].
  apply Forall2_same_length_lookup. split; [by eapply Forall2_length|].
  intros i x y Hx Hy.
  rewrite fold_alter_once by (done || by eapply list_elem_of_lookup_2).
  by rewrite (Forall2_lookup_lr _ _ _ _ _ _ Hall Hx Hy).
Qed.

Lemma deref_geom_Some (h : Heap) l g :
  deref_geom h l = Some g <-> h !! l = Some (GeomInst g).
Proof.
  unfold deref_geom. destruct (h !! l) as [[]|]; split; congruence.
Qed.

Lemma deref_src_Some (h : Heap) l so :
  deref_src h l = Some so <-> h !! l = Some (SrcInst so).
Proof.
  unfold deref_src. destruct (h !! l) as [[]|]; split; congruence.
Qed.

(** Reading a list of copies after their initialisation. *)
Lemma read_initialised {A} (deref : Heap -> loc -> option A)
    (inst : A -> Obj) (F : Obj -> Obj) (f : A -> A) (h h2 : Heap)
    items ys vals :
  (forall h l a, deref h l = Some a <-> h !! l = Some (inst a)) ->
  (forall a, F (inst a) = inst (f a)) ->
  Forall2 (fun x y => h2 !! y = F <$> h !! x) items ys ->
  Forall2 (fun x a => deref h x = Some a) items vals ->
  Forall2 (fun y a => deref h2 y = Some a) ys (f <$> vals).
Proof.
  intros Hderef HF Hall. revert vals.
  induction Hall as [|x y items ys Hxy Hall IH]; intros vals Hvals.
  - apply Forall2_nil_inv_l in Hvals as ->. constructor.
  - apply Forall2_cons_inv_l in Hvals as (a & vals' & Ha & Hvals & ->).
    rewrite fmap_cons. constructor; [|by apply IH].
    apply Hderef. apply Hderef in Ha. by rewrite Hxy, Ha, <- HF.
Qed.

Lemma Forall2_deref_dom {A} (deref : Heap -> loc -> option A)
    (inst : A -> Obj) (h : Heap) items (vals : list A) :
  (forall h l a, deref h l = Some a <-> h !! l = Some (inst a)) ->
  Forall2 (fun x a => deref h x = Some a) items vals ->
  Forall (fun x => x ∈ dom h) items.
Proof.
  intros Hderef Hall. induction Hall as [|x a items vals Ha Hall IH];
    constructor; [|done].
  apply Hderef in Ha. apply elem_of_dom. by eexists.
Qed.

(** Lines 38 to 52 of [__init__], for lists without repetitions: the
    engine's geometry list holds the initialised copies of the caller's
    objects, in order; the tree is built over them; the engine's source
    list holds the copies of the caller's sources, initialised with that
    tree. *)
Lemma init_lists_spec h sp gl sl gitems sitems geoms srcs h' gl' sl' tree :
  h !! gl = Some (ListObj gitems) -> h !! sl = Some (ListObj sitems) ->
  mapM (deref_geom h) gitems = Some geoms ->
  mapM (deref_src h) sitems = Some srcs ->
  NoDup gitems -> NoDup sitems ->
  init_lists h sp gl sl = Some (h', gl', sl', tree) ->
  tree = GeomBoxTree (geom_init sp <$> geoms) /\
  deref_geom_list h' gl' = Some (geom_init sp <$> geoms) /\
  deref_src_list h' sl' = Some (src_init tree sp <$> srcs).
Proof.
  intros Hgl Hsl Hgeoms Hsrcs Hndg Hnds H.
  apply mapM_Some in Hgeoms. apply mapM_Some in Hsrcs.
  pose proof (Forall2_deref_dom deref_geom GeomInst h gitems geoms
                deref_geom_Some Hgeoms) as Hgdom.
  pose proof (Forall2_deref_dom deref_src SrcInst h sitems srcs
                deref_src_Some Hsrcs) as Hsdom.
  unfold init_lists in H.
  destruct (deepcopy h gl) as [[h1 gl1]|] eqn:Hc1; [|discriminate].
  cbn [mbind option_bind fst snd] in H.
  set (Fg := fun o => match o with
                      | GeomInst g => GeomInst (geom_init sp g)
                      | _ => o
                      end).
  destruct (copy_then_init Fg h gl gitems h1 gl1)
    as (ys & Hit1 & Hl2 & Hkeep2 & Hdom2 & Hfresh2 & Hall2); try done.
  rewrite Hit1 in H. cbn [mbind option_bind fst snd] in H.
  change (fold_left (init_geom_at sp) ys h1)
    with (fold_left (fun h x => alter Fg x h) ys h1) in H.
  cbn zeta in Hl2, Hkeep2, Hdom2, Hall2.
  set (h2 := fold_left (fun h x => alter Fg x h) ys h1) in *.
  assert (Hg2 : deref_geom_list h2 gl1 = Some (geom_init sp <$> geoms)).
  { unfold deref_geom_list, deref_items. rewrite Hl2.
    cbn [mbind option_bind]. apply mapM_Some.
    by apply (read_initialised deref_geom GeomInst Fg (geom_init sp) h h2
                gitems ys geoms deref_geom_Some). }
  rewrite Hg2 in H. cbn [mbind option_bind fst snd] in H.
  destruct (deepcopy h2 sl) as [[h3 sl1]|] eqn:Hc2; [|discriminate].
  cbn [mbind option_bind fst snd] in H.
  assert (Hsl2 : h2 !! sl = Some (ListObj sitems)).
  { rewrite Hkeep2; [done|]. apply elem_of_dom. by eexists. }
  assert (Hsdom2 : Forall (fun x => x ∈ dom h2) sitems).
  { eapply Forall_impl; [exact Hsdom|]. intros x Hx. by apply Hdom2. }
  set (tree0 := GeomBoxTree (geom_init sp <$> geoms)) in *.
  set (Fs := fun o => match o with
                      | SrcInst so => SrcInst (src_init tree0 sp so)
                      | _ => o
                      end).
  destruct (copy_then_init Fs h2 sl sitems h3 sl1)
    as (ys2 & Hit3 & Hl4 & Hkeep4 & Hdom4 & Hfresh4 & Hall4); try done.
  rewrite Hit3 in H. cbn [mbind option_bind fst snd] in H.
  change (fold_left (init_src_at tree0 sp) ys2 h3)
    with (fold_left (fun h x => alter Fs x h) ys2 h3) in H.
  cbn zeta in Hl4, Hkeep4, Hdom4, Hall4.
  set (h4 := fold_left (fun h x => alter Fs x h) ys2 h3) in *.
  injection H as <- <- <- <-.
  split; [done|]. split.
  - destruct (engine_list_ext h2 h4 gl1) as [-> _]; [|done].
    intros l Hl. apply Hkeep4.
    unfold owned, deref_items in Hl. rewrite Hl2 in Hl. cbn [default] in Hl.
    apply elem_of_cons in Hl as [->|Hl].
    + apply elem_of_dom. by eexists.
    + apply list_elem_of_lookup in Hl as [i Hi].
      destruct (Forall2_lookup_r _ _ _ _ _ Hall2 Hi) as (x & Hx & Hlook).
      apply elem_of_dom. rewrite Hlook.
      rewrite Forall_forall in Hgdom.
      destruct (proj1 (elem_of_dom h x)
                  (Hgdom x (list_elem_of_lookup_2 _ _ _ Hx))) as [o ->].
      by eexists.
  - unfold deref_src_list, deref_items. rewrite Hl4.
    cbn [mbind option_bind]. apply mapM_Some.
    apply (read_initialised deref_src SrcInst Fs (src_init tree0 sp) h h4
             sitems ys2 srcs deref_src_Some); [done| |done].
    apply Forall2_same_length_lookup. split; [by eapply Forall2_length|].
    intros i x y Hx Hy.
    rewrite (Forall2_lookup_lr _ _ _ _ _ _ Hall4 Hx Hy).
    rewrite Hkeep2; [done|].
    rewrite Forall_forall in Hsdom. apply Hsdom.
    by eapply list_elem_of_lookup_2.
Qed.

(** X16. What the engine's lists hold after construction, for lists of
    the caller without repeated elements: the engine's geometry list is
    the caller's, element by element, each a copy on which [init(space)]
    was called; the engine's tree is built over these; and the engine's
    source list is the caller's, element by element, each a copy on which
    [init(geom_tree, space)] was called with that tree. *)
Theorem construct_lists k h sp gl sl h' e tr r gitems sitems geoms srcs :
  construct k h sp gl sl h' e tr r ->
  h !! gl = Some (ListObj gitems) -> h !! sl = Some (ListObj sitems) ->
  mapM (deref_geom h) gitems = Some geoms ->
  mapM (deref_src h) sitems = Some srcs ->
  NoDup gitems -> NoDup sitems ->
  deref_geom_list h' (self_geom_list e) = Some (geom_init sp <$> geoms) /\
  geom_tree (self_state e) = GeomBoxTree (geom_init sp <$> geoms) /\
  src_list (self_state e) =
    src_init (GeomBoxTree (geom_init sp <$> geoms)) sp <$> srcs.
Proof.
  intros (tree & srcs0 & Hinit & Hsrcs0 & H) Hgl Hsl Hgeoms Hsrcs Hndg Hnds.
  destruct (init_lists_spec _ _ _ _ _ _ _ _ _ _ _ _
              Hgl Hsl Hgeoms Hsrcs Hndg Hnds Hinit) as (Htree & Hg & Hs).
  pose proof (build_traces _ _ _ _ _ H) as [Hrun _].
  destruct (run_config tr (new_state sp tree srcs0))
    as (_ & _ & _ & _ & _ & Ht & Hsl').
  rewrite <- Hrun in Ht, Hsl'. cbn [new_state geom_tree src_list] in Ht, Hsl'.
  split; [done|]. split; [by rewrite Ht|].
  rewrite Hsl'. rewrite Hs in Hsrcs0. injection Hsrcs0 as <-.
  by rewrite Htree.
Qed.

(** ** The result of a call does not depend on the schedule *)

Lemma exec_field a s c :
  field (exec a s) c = field_exec (field s) c (field s c) a.
Proof.
  destruct a; try done. simpl. unfold upd.
  case_decide; case_decide; subst; try done.
Qed.

Lemma field_exec_env env1 env2 c arr a e :
  phase_pure e a ->
  (forall p, is_electric p = negb e -> env1 p = env2 p) ->
  field_exec env1 c arr a = field_exec env2 c arr a.
Proof.
  intros Ha Henv. destruct a; try done. simpl in *.
  destruct Ha as (_ & Hp1 & Hp2). by rewrite (Henv _ Hp1), (Henv _ Hp2).
Qed.

Lemma field_fold_env env1 env2 c tr arr e :
  Forall (phase_pure e) tr ->
  (forall p, is_electric p = negb e -> env1 p = env2 p) ->
  fold_left (field_exec env1 c) tr arr = fold_left (field_exec env2 c) tr arr.
Proof.
  intros Hall Henv. revert arr.
  induction Hall as [|a tr Ha _ IH]; intros arr; [done|].
  simpl. by rewrite IH, (field_exec_env env1 env2 c arr a e).
Qed.

Lemma field_fold_ext env1 env2 c tr arr :
  (forall p, env1 p = env2 p) ->
  fold_left (field_exec env1 c) tr arr = fold_left (field_exec env2 c) tr arr.
Proof.
  intros Henv. revert arr. induction tr as [|a tr IH]; intros arr; [done|].
  simpl. rewrite IH. f_equal. destruct a; try done. simpl.
  by rewrite !Henv.
Qed.

Lemma field_fold_filter env c tr arr :
  fold_left (field_exec env c) tr arr =
    fold_left (field_exec env c) (filter (is_call c) tr) arr.
Proof.
  revert arr. induction tr as [|a tr IH]; intros arr; [done|].
  destruct (decide (is_call c a)) as [Ha|Ha].
  - rewrite filter_cons_True by done. simpl. apply IH.
  - rewrite filter_cons_False by done. simpl. rewrite <- IH. f_equal.
    destruct a; try done. simpl in *. by rewrite decide_False.
Qed.

(** In a phase, an array of the kind the phase updates is the fold of
    the invocations on it over the arrays of the other kind as they were
    when the phase began. *)
Lemma run_field_fold e tr s c :
  Forall (phase_pure e) tr ->
  field (run tr s) c = fold_left (field_exec (field s) c) tr (field s c).
Proof.
  intros Hall. revert s. induction Hall as [|a tr Ha Hall IH]; intros s;
    [done|].
  rewrite run_cons, IH. cbn [fold_left]. rewrite <- exec_field.
  apply (field_fold_env _ _ c tr _ e Hall).
  intros p Hp. rewrite exec_field. destruct a; try done. simpl in *.
  destruct Ha as (Hc0 & _). rewrite decide_False; [done|].
  intros ->. rewrite Hc0 in Hp. by destruct e.
Qed.

Lemma expected_calls_pure s c :
  Forall (phase_pure (is_electric c)) (expected_calls s c).
Proof.
  unfold expected_calls. apply Forall_fmap, Forall_forall.
  intros mo _. by destruct c.
Qed.

(** The trace of a phase whose invocations are as the table says is
    pure. *)
Lemma wired_pure (comps : list Component) (e : bool) tr s :
  (forall c, c ∈ comps -> is_electric c = e) ->
  (forall c, filter (is_call c) tr =
             if decide (c ∈ comps) then expected_calls s c else []) ->
  Forall (phase_pure e) tr.
Proof.
  intros Hkind Hf. apply Forall_forall. intros a Ha.
  destruct a as [| | | | | | |c mo p1 p2 dt0 d1 d2| | | |]; try done.
  assert (Hin : CallUpdate c mo p1 p2 dt0 d1 d2 ∈ filter (is_call c) tr).
  { apply list_elem_of_filter. by split. }
  rewrite Hf in Hin. destruct (decide (c ∈ comps)) as [Hc|Hc];
    [|by apply elem_of_nil in Hin].
  pose proof (expected_calls_pure s c) as Hpure.
  rewrite Forall_forall in Hpure. rewrite <- (Hkind c Hc).
  by apply Hpure.
Qed.

Lemma phase_fields (comps : list Component) (e : bool) tr s c :
  (forall c, c ∈ comps -> is_electric c = e) ->
  (forall c, filter (is_call c) tr =
             if decide (c ∈ comps) then expected_calls s c else []) ->
  field (run tr s) c =
    fold_left (field_exec (field s) c)
      (if decide (c ∈ comps) then expected_calls s c else []) (field s c).
Proof.
  intros Hkind Hf.
  rewrite (run_field_fold e) by (by eapply wired_pure).
  by rewrite field_fold_filter, Hf.
Qed.

Lemma e_phase_fields k s tr s' c :
  (forall c, c ∈ e_components k -> populated s c) ->
  e_phase k s tr s' None ->
  field s' c =
    fold_left (field_exec (field s) c)
      (if decide (c ∈ e_components k) then expected_calls s c else [])
      (field s c).
Proof.
  intros Hpop H.
  pose proof (e_phase_wired k s tr s' H Hpop) as Hf.
  apply e_phase_calls in H as [-> _].
  apply (phase_fields _ true); [apply e_components_electric|done].
Qed.

Lemma h_phase_fields k s tr s' c :
  (forall c, c ∈ h_components k -> populated s c) ->
  h_phase k s tr s' None ->
  field s' c =
    fold_left (field_exec (field s) c)
      (if decide (c ∈ h_components k) then expected_calls s c else [])
      (field s c).
Proof.
  intros Hpop H.
  pose proof (h_phase_wired k s tr s' H Hpop) as Hf.
  apply h_phase_calls in H as [-> _].
  apply (phase_fields _ false); [apply h_components_magnetic|done].
Qed.

Lemma step_lock_frame k s tr s' r c :
  step k s tr s' r -> c ∉ active k -> lock s' c = lock s c.
Proof.
  intros H Hc. apply step_locks in H as [-> Hall]. apply lock_frame.
  eapply Forall_impl; [exact Hall|]. intros a Ha Hl. by apply Hc, Ha.
Qed.

Lemma h_phase_time_any k s tr s' :
  h_phase k s tr s' None ->
  time_step s' =
    if decide (k = TEzFDTD)
    then mkTime (n (time_step s) + (1 # 2))%Q (t (time_step s) + st_dt s)%Q
    else mkTime (n (time_step s) + increment k)%Q
           ((n (time_step s) + increment k) * st_dt s)%Q.
Proof.
  intros H. destruct (decide (k = TEzFDTD)) as [->|Hk].
  - by apply TEz_h_phase_time in H.
  - by apply h_phase_time in H.
Qed.

(** The record one call of the three-dimensional [step] appends. *)
Lemma FDTD_step_log s tr s' r :
  step FDTD s tr s' r ->
  hdf5_log s' =
    hdf5_log s ++
      [mkHdf5 (field s' Ex) EmptyString (0, 0, 0)
         (succ_idx (arr_shape (field s Ex)))].
Proof.
  intros H. pose proof (step_traces _ _ _ _ _ H) as [-> _].
  apply FDTD_step_blocks in H
    as (_ & blkE & blkH & -> & HE & HEw & HH & HHw).
  pose proof (phase_block_exports _ _ _ HEw) as HexpE.
  pose proof (phase_block_exports _ _ _ HHw) as HexpH.
  simpl in HexpE, HexpH.
  assert (HnoEx : Forall (fun a => ~ is_call Ex a) blkH).
  { specialize (HH Ex). simpl in HH. apply filter_none_inv in HH.
    eapply Forall_impl; [exact HH|].
    intros a Ha Hc. apply Ha. destruct a; try done. simpl in *. by subst. }
  rewrite !run_app.
  rewrite (run_export_single blkH _ Ex EmptyString (0, 0, 0) _ HnoEx HexpH).
  rewrite run_hdf5_log by (by apply (filter_none_inv is_export)).
  by rewrite (run_field blkH) by done.
Qed.

Lemma reduced_step_log k s tr s' r :
  reduced k -> step k s tr s' r -> hdf5_log s' = hdf5_log s.
Proof.
  intros Hk H. apply (reduced_step_no_export k Hk) in H as [-> Hall].
  by apply run_hdf5_log.
Qed.

(** X17. The threads of a call of [step] do not race. A rule reads the
    array of its component and the two partner arrays and writes the
    array of its component; so in every class, from a state whose grids
    of the class hold a rule in every cell, any two calls that return,
    whatever the schedules of their threads, end with the same arrays,
    the same time state, the same locks, the same grids and the same
    record of exports. *)
Theorem step_schedule_independent k s tr1 s1 tr2 s2 :
  (forall c, c ∈ active k -> populated s c) ->
  step k s tr1 s1 None -> step k s tr2 s2 None ->
  (forall c, field s1 c = field s2 c) /\
  time_step s1 = time_step s2 /\
  (forall c, lock s1 c = lock s2 c) /\
  (forall c, material_grid s1 c = material_grid s2 c) /\
  hdf5_log s1 = hdf5_log s2.
Proof.
  intros Hpop H1 H2.
  assert (HpopE : forall c, c ∈ e_components k -> populated s c)
    by (intros c Hc; apply Hpop, elem_of_app; by left).
  assert (Hfields : forall c, field s1 c = field s2 c).
  { pose proof H1 as Hs1. pose proof H2 as Hs2.
    apply step_phases in Hs1 as (sa & ta1 & ta2 & Hea & Hha & _).
    apply step_phases in Hs2 as (sb & tb1 & tb2 & Heb & Hhb & _).
    pose proof (e_phase_static _ _ _ _ _ Hea) as Hsta.
    pose proof (e_phase_static _ _ _ _ _ Heb) as Hstb.
    assert (Hmid : forall c, field sa c = field sb c).
    { intros c. by rewrite (e_phase_fields k s ta1 sa c HpopE Hea),
        (e_phase_fields k s tb1 sb c HpopE Heb). }
    intros c.
    rewrite (h_phase_fields k sa ta2 s1 c), (h_phase_fields k sb tb2 s2 c);
      try done.
    - rewrite <- (expected_calls_static s sa c Hsta),
        <- (expected_calls_static s sb c Hstb), (Hmid c).
      by apply field_fold_ext.
    - intros c' Hc'. apply (populated_static s sb); [done|].
      apply Hpop, elem_of_app. by right.
    - intros c' Hc'. apply (populated_static s sa); [done|].
      apply Hpop, elem_of_app. by right. }
  split; [done|]. split.
  { pose proof H1 as Hs1. pose proof H2 as Hs2.
    apply step_phases in Hs1 as (sa & ta1 & ta2 & Hea & Hha & _).
    apply step_phases in Hs2 as (sb & tb1 & tb2 & Heb & Hhb & _).
    rewrite (h_phase_time_any _ _ _ _ Hha), (h_phase_time_any _ _ _ _ Hhb).
    rewrite (e_phase_time _ _ _ _ Hea), (e_phase_time _ _ _ _ Heb).
    destruct (e_phase_static _ _ _ _ _ Hea) as (_ & _ & _ & _ & <- & _).
    by destruct (e_phase_static _ _ _ _ _ Heb) as (_ & _ & _ & _ & <- & _). }
  split.
  { intros c. destruct (decide (c ∈ active k)) as [Hc|Hc].
    - rewrite (step_frees k s tr1 s1 c H1 Hc (Hpop c Hc)).
      by rewrite (step_frees k s tr2 s2 c H2 Hc (Hpop c Hc)).
    - rewrite (step_lock_frame k s tr1 s1 None c H1 Hc).
      by rewrite (step_lock_frame k s tr2 s2 None c H2 Hc). }
  split.
  { intros c.
    destruct (step_static _ _ _ _ _ H1) as (_ & _ & _ & _ & _ & _ & _ & _ & <-).
    by destruct (step_static _ _ _ _ _ H2)
      as (_ & _ & _ & _ & _ & _ & _ & _ & <-). }
  destruct (decide (k = FDTD)) as [->|Hk].
  - rewrite (FDTD_step_log _ _ _ _ H1), (FDTD_step_log _ _ _ _ H2).
    by rewrite (Hfields Ex).
  - rewrite (reduced_step_log k _ _ _ _ Hk H1).
    by rewrite (reduced_step_log k _ _ _ _ Hk H2).
Qed.

(** X18. The exports of the time loop of the three-dimensional engine:
    [count] calls of [step] append exactly [count] records to the
    writer's log, every one under the same empty name, over the whole Ex
    array, from index (0, 0, 0) to the shape plus one; the last record
    holds the Ex array as the run leaves it. *)
Theorem FDTD_steps_exports count s tr s' r :
  steps FDTD count s tr s' r ->
  exists recs,
    hdf5_log s' = hdf5_log s ++ recs /\
    length recs = count /\
    Forall (fun rec =>
              h5_name rec = EmptyString /\ h5_low rec = (0, 0, 0) /\
              h5_high rec = succ_idx (arr_shape (field s Ex)) /\
              arr_shape (h5_data rec) = arr_shape (field s Ex)) recs /\
    (forall rec, last recs = Some rec -> h5_data rec = field s' Ex).
Proof.
  revert s tr. induction count as [|count IH]; intros s tr H.
  - destruct H as (_ & -> & _). exists []. rewrite app_nil_r.
    repeat split; done.
  - destruct H as [(s1 & tr1 & tr2 & Hstep & Hrest & ->)|(e & Hstep & _)];
      [|by apply FDTD_step_never_raises in Hstep].
    destruct (IH _ _ Hrest) as (recs & Hlog & Hlen & Hall & Hlast).
    pose proof (step_static _ _ _ _ _ Hstep)
      as (_ & _ & _ & _ & _ & _ & _ & Hsh & _).
    exists (mkHdf5 (field s1 Ex) EmptyString (0, 0, 0)
              (succ_idx (arr_shape (field s Ex))) :: recs).
    split; [|split; [|split]].
    + rewrite Hlog, (FDTD_step_log _ _ _ _ Hstep). by rewrite <- app_assoc.
    + simpl. by rewrite Hlen.
    + constructor;
        [cbn [h5_name h5_low h5_high h5_data]; by rewrite (Hsh Ex)|].
      eapply Forall_impl; [exact Hall|]. intros rec. by rewrite (Hsh Ex).
    + intros rec Hrec. destruct recs as [|rec0 recs].
      * simpl in Hrec. injection Hrec as <-. simpl.
        destruct count; [|done]. by destruct Hrest as (_ & -> & _).
      * apply Hlast. by rewrite last_cons_cons in Hrec.
Qed.

(** ** The time state over the time loop *)

Lemma step_time_state k s tr s' :
  step k s tr s' None ->
  n (time_step s') = (n (time_step s) + increment k + increment k)%Q /\
  t (time_step s') =
    (if decide (k = TEzFDTD)
     then (n (time_step s) + increment k) * st_dt s + st_dt s
     else (n (time_step s) + increment k + increment k) * st_dt s)%Q /\
  st_dt s' = st_dt s.
Proof.
  intros H.
  pose proof (step_static _ _ _ _ _ H) as (_ & _ & _ & _ & Hdt & _).
  apply step_phases in H as (s1 & tr1 & tr2 & He & Hh & _).
  destruct (e_phase_static _ _ _ _ _ He) as (_ & _ & _ & _ & Hdt1 & _).
  rewrite (h_phase_time_any _ _ _ _ Hh), (e_phase_time _ _ _ _ He).
  rewrite <- Hdt1.
  destruct (decide (k = TEzFDTD)) as [->|Hk]; by repeat split.
Qed.

Lemma steps_counter_sum k count s tr s' :
  steps k count s tr s' None ->
  (n (time_step s') ==
     n (time_step s) + inject_Z (Z.of_nat count) * (2 * increment k))%Q.
Proof.
  revert s tr. induction count as [|count IH]; intros s tr H.
  - destruct H as (_ & -> & _). simpl. ring.
  - destruct H as [(s1 & tr1 & tr2 & Hstep & Hrest & ->)|(e & _ & [=])].
    destruct (step_time_state _ _ _ _ Hstep) as (Hn1 & _ & _).
    rewrite (IH _ _ Hrest), Hn1, Nat2Z.inj_succ. unfold Z.succ.
    rewrite inject_Z_plus. ring.
Qed.

Lemma exec_counter d a s :
  adds d a ->
  n (time_step (exec a s)) =
    if decide (is_inc a) then (n (time_step s) + d)%Q else n (time_step s).
Proof. destruct a; try done. by intros ->. Qed.

Lemma run_counter d tr :
  Forall (adds d) tr ->
  forall s,
    (n (time_step (run tr s)) ==
       n (time_step s) + inject_Z (Z.of_nat (additions tr)) * d)%Q.
Proof.
  induction 1 as [|a tr Ha _ IH]; intros s.
  - unfold additions. simpl. ring.
  - rewrite run_cons, IH, (exec_counter d a s Ha). unfold additions.
    case_decide as Hinc.
    + rewrite filter_cons_True by done. cbn [length].
      rewrite Nat2Z.inj_succ. unfold Z.succ. rewrite inject_Z_plus. ring.
    + by rewrite filter_cons_False by done.
Qed.

Lemma step_adds k : traces_in (adds (increment k)) (step k).
Proof.
  destruct k; unfold step, e_phase, h_phase, advance;
    repeat first
      [ apply traces_in_seq
      | by apply traces_in_act
      | apply traces_in_call; intros a Ha; by destruct a
      | apply traces_in_fork_join; intros m a _ Ha; by destruct a ].
Qed.

Lemma half_integer_binary64 q z :
  (q == z # 2)%Q -> Z.abs z <= 2 ^ 53 -> binary64 q.
Proof.
  change (2 ^ 53) with 9007199254740992. intros Hq Hz.
  destruct (decide (Z.abs z < 9007199254740992)) as [Hlt|Hge].
  - exists z, (-1). split; [done|]. split; [lia|].
    rewrite Hq. unfold Qeq. simpl. lia.
  - assert (z = 9007199254740992 \/ z = -9007199254740992) as Hcases by lia.
    exists (z / 2), 0. rewrite Hq.
    destruct Hcases as [-> | ->]; by vm_compute.
Qed.

(** X19. The counter over the time loop, in every class. From a counter
    that is a half-integer [z/2], as is every counter the code reaches
    from the constructor's zero, with [|z| + 20 * count] within [2^53]:
    after [count] calls of [step] that return, the counter has grown by
    [count] times twice the increment of a phase, that is by [count] in
    the classes that add one half and by ten times [count] in the
    one-dimensional classes; and the counter at every point of the run
    is a binary64 number, so that each of the float additions of the
    code returns the exact sum. *)
Theorem steps_counter k count s tr s' z :
  steps k count s tr s' None ->
  (n (time_step s) == z # 2)%Q ->
  Z.abs z + 20 * Z.of_nat count <= 2 ^ 53 ->
  (n (time_step s') ==
     n (time_step s) + inject_Z (Z.of_nat count) * (2 * increment k))%Q /\
  s' = run tr s /\
  forall tr1 tr2,
    tr = tr1 ++ tr2 -> binary64 (n (time_step (run tr1 s))).
Proof.
  intros H Hz Hb.
  pose proof (steps_counter_sum _ _ _ _ _ H) as Hsum.
  destruct (steps_traces_in (adds (increment k)) k count (step_adds k)
              _ _ _ _ H) as [Hrun Hall].
  split; [done|]. split; [done|]. intros tr1 tr2 ->.
  pose proof (run_counter _ _ Hall s) as Htot.
  rewrite <- Hrun, Hsum in Htot.
  apply Forall_app in Hall as [Hall1 _].
  pose proof (run_counter _ _ Hall1 s) as H1.
  assert (Hadd : additions (tr1 ++ tr2) = (additions tr1 + additions tr2)%nat).
  { unfold additions. by rewrite filter_app, length_app. }
  rewrite Hadd, Nat2Z.inj_add, inject_Z_plus in Htot.
  assert (Hle : (inject_Z (Z.of_nat (additions tr1))
                   <= inject_Z (2 * Z.of_nat count))%Q).
  { assert (0 <= inject_Z (Z.of_nat (additions tr2)))%Q as Hpos.
    { change 0%Q with (inject_Z 0). rewrite <- Zle_Qle. lia. }
    rewrite inject_Z_mult. change (inject_Z 2) with 2%Q.
    destruct k; cbn [increment] in Htot; lra. }
  rewrite <- Zle_Qle in Hle.
  change (2 ^ 53) with 9007199254740992 in Hb.
  apply (half_integer_binary64 _
           (z + Z.of_nat (additions tr1) *
                  (if Qeq_bool (increment k) (1 # 2) then 1 else 10))).
  - rewrite H1, Hz. destruct k; unfold Qeq; simpl; lia.
  - change (2 ^ 53) with 9007199254740992.
    destruct (Qeq_bool (increment k) (1 # 2)); lia.
Qed.

(** ** A schedule that is not sequential *)

Lemma interleave_first {A} (l : list A) : interleave [l; []] l.
Proof.
  induction l as [|a l IH]; [constructor; by repeat constructor|].
  by apply (interleave_step _ 0%nat a l).
Qed.

Lemma interleave_second {A} (l : list A) : interleave [[]; l] l.
Proof.
  induction l as [|a l IH]; [constructor; by repeat constructor|].
  by apply (interleave_step _ 1%nat a l).
Qed.

Lemma interleave_alternate {A} (l1 l2 : list A) :
  interleave [l1; l2] (alternate l1 l2).
Proof.
  revert l2. induction l1 as [|a l1 IH]; intros [|b l2].
  - constructor. by repeat constructor.
  - apply interleave_second.
  - simpl. rewrite app_nil_r. apply interleave_first.
  - simpl. apply (interleave_step _ 0%nat a l1); [done|].
    apply (interleave_step _ 1%nat b l2); [done|]. apply IH.
Qed.

Lemma TEz_step_scheduled trE s :
  interleave [thread (m_update Ex) s; thread (m_update Ey) s] trE ->
  schedulable (TEz_step_over trE s) s ->
  (method_body (m_update Hz) s).2 = inr tt ->
  step TEzFDTD s (TEz_step_over trE s) (run (TEz_step_over trE s) s) None.
Proof.
  unfold TEz_step_over. intros Hi Hs Hh.
  apply schedulable_app in Hs as [HsE HsH].
  apply schedulable_app in HsE as [HsE _].
  apply schedulable_app in HsH as [HsH _].
  set (blkE := trE ++ [IncN (1 # 2); SetT]) in *.
  assert (HeP : e_phase TEzFDTD s blkE (run blkE s) None).
  { unfold blkE. rewrite run_app.
    apply (seq_intro (fork_join [m_update Ex; m_update Ey])
             (advance (1 # 2)) s _ (run trE s)).
    - by repeat split.
    - apply advance_intro. }
  pose proof (e_phase_static _ _ _ _ _ HeP) as Hst.
  rewrite (method_body_static _ _ _ Hst) in Hh.
  set (sE := run blkE s) in *.
  set (body := (method_body (m_update Hz) sE).1) in *.
  assert (HhP : h_phase TEzFDTD sE (body ++ [IncN (1 # 2); IncT])
                  (run (body ++ [IncN (1 # 2); IncT]) sE) None).
  { rewrite run_app.
    apply (seq_intro (call (m_update Hz)) _ sE _ (run body sE)).
    - pose proof (call_intro (m_update Hz) sE HsH) as Hc.
      by rewrite Hh in Hc.
    - apply (seq_intro (act (IncN (1 # 2))) (act IncT) (run body sE)
               [IncN (1 # 2)] (exec (IncN (1 # 2)) (run body sE)) [IncT]);
        by repeat split. }
  rewrite (run_app blkE).
  exact (seq_intro (e_phase TEzFDTD) (h_phase TEzFDTD) s _ _ _ _ None HeP HhP).
Qed.

(** ** A failed classification, for every class *)

(** X20. [init_material] of any class, when the classifier finds no
    object for a cell of one of the class's components: the call returns
    normally all the same; the thread of that component has died with
    the classification error of that cell; the component's grid holds
    the rules of the cells before it in the order of the pass and its
    other cells are as they were; and the component's lock stays held,
    so that no later call of [step] of the class returns normally, nor,
    for an electric component, in any other way. *)
Theorem init_material_failure_any_class k s tr s' r c pre idx0 post :
  init_material k s tr s' r ->
  c ∈ active k ->
  ndindex (arr_shape (field s c)) = pre ++ idx0 :: post ->
  (forall i, i ∈ pre -> is_Some (classify s c i)) ->
  classify s c idx0 = None ->
  r = None /\
  ThreadDied (m_init_material c)
    (ClassificationError (index_to_space (space s) c idx0)) ∈ tr /\
  (forall i, i ∈ pre -> material_grid s' c !! i = classify s c i) /\
  (forall i, i ∉ pre -> material_grid s' c !! i = material_grid s c !! i) /\
  lock s' c = true /\
  (forall tr2 s2, ~ step k s' tr2 s2 None) /\
  (c ∈ e_components k -> forall tr2 s2 r2, ~ step k s' tr2 s2 r2).
Proof.
  intros H Hc Hsplit Hpre Hfail.
  destruct (init_material_targets k)
    as (targets & Heq & Hkind & Hnd & Hfam & Hiff).
  rewrite Heq in H.
  pose proof (proj2 (Hiff c) Hc) as Hin.
  destruct (classified_prefix_stops s c pre idx0 post Hpre Hfail)
    as [Hcells Hfirst].
  rewrite <- Hsplit in Hcells, Hfirst.
  assert (Hheld : lock s' c = true).
  { rewrite (init_material_lock targets s tr s' r c Hkind Hnd Hfam Hin H).
    by rewrite Hfirst. }
  split; [apply H|]. split; [|split; [|split; [|split; [|split]]]].
  - destruct H as (Hi & _).
    apply (interleave_elem_of _ _ _ Hi).
    exists (thread (m_init_material c) s). split.
    + apply list_elem_of_fmap. by exists (m_init_material c).
    + rewrite init_material_thread, Hfirst.
      do 2 right. apply elem_of_app. right. by left.
  - intros i Hi.
    rewrite (init_material_grid targets s tr s' r c i Hkind Hnd Hfam Hin H).
    rewrite Hcells. by rewrite decide_True.
  - intros i Hi.
    rewrite (init_material_grid targets s tr s' r c i Hkind Hnd Hfam Hin H).
    rewrite Hcells. by rewrite decide_False.
  - done.
  - intros tr2 s2. by apply (step_blocked k s' c).
  - intros HcE tr2 s2 r2. by apply (step_blocked_electric k s' c).
Qed.

(** ** The constructor returns *)

Lemma deepcopy_items_total items :
  forall (h : Heap) (memo : gmap loc loc),
    Forall (fun x => is_Some (deref_geom h x) \/ is_Some (deref_src h x))
      items ->
    is_Some (deepcopy_items h memo items).
Proof.
  induction items as [|x rest IH]; intros h memo Hall; [by eexists|].
  apply Forall_cons in Hall as [Hx Hall].
  assert (Hmono : forall o,
    Forall (fun x => is_Some (deref_geom (alloc h o).1 x) \/
                     is_Some (deref_src (alloc h o).1 x)) rest).
  { intros o. eapply Forall_impl; [exact Hall|]. intros y Hy.
    assert (Hdom : y ∈ dom h).
    { apply elem_of_dom. unfold deref_geom, deref_src in Hy.
      destruct (h !! y); [by eexists|].
      destruct Hy as [[? ?]|[? ?]]; discriminate. }
    unfold deref_geom, deref_src. by rewrite alloc_lookup. }
  cbn [deepcopy_items]. destruct (memo !! x) as [y|].
  - destruct (IH h memo Hall) as [r ->]. by eexists.
  - unfold deref_geom, deref_src in Hx.
    destruct (h !! x) as [[items'|g|so]|].
    + destruct Hx as [[? ?]|[? ?]]; discriminate.
    + cbn zeta.
      destruct (IH _ (<[x := (alloc h (GeomInst g)).2]> memo)
                  (Hmono (GeomInst g))) as [r ->].
      by eexists.
    + cbn zeta.
      destruct (IH _ (<[x := (alloc h (SrcInst so)).2]> memo)
                  (Hmono (SrcInst so))) as [r ->].
      by eexists.
    + destruct Hx as [[? ?]|[? ?]]; discriminate.
Qed.

Lemma deepcopy_total (h : Heap) lst items :
  h !! lst = Some (ListObj items) ->
  Forall (fun x => is_Some (deref_geom h x) \/ is_Some (deref_src h x))
    items ->
  is_Some (deepcopy h lst).
Proof.
  intros Hlst Hall. unfold deepcopy. rewrite Hlst.
  destruct (deepcopy_items_total items h ∅ Hall) as [r ->]. by eexists.
Qed.

(** [deepcopy], with or without repeated elements: every element of
    the copy holds what the element of the original at its place
    held. *)
Lemma deepcopy_copies (h : Heap) lst items h1 lst1 :
  h !! lst = Some (ListObj items) ->
  Forall (fun x => x ∈ dom h) items ->
  deepcopy h lst = Some (h1, lst1) ->
  exists ys,
    h1 !! lst1 = Some (ListObj ys) /\
    (forall l, l ∈ lst1 :: ys -> l ∉ dom h) /\
    (forall l, l ∈ dom h -> h1 !! l = h !! l) /\
    Forall2 (fun x y => h1 !! y = h !! x) items ys.
Proof.
  intros Hlst Hitems Hcp.
  destruct (deepcopy_fresh _ _ _ _ Hcp) as (_ & Hkeep & ys & Hl1 & Hfresh).
  exists ys. split; [done|]. split; [done|]. split; [done|].
  unfold deepcopy in Hcp. rewrite Hlst in Hcp.
  destruct (deepcopy_items h ∅ items) as [[[h2 memo] ys']|] eqn:Hci;
    [|discriminate].
  cbn [mbind option_bind fst snd] in Hcp. apply (inj Some) in Hcp.
  assert (h1 = (alloc h2 (ListObj ys')).1) as -> by (by rewrite Hcp).
  assert (lst1 = (alloc h2 (ListObj ys')).2) as -> by (by rewrite Hcp).
  clear Hcp.
  assert (ys' = ys) as ->.
  { unfold alloc in Hl1. cbn [fst snd] in Hl1.
    rewrite lookup_insert_eq in Hl1. congruence. }
  assert (Hm0 : memo_ok h h ∅) by (split; intros; simplify_map_eq).
  destruct (deepcopy_items_spec h items h ∅ h2 memo ys) as
    (Hd & Hl & [Hm1 Hm2] & _ & Hall); try done.
  eapply Forall2_impl; [exact Hall|].
  intros x y Hm. destruct (Hm1 _ _ Hm) as (Hy1 & _ & Hy3).
  by rewrite alloc_lookup.
Qed.

Lemma fold_alter_kind (F : Obj -> Obj) (P : Obj -> Prop) ys (h : Heap) y o :
  (forall o, P o -> P (F o)) ->
  h !! y = Some o -> P o ->
  exists o', fold_left (fun h x => alter F x h) ys h !! y = Some o' /\ P o'.
Proof.
  intros HF. revert h o. induction ys as [|x ys IH]; intros h o Hy Ho.
  - by exists o.
  - simpl. destruct (decide (x = y)) as [->|Hne].
    + apply (IH _ (F o)); [by rewrite lookup_alter_eq, Hy|by apply HF].
    + apply (IH _ o); [by rewrite lookup_alter_ne|done].
Qed.

(** Lines 38 to 52 of [__init__] go through when [geom_list] is a list
    of geometric objects and [src_list] a list of sources. *)
Lemma init_lists_total h sp gl sl geoms srcs :
  deref_geom_list h gl = Some geoms ->
  deref_src_list h sl = Some srcs ->
  exists h' gl' sl' tree srcs',
    init_lists h sp gl sl = Some (h', gl', sl', tree) /\
    deref_src_list h' sl' = Some srcs'.
Proof.
  intros Hg Hs. unfold deref_geom_list, deref_src_list, deref_items in Hg, Hs.
  destruct (h !! gl) as [[gitems|?|?]|] eqn:Hgl; try discriminate.
  destruct (h !! sl) as [[sitems|?|?]|] eqn:Hsl; try discriminate.
  cbn [mbind option_bind] in Hg, Hs.
  apply mapM_Some in Hg. apply mapM_Some in Hs.
  pose proof (Forall2_deref_dom deref_geom GeomInst h gitems geoms
                deref_geom_Some Hg) as Hgdom.
  pose proof (Forall2_deref_dom deref_src SrcInst h sitems srcs
                deref_src_Some Hs) as Hsdom.
  assert (Hgk : Forall (fun x => exists g, h !! x = Some (GeomInst g)) gitems).
  { apply Forall_forall. intros x Hx.
    apply list_elem_of_lookup in Hx as [i Hi].
    destruct (Forall2_lookup_l _ _ _ _ _ Hg Hi) as (g & _ & Hxg).
    exists g. by apply deref_geom_Some. }
  assert (Hsk : Forall (fun x => exists so, h !! x = Some (SrcInst so)) sitems).
  { apply Forall_forall. intros x Hx.
    apply list_elem_of_lookup in Hx as [i Hi].
    destruct (Forall2_lookup_l _ _ _ _ _ Hs Hi) as (so & _ & Hxs).
    exists so. by apply deref_src_Some. }
  (* the copy of the geometry list *)
  destruct (deepcopy_total h gl gitems Hgl) as [[h1 gl1] Hc1].
  { eapply Forall_impl; [exact Hgk|]. intros x [g Hx]. left.
    exists g. by apply deref_geom_Some. }
  destruct (deepcopy_copies h gl gitems h1 gl1 Hgl Hgdom Hc1)
    as (ys1 & Hl1 & Hfresh1 & Hkeep1 & Hall1).
  set (Fg := fun o => match o with
                      | GeomInst g => GeomInst (geom_init sp g) | _ => o end).
  set (h2 := fold_left (fun h x => alter Fg x h) ys1 h1).
  assert (Hl2 : h2 !! gl1 = Some (ListObj ys1))
    by (by apply fold_alter_list).
  assert (Hkeep2 : forall l, l ∈ dom h -> h2 !! l = h !! l).
  { intros l Hl. unfold h2. rewrite fold_alter_other; [by apply Hkeep1|].
    intros Hin. apply (Hfresh1 l); [by right|done]. }
  assert (Hg2 : is_Some (mapM (deref_geom h2) ys1)).
  { apply mapM_is_Some, Forall_forall. intros y Hy.
    apply list_elem_of_lookup in Hy as [i Hi].
    destruct (Forall2_lookup_r _ _ _ _ _ Hall1 Hi) as (x & Hx & Hyx).
    rewrite Forall_forall in Hgk.
    destruct (Hgk x (list_elem_of_lookup_2 _ _ _ Hx)) as [g Hxg].
    destruct (fold_alter_kind Fg (fun o => exists g, o = GeomInst g)
                ys1 h1 y (GeomInst g)) as (o' & Ho' & g' & ->).
    - intros o [g0 ->]. by eexists.
    - by rewrite Hyx.
    - by eexists.
    - exists g'. by apply deref_geom_Some. }
  destruct Hg2 as [geoms2 Hg2].
  (* the copy of the source list *)
  assert (Hsl2 : h2 !! sl = Some (ListObj sitems)).
  { rewrite Hkeep2; [done|]. apply elem_of_dom. by eexists. }
  assert (Hsk2 : Forall (fun x => exists so, h2 !! x = Some (SrcInst so)) sitems).
  { rewrite Forall_forall in Hsk, Hsdom. apply Forall_forall.
    intros x Hx. destruct (Hsk x Hx) as [so Hso]. exists so.
    by rewrite Hkeep2 by (by apply Hsdom). }
  destruct (deepcopy_total h2 sl sitems Hsl2) as [[h3 sl1] Hc2].
  { eapply Forall_impl; [exact Hsk2|]. intros x [so Hx]. right.
    exists so. by apply deref_src_Some. }
  assert (Hsdom2 : Forall (fun x => x ∈ dom h2) sitems).
  { eapply Forall_impl; [exact Hsk2|]. intros x [so Hx].
    apply elem_of_dom. by eexists. }
  destruct (deepcopy_copies h2 sl sitems h3 sl1 Hsl2 Hsdom2 Hc2)
    as (ys3 & Hl3 & Hfresh3 & Hkeep3 & Hall3).
  set (tree := GeomBoxTree geoms2).
  set (Fs := fun o => match o with
                      | SrcInst so => SrcInst (src_init tree sp so) | _ => o end).
  set (h4 := fold_left (fun h x => alter Fs x h) ys3 h3).
  assert (Hl4 : h4 !! sl1 = Some (ListObj ys3))
    by (by apply fold_alter_list).
  assert (Hs4 : is_Some (mapM (deref_src h4) ys3)).
  { apply mapM_is_Some, Forall_forall. intros y Hy.
    apply list_elem_of_lookup in Hy as [i Hi].
    destruct (Forall2_lookup_r _ _ _ _ _ Hall3 Hi) as (x & Hx & Hyx).
    rewrite Forall_forall in Hsk2.
    destruct (Hsk2 x (list_elem_of_lookup_2 _ _ _ Hx)) as [so Hxs].
    destruct (fold_alter_kind Fs (fun o => exists so, o = SrcInst so)
                ys3 h3 y (SrcInst so)) as (o' & Ho' & so' & ->).
    - intros o [so0 ->]. by eexists.
    - by rewrite Hyx.
    - by eexists.
    - exists so'. by apply deref_src_Some. }
  destruct Hs4 as [srcs4 Hs4].
  exists h4, gl1, sl1, tree, srcs4. split.
  - assert (Hi1 : deref_items h1 gl1 = Some ys1)
      by (unfold deref_items; by rewrite Hl1).
    assert (Hi3 : deref_items h3 sl1 = Some ys3)
      by (unfold deref_items; by rewrite Hl3).
    assert (Hd2 : deref_geom_list h2 gl1 = Some geoms2).
    { unfold deref_geom_list, deref_items. by rewrite Hl2. }
    unfold init_lists. rewrite Hc1. cbn [mbind option_bind fst snd].
    rewrite Hi1. cbn [mbind option_bind fst snd].
    change (fold_left (init_geom_at sp) ys1 h1) with h2.
    rewrite Hd2. cbn [mbind option_bind fst snd].
    rewrite Hc2. cbn [mbind option_bind fst snd].
    rewrite Hi3. cbn [mbind option_bind fst snd]. done.
  - unfold deref_src_list, deref_items. rewrite Hl4.
    cbn [mbind option_bind]. done.
Qed.

Lemma init_source_total k s : exists tr s', init_source k s tr s' None.
Proof.
  destruct k; eexists _, _; apply fork_join_total;
    first [ solve_targets
          | intros m c Hm Hc;
            repeat (apply elem_of_cons in Hm as [->|Hm]; [discriminate Hc|]);
            by apply elem_of_nil in Hm ].
Qed.

Lemma construct_total k h sp gl sl geoms srcs :
  deref_geom_list h gl = Some geoms ->
  deref_src_list h sl = Some srcs ->
  exists h' e tr, construct k h sp gl sl h' e tr None.
Proof.
  intros Hg Hs.
  destruct (init_lists_total h sp gl sl geoms srcs Hg Hs)
    as (h' & gl' & sl' & tree & srcs' & Hinit & Hsrcs').
  destruct (init_material_total k (new_state sp tree srcs'))
    as (tr1 & s1 & H1); [done|].
  destruct (init_source_total k s1) as (tr2 & s2 & H2).
  exists h', (mkEngine gl' sl' s2), (tr1 ++ tr2), tree, srcs'.
  split; [done|]. split; [done|]. by eapply seq_intro.
Qed.

(** X12. Called with a geometry list that is a list of geometric
    objects of the caller's store and a source list that is a list of
    its sources, the constructor of any class returns normally: it has a
    run that ends without an exception, and so ends every run of it. What
    every run leaves: every object of the caller's store is as it was;
    the engine's source list is the copy it initialised; its cell widths
    and time step are those of the space; the counter and the time are
    zero; the arrays are as the space delivered them; nothing has been
    exported; and the grid and the lock of a component that is not one
    of the class's are as the space delivered the one and free the
    other. *)
Theorem construct_initial k h sp gl sl geoms srcs0 :
  deref_geom_list h gl = Some geoms ->
  deref_src_list h sl = Some srcs0 ->
  (exists h' e tr, construct k h sp gl sl h' e tr None) /\
  forall h' e tr r,
    construct k h sp gl sl h' e tr r ->
    r = None /\
    (forall l, l ∈ dom h -> h' !! l = h !! l) /\
    deref_src_list h' (self_src_list e) = Some (src_list (self_state e)) /\
    space (self_state e) = sp /\
    (st_dx (self_state e), st_dy (self_state e), st_dz (self_state e),
     st_dt (self_state e)) = (dx sp, dy sp, dz sp, dt sp) /\
    time_step (self_state e) = mkTime 0 0 /\
    (forall c, field (self_state e) c = get_storage sp c) /\
    hdf5_log (self_state e) = [] /\
    (forall c, c ∉ active k ->
       material_grid (self_state e) c = get_material_storage sp c /\
       lock (self_state e) c = false).
Proof.
  intros Hg0 Hs0. split; [by eapply construct_total|].
  intros h' e tr r.
  intros (tree & srcs & Hinit & Hsrcs & H).
  pose proof (build_inv _ _ _ _ _ H) as (Hr & s1 & tr1 & tr2 & H1 & H2 & _).
  pose proof (build_traces _ _ _ _ _ H) as [Hrun Hall].
  destruct (init_lists_owned _ _ _ _ _ _ _ _ Hinit) as [Hkeep _].
  destruct (run_config tr (new_state sp tree srcs))
    as (Hsp & Hdx & Hdy & Hdz & Hdt & _ & Hsl).
  rewrite <- Hrun in Hsp, Hdx, Hdy, Hdz, Hdt, Hsl.
  split; [done|]. split; [done|].
  split; [by rewrite Hsl|]. split; [done|].
  split; [by rewrite Hdx, Hdy, Hdz, Hdt|]. split.
  { rewrite Hrun. apply run_time_step.
    eapply Forall_impl; [exact Hall|].
    intros a (m & Hm & Ha) Ht. by destruct a. }
  split.
  { intros c. rewrite Hrun. apply run_field.
    eapply Forall_impl; [exact Hall|].
    intros a (m & Hm & Ha) Hc. destruct a; try done.
    simpl in Ha. subst m. done. }
  split.
  { rewrite Hrun. apply run_hdf5_log.
    eapply Forall_impl; [exact Hall|].
    intros a (m & Hm & Ha) Hx. destruct a; try done.
    simpl in Ha. subst m. done. }
  intros c Hc.
  destruct (init_material_frame k _ _ _ _ c H1 Hc) as [Hg1 Hl1].
  pose proof (init_source_grid k _ _ _ _ c H2) as Hg2.
  rewrite decide_False in Hg2 by done.
  pose proof (init_source_lock k _ _ _ _ c H2) as Hl2.
  split; [by rewrite Hg2, Hg1|by rewrite Hl2, Hl1].
Qed.

(** ** Sessions are inhabited *)

Lemma live_state_fix refs sl (h : Heap) s s1 :
  live_state refs sl h s = Some s ->
  geom_tree s1 = geom_tree s -> src_list s1 = src_list s ->
  live_state refs sl h s1 = Some s1.
Proof.
  unfold live_state. intros H Ht Hs.
  destruct (live_tree refs h) as [tree|]; [|done].
  destruct (deref_src_list h sl) as [srcs|]; [|done].
  cbn [mbind option_bind] in *. apply (inj Some) in H.
  assert (tree = geom_tree s1) as -> by (by rewrite Ht, <- H).
  assert (srcs = src_list s1) as -> by (by rewrite Hs, <- H).
  by destruct s1.
Qed.

Lemma invoke_run k c : traces_in (fun _ => True) (invoke k c).
Proof.
  destruct c; cbn [invoke].
  - destruct k; by apply traces_in_fork_join.
  - destruct k; by apply traces_in_fork_join.
  - eapply traces_in_weaken; [|apply step_traces]. done.
Qed.

(** A method of the engine returns from a state with a geometry that
    covers the cells, sources that only rewrite cells, free locks and a
    rule in every cell, and leaves such a state. *)
Lemma invoke_total k c s :
  (forall c, c ∈ active k -> covered s c) ->
  Forall preserves_cells (src_list s) ->
  (forall c, c ∈ active k -> lock s c = false) ->
  (forall c, c ∈ active k -> populated s c) ->
  exists tr s1,
    invoke k c s tr s1 None /\
    geom_tree s1 = geom_tree s /\ src_list s1 = src_list s /\
    (forall c, c ∈ active k -> covered s1 c) /\
    (forall c, c ∈ active k -> lock s1 c = false) /\
    (forall c, c ∈ active k -> populated s1 c).
Proof.
  intros Hcov Hsrc Hfree Hpop.
  assert (Hex : exists tr s1, invoke k c s tr s1 None).
  { destruct c; cbn [invoke].
    - by apply init_material_total.
    - apply init_source_total.
    - by apply step_total. }
  destruct Hex as (tr & s1 & H). exists tr, s1. split; [done|].
  pose proof (invoke_run k c _ _ _ _ H) as [Hrun _].
  destruct (run_config tr s) as (Hsp & _ & _ & _ & _ & Htree & Hsl).
  rewrite <- Hrun in Hsp, Htree, Hsl.
  split; [done|]. split; [done|]. split.
  { intros c' Hc'. rewrite Hrun. apply covered_run. by apply Hcov. }
  destruct c; cbn [invoke] in H.
  - split; intros c' Hc';
      by destruct (init_material_active k s tr s1 None c' H Hc' (Hcov c' Hc'))
        as (_ & ? & ?).
  - split; intros c' Hc'.
    + rewrite (init_source_lock k s tr s1 None c' H). by apply Hfree.
    + intros idx Hidx.
      rewrite (init_source_grid k s tr s1 None c' H), decide_True by done.
      apply overlays_keep_cells; [done|].
      apply Hpop; [done|]. by rewrite Hrun, run_shape in Hidx.
  - by apply (step_keeps_ready k s tr s1).
Qed.

Lemma session_total k refs sl (h : Heap) calls :
  forall s,
    live_state refs sl h s = Some s ->
    (forall c, c ∈ active k -> covered s c) ->
    Forall preserves_cells (src_list s) ->
    (forall c, c ∈ active k -> lock s c = false) ->
    (forall c, c ∈ active k -> populated s c) ->
    exists tr s', session k refs sl (Invoke <$> calls) h s tr s' None.
Proof.
  induction calls as [|c calls IH]; intros s Hlive Hcov Hsrc Hfree Hpop.
  - by exists [], s.
  - destruct (invoke_total k c s Hcov Hsrc Hfree Hpop)
      as (tr1 & s1 & H & Htree & Hsl & Hcov1 & Hfree1 & Hpop1).
    destruct (IH s1) as (tr2 & s2 & Hrest); try done.
    { by eapply live_state_fix. }
    { by rewrite Hsl. }
    exists (tr1 ++ tr2), s2. rewrite fmap_cons. cbn [session].
    exists s. split; [done|]. left. by exists s1, tr1, tr2.
Qed.

(** Whatever a caller does to its own objects between the calls, the
    calls on an engine built over a covering geometry, with sources
    that only rewrite cells, return. *)
Lemma constructed_session_total k h sp gl sl h' e tr r evs :
  construct k h sp gl sl h' e tr r ->
  (forall c, c ∈ active k -> covered (self_state e) c) ->
  Forall preserves_cells (src_list (self_state e)) ->
  Forall (caller_event h) evs ->
  exists tr' s',
    session k (tree_refs h' e) (self_src_list e) evs h' (self_state e)
      tr' s' None.
Proof.
  intros Hc Hcov Hsrc Hevs.
  pose proof (construct_live _ _ _ _ _ _ _ _ _ Hc) as Hlive.
  pose proof Hc as (tree & srcs & Hinit & _ & H).
  destruct (init_lists_owned _ _ _ _ _ _ _ _ Hinit) as [_ Hown].
  pose proof (build_run _ _ _ _ _ H) as Hrun.
  assert (Hready : forall c, c ∈ active k ->
            populated (self_state e) c /\ lock (self_state e) c = false).
  { apply (build_ready k _ _ _ _ H).
    - intros c Hin. specialize (Hcov c Hin). rewrite Hrun in Hcov.
      by apply covered_run in Hcov.
    - rewrite Hrun in Hsrc.
      by destruct (run_config tr (new_state sp tree srcs))
        as (_ & _ & _ & _ & _ & _ & <-). }
  destruct (session_total k (tree_refs h' e) (self_src_list e) h'
              (calls_of evs) (self_state e)) as (tr' & s' & Hs); try done.
  { intros c Hin. by apply Hready. }
  { intros c Hin. by apply Hready. }
  exists tr', s'. unfold tree_refs.
  by apply (session_calls k h h' _ _ evs Hown Hevs h').
Qed.

End Engine.

(** ** The statements at the sample configuration *)

Lemma sample_schedulable count :
  (count <= 2)%nat ->
  schedulable sample_pw_update
    (sequential_steps sample_pw_update count sample_state) sample_state.
Proof.
  intros H. destruct count as [|[|[|count]]]; [| | |lia];
    vm_compute; repeat split.
Qed.

Lemma sample_step :
  step sample_pw_update FDTD sample_state
    (sequential_step sample_pw_update sample_state)
    (run sample_pw_update (sequential_step sample_pw_update sample_state)
       sample_state) None.
Proof. apply FDTD_step_sequential. vm_compute. repeat split. Qed.

Lemma sample_TEMx_step :
  step sample_pw_update TEMxFDTD sample_state
    (direct_step sample_pw_update Ey Hz sample_state)
    (run sample_pw_update (direct_step sample_pw_update Ey Hz sample_state)
       sample_state) None.
Proof.
  apply TEM_step_direct; [done| |done|done]. vm_compute. repeat split.
Qed.

Lemma sample_TEz_step :
  step sample_pw_update TEzFDTD sample_state
    (TEz_sequential_step sample_pw_update sample_state)
    (run sample_pw_update (TEz_sequential_step sample_pw_update sample_state)
       sample_state) None.
Proof.
  apply TEz_step_sequential; [|done]. vm_compute. repeat split.
Qed.

Lemma fresh_init_material :
  init_material sample_pw_update FDTD fresh_state
    (sequential
       [m_init_material Ex; m_init_material Ey; m_init_material Ez;
        m_init_material Hx; m_init_material Hy; m_init_material Hz]
       fresh_state)
    (run sample_pw_update
       (sequential
          [m_init_material Ex; m_init_material Ey; m_init_material Ez;
           m_init_material Hx; m_init_material Hy; m_init_material Hz]
          fresh_state) fresh_state) None.
Proof. apply fork_join_sequential. vm_compute. repeat split. Qed.

Lemma gap_init_material :
  init_material sample_pw_update FDTD gap_state
    (sequential
       [m_init_material Ex; m_init_material Ey; m_init_material Ez;
        m_init_material Hx; m_init_material Hy; m_init_material Hz]
       gap_state)
    (run sample_pw_update
       (sequential
          [m_init_material Ex; m_init_material Ey; m_init_material Ez;
           m_init_material Hx; m_init_material Hy; m_init_material Hz]
          gap_state) gap_state) None.
Proof. apply fork_join_sequential. vm_compute. repeat split. Qed.

Lemma sample_init_source :
  init_source sample_pw_update FDTD
    (sample_built sample_tree [sample_source "A"; sample_source "B"])
    (sequential
       [m_init_source Ex; m_init_source Ey; m_init_source Ez;
        m_init_source Hx; m_init_source Hy; m_init_source Hz]
       (sample_built sample_tree [sample_source "A"; sample_source "B"]))
    (run sample_pw_update
       (sequential
          [m_init_source Ex; m_init_source Ey; m_init_source Ez;
           m_init_source Hx; m_init_source Hy; m_init_source Hz]
          (sample_built sample_tree [sample_source "A"; sample_source "B"]))
       (sample_built sample_tree [sample_source "A"; sample_source "B"]))
    None.
Proof. apply fork_join_sequential. vm_compute. repeat split. Qed.

Lemma FDTD_phases_alternate_witness :
  @None Exn = None /\
  exists blocks : list (list Action * list Action),
    length blocks = 2%nat /\
    sequential_steps sample_pw_update 2 sample_state
      = concat ((fun b => b.1 ++ b.2) <$> blocks) /\
    Forall (fun b => phase_block m_update sample_state true b.1 /\
                     phase_block m_update sample_state false b.2) blocks.
Proof.
  apply (FDTD_phases_alternate sample_pw_update 2 sample_state
           (sequential_steps sample_pw_update 2 sample_state)
           (run sample_pw_update
              (sequential_steps sample_pw_update 2 sample_state) sample_state)
           None).
  apply FDTD_steps_sequential. apply sample_schedulable. lia.
Defined.

Lemma FDTD_update_wiring_witness :
  Forall (well_wired sample_state)
    (sequential_step sample_pw_update sample_state) /\
  forall c, populated sample_state c ->
    filter (is_call c) (sequential_step sample_pw_update sample_state)
      = expected_calls sample_state c.
Proof.
  exact (FDTD_update_wiring sample_pw_update sample_state _ _ _ sample_step).
Defined.

Lemma init_material_cells_witness :
  exists mo,
    material_grid
      (run sample_pw_update
         (sequential
            [m_init_material Ex; m_init_material Ey; m_init_material Ez;
             m_init_material Hx; m_init_material Hy; m_init_material Hz]
            fresh_state) fresh_state) Ex !! (0, 0, 0) = Some mo /\
    (is_dummy mo = true <-> on_boundary Ex (2, 2, 2) (0, 0, 0)) /\
    (on_boundary Ex (2, 2, 2) (0, 0, 0) -> mo = Dummy Ex (0, 0, 0) 1) /\
    (~ on_boundary Ex (2, 2, 2) (0, 0, 0) ->
     exists g,
       sample_tree (sample_coord Ex (0, 0, 0)) = Some g /\
       mo = Pointwise (material g) Ex (0, 0, 0) (sample_coord Ex (0, 0, 0))).
Proof.
  apply (init_material_cells sample_pw_update fresh_state _ _ None Ex (0, 0, 0)
           fresh_init_material).
  - intros idx _ _. by eexists.
  - apply (bool_decide_unpack _). by vm_compute.
Defined.

Lemma TEM_step_counter_witness :
  exists s1 tr1 tr2,
    e_phase sample_pw_update TEMxFDTD sample_state tr1 s1 None /\
    h_phase sample_pw_update TEMxFDTD s1 tr2
      (run sample_pw_update (direct_step sample_pw_update Ey Hz sample_state)
         sample_state) None /\
    direct_step sample_pw_update Ey Hz sample_state = tr1 ++ tr2 /\
    n (time_step s1) = (n (time_step sample_state) + 5)%Q /\
    n (time_step
         (run sample_pw_update
            (direct_step sample_pw_update Ey Hz sample_state) sample_state))
      = (n (time_step s1) + 5)%Q /\
    (n (time_step
          (run sample_pw_update
             (direct_step sample_pw_update Ey Hz sample_state) sample_state))
       == n (time_step sample_state) + 10)%Q /\
    ~ (n (time_step
            (run sample_pw_update
               (direct_step sample_pw_update Ey Hz sample_state) sample_state))
         == n (time_step sample_state) + 1)%Q.
Proof.
  apply (TEM_step_counter sample_pw_update TEMxFDTD sample_state _ _);
    [by eexists|exact sample_TEMx_step].
Defined.

Lemma TEz_step_time_witness :
  let s' := run sample_pw_update
              (TEz_sequential_step sample_pw_update sample_state)
              sample_state in
  (t (time_step s') == n (time_step s') * st_dt s' + (1 # 2) * st_dt s')%Q /\
  (~ (st_dt sample_state == 0)%Q ->
   ~ (t (time_step s') == n (time_step s') * st_dt s')%Q).
Proof.
  exact (TEz_step_time sample_pw_update sample_state _ _ sample_TEz_step).
Defined.

Lemma init_source_in_order_witness :
  let s := sample_built sample_tree [sample_source "A"; sample_source "B"] in
  let s' := run sample_pw_update
              (sequential
                 [m_init_source Ex; m_init_source Ey; m_init_source Ez;
                  m_init_source Hx; m_init_source Hy; m_init_source Hz] s) s in
  material_grid s' Ex =
    fold_left (fun g so => set_pointwise_source so Ex (space s) g)
      (src_list s) (material_grid s Ex) /\
  forall A B, src_list s = [A; B] ->
    material_grid s' Ex =
      set_pointwise_source B Ex (space s)
        (set_pointwise_source A Ex (space s) (material_grid s Ex)).
Proof.
  exact (init_source_in_order sample_pw_update _ _ _ _ Ex sample_init_source).
Defined.

Lemma TEM_step_trace_witness :
  let s' := run sample_pw_update
              (direct_step sample_pw_update Ey Hz sample_state)
              sample_state in
  is_electric Ey = true /\ is_electric Hz = false /\
  direct_step sample_pw_update Ey Hz sample_state =
    (method_body (m_update Ey) sample_state).1 ++ [IncN 5; SetT] ++
    (method_body (m_update Hz) sample_state).1 ++ [IncN 5; SetT] /\
  (forall c, c <> Ey -> c <> Hz -> field s' c = field sample_state c) /\
  (n (time_step s') == n (time_step sample_state) + 10)%Q.
Proof.
  exact (TEM_step_trace sample_pw_update TEMxFDTD Ey Hz sample_state _ _
           eq_refl sample_TEMx_step).
Defined.

Lemma init_material_swallows_failure :
  let tr := sequential
              [m_init_material Ex; m_init_material Ey; m_init_material Ez;
               m_init_material Hx; m_init_material Hy; m_init_material Hz]
              gap_state in
  let s' := run sample_pw_update tr gap_state in
  geom_tree gap_state (index_to_space (space gap_state) Ex (1, 0, 0)) = None /\
  init_material sample_pw_update FDTD gap_state tr s' None /\
  is_Some (material_grid s' Ex !! (0, 0, 0)) /\
  material_grid s' Ex !! (1, 0, 0) = None /\
  lock s' Ex = true.
Proof.
  split; [reflexivity|]. split; [exact gap_init_material|].
  split; [by vm_compute; eexists|]. split; by vm_compute.
Qed.

Lemma init_material_failure_witness :
  let tr := sequential
              [m_init_material Ex; m_init_material Ey; m_init_material Ez;
               m_init_material Hx; m_init_material Hy; m_init_material Hz]
              gap_state in
  let s' := run sample_pw_update tr gap_state in
  let pre := [(0, 0, 0); (0, 0, 1); (0, 1, 0); (0, 1, 1)] in
  @None Exn = None /\
  ThreadDied (m_init_material Ex)
    (ClassificationError (index_to_space (space gap_state) Ex (1, 0, 0))) ∈ tr /\
  (forall i, i ∈ pre -> material_grid s' Ex !! i = classify gap_state Ex i) /\
  (forall i, i ∉ pre ->
     material_grid s' Ex !! i = material_grid gap_state Ex !! i) /\
  lock s' Ex = true /\
  (forall tr2 s2 r2, ~ step sample_pw_update FDTD s' tr2 s2 r2).
Proof.
  apply (init_material_failure sample_pw_update gap_state _ _ None Ex
           [(0, 0, 0); (0, 0, 1); (0, 1, 0); (0, 1, 1)] (1, 0, 0)
           [(1, 0, 1); (1, 1, 0); (1, 1, 1)] gap_init_material).
  - reflexivity.
  - intros i Hi.
    repeat (apply elem_of_cons in Hi as [->|Hi]; [by vm_compute; eexists|]).
    by apply elem_of_nil in Hi.
  - reflexivity.
Defined.

Lemma FDTD_step_exports_witness :
  let s' := run sample_pw_update
              (sequential_step sample_pw_update sample_state) sample_state in
  hdf5_log s' =
    hdf5_log sample_state ++
      [mkHdf5 (field s' Ex) EmptyString (0, 0, 0) (3, 3, 3)].
Proof.
  destruct (FDTD_step_exports sample_pw_update sample_state _ _ _ sample_step)
    as (blkE & blkH & _ & _ & _ & _ & _ & _ & _ & _ & _ & Hlog).
  exact Hlog.
Defined.

Lemma sample_construct :
  let r := default (∅, 0%nat, 0%nat, fun _ => None)
             (init_lists sample_geom_init sample_GeomBoxTree sample_src_init
                sample_heap sample_space 0%nat 1%nat) in
  let srcs := default [] (deref_src_list r.1.1.1 r.1.2) in
  let s0 := new_state sample_space r.2 srcs in
  construct sample_pw_update sample_geom_init sample_GeomBoxTree
    sample_src_init FDTD sample_heap sample_space 0%nat 1%nat r.1.1.1
    (mkEngine r.1.1.2 r.1.2
       (run sample_pw_update (sequential_build sample_pw_update s0) s0))
    (sequential_build sample_pw_update s0) None.
Proof.
  intros r srcs s0.
  apply FDTD_construct_sequential.
  - by vm_compute.
  - by vm_compute.
  - vm_compute. repeat split.
Qed.

Lemma deepcopy_isolates_witness :
  exists h' e tr,
    construct sample_pw_update sample_geom_init sample_GeomBoxTree
      sample_src_init FDTD sample_heap sample_space 0%nat 1%nat h' e tr None /\
    (forall l,
       l ∈ owned h' (self_geom_list e) ++ owned h' (self_src_list e) ->
       l ∉ dom sample_heap) /\
    (engine_view sample_GeomBoxTree (tree_refs h' e) h' e).2
      = Some (self_state e) /\
    engine_view sample_GeomBoxTree (tree_refs h' e)
        (mutate_all sample_mutations h') e
      = engine_view sample_GeomBoxTree (tree_refs h' e) h' e /\
    forall tr' s' r',
      session sample_pw_update sample_GeomBoxTree FDTD (tree_refs h' e)
        (self_src_list e) sample_events h' (self_state e) tr' s' r' <->
      session sample_pw_update sample_GeomBoxTree FDTD (tree_refs h' e)
        (self_src_list e) quiet_events h' (self_state e) tr' s' r'.
Proof.
  eexists _, _, _. split; [exact sample_construct|].
  assert (Hev : Forall (caller_event sample_heap) sample_events).
  { repeat constructor; apply (bool_decide_unpack _); by vm_compute. }
  assert (Hquiet : Forall (caller_event sample_heap) quiet_events).
  { by repeat constructor. }
  exact (deepcopy_isolates sample_pw_update sample_geom_init
           sample_GeomBoxTree sample_src_init _ _ _ _ _ _ _ _ _
           sample_events quiet_events sample_construct Hev Hquiet eq_refl).
Defined.

(** An engine that kept the caller's two lists instead of copies of
    them -- its attributes are the locations 0 and 1 of the caller's
    store -- would see what the caller does to them: the contents of its
    lists, the answers of its tree and the sources [init_source] applies
    all change with the sample mutations. *)
Lemma aliased_engine_sees_mutations :
  let e := mkEngine 0%nat 1%nat fresh_state in
  let refs := tree_refs sample_heap e in
  let before := engine_view sample_GeomBoxTree refs sample_heap e in
  let after :=
    engine_view sample_GeomBoxTree refs
      (mutate_all sample_mutations sample_heap) e in
  before.1.1 <> after.1.1 /\
  before.1.2 <> after.1.2 /\
  ((fun s => geom_tree s (0, 0, 0)%Q) <$> before.2)
    <> ((fun s => geom_tree s (0, 0, 0)%Q) <$> after.2) /\
  (src_list <$> before.2) <> (src_list <$> after.2).
Proof. vm_compute. repeat split; discriminate. Qed.

(** ** The further statements at the sample configuration *)

Lemma sample_populated c : populated sample_state c.
Proof.
  unfold populated. apply Forall_forall.
  destruct c; apply (bool_decide_unpack _); by vm_compute.
Qed.

Lemma sample_free c : lock sample_state c = false.
Proof. done. Qed.

Lemma sample_source_preserves tag : preserves_cells (sample_source tag).
Proof.
  intros c sp g idx [mo Hmo]. simpl.
  destruct (decide (idx = (0, 0, 0))) as [->|Hne].
  - rewrite lookup_alter_eq, Hmo. by eexists.
  - rewrite lookup_alter_ne by done. by eexists.
Qed.


Lemma fresh_TEMx_step :
  step sample_pw_update TEMxFDTD fresh_state [Acquire Ey]
    (run sample_pw_update [Acquire Ey] fresh_state)
    (Some (NoUpdateRule Ey (0, 0, 0))).
Proof.
  right. eexists. split; [|reflexivity].
  right. eexists. split; [|reflexivity].
  vm_compute. repeat split.
Qed.

Lemma sample_TEMx_steps :
  steps sample_pw_update TEMxFDTD 1 sample_state
    (direct_step sample_pw_update Ey Hz sample_state ++ [])
    (run sample_pw_update (direct_step sample_pw_update Ey Hz sample_state)
       sample_state) None.
Proof.
  apply (seq_intro (step sample_pw_update TEMxFDTD) skip
           sample_state _ _ [] _ None sample_TEMx_step).
  by repeat split.
Qed.

Lemma sample_TEz_alternating_step :
  let trE := alternate (thread (m_update Ex) sample_state)
               (thread (m_update Ey) sample_state) in
  step sample_pw_update TEzFDTD sample_state
    (TEz_step_over sample_pw_update trE sample_state)
    (run sample_pw_update (TEz_step_over sample_pw_update trE sample_state)
       sample_state) None.
Proof.
  intros trE. apply TEz_step_scheduled.
  - apply interleave_alternate.
  - vm_compute. repeat split.
  - done.
Qed.

Lemma fresh_TEMx_init_material :
  init_material sample_pw_update TEMxFDTD fresh_state
    (sequential [m_init_material Ey; m_init_material Hz] fresh_state)
    (run sample_pw_update
       (sequential [m_init_material Ey; m_init_material Hz] fresh_state)
       fresh_state) None.
Proof. apply fork_join_sequential. vm_compute. repeat split. Qed.

Lemma sample_TEMx_init_source :
  init_source sample_pw_update TEMxFDTD
    (sample_built sample_tree [sample_source "A"; sample_source "B"])
    (sequential [m_init_source Ey; m_init_source Hz]
       (sample_built sample_tree [sample_source "A"; sample_source "B"]))
    (run sample_pw_update
       (sequential [m_init_source Ey; m_init_source Hz]
          (sample_built sample_tree [sample_source "A"; sample_source "B"]))
       (sample_built sample_tree [sample_source "A"; sample_source "B"]))
    None.
Proof. apply fork_join_sequential. vm_compute. repeat split. Qed.

Lemma step_electric_before_magnetic_witness :
  exists blkE blkH,
    TEz_sequential_step sample_pw_update sample_state = blkE ++ blkH /\
    Forall (fun a => forall c, is_call c a ->
                       is_electric c = true /\ c ∈ e_components TEzFDTD)
      blkE /\
    Forall (fun a => forall c, is_call c a ->
                       is_electric c = false /\ c ∈ h_components TEzFDTD)
      blkH.
Proof.
  exact (step_electric_before_magnetic sample_pw_update TEzFDTD sample_state
           _ _ _ sample_TEz_step).
Defined.

Lemma step_wiring_witness :
  filter (is_call Ex) (TEz_sequential_step sample_pw_update sample_state) =
    (if decide (Ex ∈ active TEzFDTD)
     then expected_calls sample_state Ex else []) /\
  filter (is_call Hx) (TEz_sequential_step sample_pw_update sample_state) =
    (if decide (Hx ∈ active TEzFDTD)
     then expected_calls sample_state Hx else []).
Proof.
  split;
    apply (step_wiring sample_pw_update TEzFDTD sample_state _ _
             sample_TEz_step);
    intros c _; apply sample_populated.
Defined.

Lemma step_waits_on_held_lock_witness :
  let s := run sample_pw_update
             (sequential
                [m_init_material Ex; m_init_material Ey; m_init_material Ez;
                 m_init_material Hx; m_init_material Hy; m_init_material Hz]
                gap_state) gap_state in
  (forall tr s', ~ step sample_pw_update TEzFDTD s tr s' None) /\
  (Ex ∈ e_components TEzFDTD ->
   forall tr s' r, ~ step sample_pw_update TEzFDTD s tr s' r).
Proof.
  intros s.
  apply (step_waits_on_held_lock sample_pw_update TEzFDTD s Ex).
  - apply (bool_decide_unpack _). by vm_compute.
  - by vm_compute.
Defined.

Lemma direct_electric_hole_witness :
  let s' := run sample_pw_update [Acquire Ey] fresh_state in
  Some (NoUpdateRule Ey (0, 0, 0)) = Some (NoUpdateRule Ey (0, 0, 0)) /\
  [Acquire Ey] = Acquire Ey :: partial_calls fresh_state Ey /\
  time_step s' = time_step fresh_state /\
  lock s' Ey = true /\
  forall tr2 s2 r2, ~ step sample_pw_update TEMxFDTD s' tr2 s2 r2.
Proof.
  apply (direct_electric_hole sample_pw_update TEMxFDTD Ey (0, 0, 0)
           fresh_state _ _ _ eq_refl);
    [by vm_compute|exact fresh_TEMx_step].
Defined.

Lemma half_TEMx_step :
  let s := set_material_grid sample_state
             (fun c => if is_electric c then material_grid sample_state c
                       else ∅) in
  let trE := (method_body (m_update Ey) s).1 ++ [IncN 5; SetT] in
  step sample_pw_update TEMxFDTD s (trE ++ [Acquire Hz])
    (run sample_pw_update (trE ++ [Acquire Hz]) s)
    (Some (NoUpdateRule Hz (0, 0, 0))).
Proof.
  intros s trE. left.
  exists (run sample_pw_update trE s), trE, [Acquire Hz].
  split; [|split; [|done]].
  - apply call_then_advance; [vm_compute; repeat split|by vm_compute].
  - right. eexists. split; [|reflexivity]. vm_compute. repeat split.
Qed.

Lemma direct_magnetic_hole_witness :
  let s := set_material_grid sample_state
             (fun c => if is_electric c then material_grid sample_state c
                       else ∅) in
  let tr := ((method_body (m_update Ey) s).1 ++ [IncN 5; SetT])
              ++ [Acquire Hz] in
  let s' := run sample_pw_update tr s in
  Some (NoUpdateRule Hz (0, 0, 0)) = Some (NoUpdateRule Hz (0, 0, 0)) /\
  n (time_step s') = (n (time_step s) + increment TEMxFDTD)%Q /\
  lock s' Hz = true /\
  (forall c, c ∈ e_components TEMxFDTD ->
     filter (is_call c) tr = expected_calls s c) /\
  filter (is_call Hz) tr = partial_calls s Hz.
Proof.
  intros s tr s'.
  apply (direct_magnetic_hole sample_pw_update TEMxFDTD Hz (0, 0, 0) s tr s'
           _ eq_refl).
  - by vm_compute.
  - intros c Hc. apply list_elem_of_singleton in Hc as ->.
    unfold populated. apply Forall_forall.
    apply (bool_decide_unpack _). by vm_compute.
  - exact half_TEMx_step.
Defined.


Lemma steps_frame_witness :
  let s' := run sample_pw_update
              (direct_step sample_pw_update Ey Hz sample_state)
              sample_state in
  same_static sample_state s' /\
  (forall c, c ∉ active TEMxFDTD ->
     field s' c = field sample_state c /\ lock s' c = lock sample_state c) /\
  (reduced TEMxFDTD -> hdf5_log s' = hdf5_log sample_state).
Proof.
  exact (steps_frame sample_pw_update TEMxFDTD 1 sample_state _ _ _
           sample_TEMx_steps).
Defined.

Lemma steps_return_witness :
  (exists tr s', steps sample_pw_update TEzFDTD 3 sample_state tr s' None) /\
  (forall tr s', steps sample_pw_update TEzFDTD 3 sample_state tr s' None ->
     forall c, c ∈ active TEzFDTD -> lock s' c = false).
Proof.
  apply (steps_return sample_pw_update TEzFDTD 3 sample_state).
  - intros c _. apply sample_free.
  - intros c _. apply sample_populated.
Defined.

Lemma init_material_any_class_witness :
  (exists tr s', init_material sample_pw_update TEMxFDTD fresh_state tr s' None) /\
  forall tr s' r,
    init_material sample_pw_update TEMxFDTD fresh_state tr s' r ->
    r = None /\
    (Ey ∉ active TEMxFDTD ->
       material_grid s' Ey = material_grid fresh_state Ey /\
       lock s' Ey = lock fresh_state Ey) /\
    (Ey ∈ active TEMxFDTD -> covered fresh_state Ey ->
       (forall idx, idx ∈ ndindex (arr_shape (field fresh_state Ey)) ->
          material_grid s' Ey !! idx = classify fresh_state Ey idx) /\
       populated s' Ey /\ lock s' Ey = false).
Proof.
  apply (init_material_any_class sample_pw_update TEMxFDTD fresh_state Ey).
  intros c' _. reflexivity.
Defined.

Lemma init_source_any_class_witness :
  let s := sample_built sample_tree [sample_source "A"; sample_source "B"] in
  let tr := sequential [m_init_source Ey; m_init_source Hz] s in
  let s' := run sample_pw_update tr s in
  @None Exn = None /\
  lock s' Ey = lock s Ey /\
  material_grid s' Ey =
    if decide (Ey ∈ active TEMxFDTD)
    then fold_left (fun g so => set_pointwise_source so Ey (space s) g)
           (src_list s) (material_grid s Ey)
    else material_grid s Ey.
Proof.
  exact (init_source_any_class sample_pw_update TEMxFDTD _ _ _ _ Ey
           sample_TEMx_init_source).
Defined.

Lemma steps_counter_witness :
  let tr := direct_step sample_pw_update Ey Hz sample_state ++ [] in
  let s' := run sample_pw_update
              (direct_step sample_pw_update Ey Hz sample_state)
              sample_state in
  (n (time_step s') ==
     n (time_step sample_state)
     + inject_Z (Z.of_nat 1) * (2 * increment TEMxFDTD))%Q /\
  s' = run sample_pw_update tr sample_state /\
  forall tr1 tr2,
    tr = tr1 ++ tr2 ->
    binary64 (n (time_step (run sample_pw_update tr1 sample_state))).
Proof.
  apply (steps_counter sample_pw_update TEMxFDTD 1 sample_state _ _ 0
           sample_TEMx_steps).
  - reflexivity.
  - by vm_compute.
Defined.

Lemma step_schedule_independent_witness :
  let trE := alternate (thread (m_update Ex) sample_state)
               (thread (m_update Ey) sample_state) in
  let s1 := run sample_pw_update
              (TEz_sequential_step sample_pw_update sample_state)
              sample_state in
  let s2 := run sample_pw_update
              (TEz_step_over sample_pw_update trE sample_state)
              sample_state in
  (forall c, field s1 c = field s2 c) /\
  time_step s1 = time_step s2 /\
  (forall c, lock s1 c = lock s2 c) /\
  (forall c, material_grid s1 c = material_grid s2 c) /\
  hdf5_log s1 = hdf5_log s2.
Proof.
  intros trE s1 s2.
  apply (step_schedule_independent sample_pw_update TEzFDTD sample_state
           (TEz_sequential_step sample_pw_update sample_state) s1
           (TEz_step_over sample_pw_update trE sample_state) s2);
    [|exact sample_TEz_step|exact sample_TEz_alternating_step].
  intros c _. apply sample_populated.
Defined.

Lemma FDTD_steps_exports_witness :
  let s' := run sample_pw_update
              (sequential_steps sample_pw_update 2 sample_state)
              sample_state in
  exists recs,
    hdf5_log s' = hdf5_log sample_state ++ recs /\
    length recs = 2%nat /\
    Forall (fun rec =>
              h5_name rec = EmptyString /\ h5_low rec = (0, 0, 0) /\
              h5_high rec = succ_idx (arr_shape (field sample_state Ex)) /\
              arr_shape (h5_data rec) = arr_shape (field sample_state Ex))
      recs /\
    (forall rec, last recs = Some rec -> h5_data rec = field s' Ex).
Proof.
  apply (FDTD_steps_exports sample_pw_update 2 sample_state
           (sequential_steps sample_pw_update 2 sample_state) _ None).
  apply FDTD_steps_sequential. apply sample_schedulable. lia.
Defined.

Lemma sample_engine_sources :
  let r := default (∅, 0%nat, 0%nat, fun _ => None)
             (init_lists sample_geom_init sample_GeomBoxTree sample_src_init
                sample_heap sample_space 0%nat 1%nat) in
  default [] (deref_src_list r.1.1.1 r.1.2) = [sample_source "A"].
Proof. by vm_compute. Qed.

(** The sample session, with the caller's mutations between the calls,
    returns on the sample engine. *)
Lemma sample_session_returns :
  let r := default (∅, 0%nat, 0%nat, fun _ => None)
             (init_lists sample_geom_init sample_GeomBoxTree sample_src_init
                sample_heap sample_space 0%nat 1%nat) in
  let srcs := default [] (deref_src_list r.1.1.1 r.1.2) in
  let s0 := new_state sample_space r.2 srcs in
  let s := run sample_pw_update (sequential_build sample_pw_update s0) s0 in
  let e := mkEngine r.1.1.2 r.1.2 s in
  exists tr' s',
    session sample_pw_update sample_GeomBoxTree FDTD (tree_refs r.1.1.1 e)
      (self_src_list e) sample_events r.1.1.1 (self_state e) tr' s' None.
Proof.
  intros r srcs s0 s e.
  apply (constructed_session_total sample_pw_update sample_geom_init
           sample_GeomBoxTree sample_src_init FDTD sample_heap sample_space
           0%nat 1%nat r.1.1.1 e (sequential_build sample_pw_update s0) None
           sample_events sample_construct).
  - intros c _. apply covered_run. intros idx _ _.
    vm_compute. by eexists.
  - cbn [e self_state]. unfold s.
    destruct (run_config sample_pw_update
                (sequential_build sample_pw_update s0) s0)
      as (_ & _ & _ & _ & _ & _ & ->).
    cbn [s0 new_state src_list]. unfold srcs, r.
    rewrite sample_engine_sources.
    repeat constructor. apply sample_source_preserves.
  - repeat constructor; apply (bool_decide_unpack _); by vm_compute.
Qed.

Lemma constructed_engine_steps_witness :
  let r := default (∅, 0%nat, 0%nat, fun _ => None)
             (init_lists sample_geom_init sample_GeomBoxTree sample_src_init
                sample_heap sample_space 0%nat 1%nat) in
  let srcs := default [] (deref_src_list r.1.1.1 r.1.2) in
  let s0 := new_state sample_space r.2 srcs in
  let s := run sample_pw_update (sequential_build sample_pw_update s0) s0 in
  @None Exn = None /\
  (forall c, c ∈ active FDTD -> populated s c /\ lock s c = false) /\
  exists tr' s', steps sample_pw_update FDTD 2 s tr' s' None.
Proof.
  intros r srcs s0 s.
  apply (constructed_engine_steps sample_pw_update sample_geom_init
           sample_GeomBoxTree sample_src_init FDTD sample_heap sample_space
           0%nat 1%nat r.1.1.1 (mkEngine r.1.1.2 r.1.2 s)
           (sequential_build sample_pw_update s0) None 2 sample_construct).
  - intros c _. apply covered_run. intros idx _ _.
    vm_compute. by eexists.
  - cbn [self_state]. unfold s.
    destruct (run_config sample_pw_update
                (sequential_build sample_pw_update s0) s0)
      as (_ & _ & _ & _ & _ & _ & ->).
    cbn [s0 new_state src_list]. unfold srcs, r.
    rewrite sample_engine_sources.
    repeat constructor. apply sample_source_preserves.
Defined.

Lemma construct_initial_witness :
  (exists h' e tr,
     construct sample_pw_update sample_geom_init sample_GeomBoxTree
       sample_src_init FDTD sample_heap sample_space 0%nat 1%nat h' e tr
       None) /\
  forall h' e tr r,
    construct sample_pw_update sample_geom_init sample_GeomBoxTree
      sample_src_init FDTD sample_heap sample_space 0%nat 1%nat h' e tr r ->
    r = None /\
    (forall l, l ∈ dom sample_heap -> h' !! l = sample_heap !! l) /\
    deref_src_list h' (self_src_list e) = Some (src_list (self_state e)) /\
    space (self_state e) = sample_space /\
    (st_dx (self_state e), st_dy (self_state e), st_dz (self_state e),
     st_dt (self_state e)) =
      (dx sample_space, dy sample_space, dz sample_space, dt sample_space) /\
    time_step (self_state e) = mkTime 0 0 /\
    (forall c, field (self_state e) c = get_storage sample_space c) /\
    hdf5_log (self_state e) = [] /\
    (forall c, c ∉ active FDTD ->
       material_grid (self_state e) c = get_material_storage sample_space c /\
       lock (self_state e) c = false).
Proof.
  apply (construct_initial sample_pw_update sample_geom_init
           sample_GeomBoxTree sample_src_init FDTD sample_heap sample_space
           0%nat 1%nat
           [mkGeom "default"%string "vacuum"%string;
            mkGeom "rod"%string "glass"%string]
           [sample_source "A"]); by vm_compute.
Defined.

Lemma construct_lists_witness :
  let r := default (∅, 0%nat, 0%nat, fun _ => None)
             (init_lists sample_geom_init sample_GeomBoxTree sample_src_init
                sample_heap sample_space 0%nat 1%nat) in
  let srcs := default [] (deref_src_list r.1.1.1 r.1.2) in
  let s0 := new_state sample_space r.2 srcs in
  let s := run sample_pw_update (sequential_build sample_pw_update s0) s0 in
  let geoms := [mkGeom "default" "vacuum"; mkGeom "rod" "glass"] in
  deref_geom_list r.1.1.1 r.1.1.2 =
    Some (sample_geom_init sample_space <$> geoms) /\
  geom_tree s =
    sample_GeomBoxTree (sample_geom_init sample_space <$> geoms) /\
  src_list s =
    sample_src_init
      (sample_GeomBoxTree (sample_geom_init sample_space <$> geoms))
      sample_space <$> [sample_source "A"].
Proof.
  intros r srcs s0 s geoms.
  apply (construct_lists sample_pw_update sample_geom_init
           sample_GeomBoxTree sample_src_init FDTD sample_heap sample_space
           0%nat 1%nat r.1.1.1 (mkEngine r.1.1.2 r.1.2 s)
           (sequential_build sample_pw_update s0) None
           [2%nat; 3%nat] [4%nat] geoms [sample_source "A"]
           sample_construct).
  - by vm_compute.
  - by vm_compute.
  - by vm_compute.
  - by vm_compute.
  - apply (bool_decide_unpack _). by vm_compute.
  - apply (bool_decide_unpack _). by vm_compute.
Defined.

Lemma gap_TEz_init_material :
  init_material sample_pw_update TEzFDTD gap_state
    (sequential [m_init_material Ex; m_init_material Ey; m_init_material Hz]
       gap_state)
    (run sample_pw_update
       (sequential [m_init_material Ex; m_init_material Ey; m_init_material Hz]
          gap_state) gap_state) None.
Proof. apply fork_join_sequential. vm_compute. repeat split. Qed.

Lemma init_material_failure_any_class_witness :
  let tr := sequential
              [m_init_material Ex; m_init_material Ey; m_init_material Hz]
              gap_state in
  let s' := run sample_pw_update tr gap_state in
  let pre := [(0, 0, 0); (0, 0, 1); (0, 1, 0); (0, 1, 1)] in
  @None Exn = None /\
  ThreadDied (m_init_material Ex)
    (ClassificationError (index_to_space (space gap_state) Ex (1, 0, 0)))
    ∈ tr /\
  (forall i, i ∈ pre -> material_grid s' Ex !! i = classify gap_state Ex i) /\
  (forall i, i ∉ pre ->
     material_grid s' Ex !! i = material_grid gap_state Ex !! i) /\
  lock s' Ex = true /\
  (forall tr2 s2, ~ step sample_pw_update TEzFDTD s' tr2 s2 None) /\
  (Ex ∈ e_components TEzFDTD ->
   forall tr2 s2 r2, ~ step sample_pw_update TEzFDTD s' tr2 s2 r2).
Proof.
  apply (init_material_failure_any_class sample_pw_update TEzFDTD gap_state
           _ _ None Ex [(0, 0, 0); (0, 0, 1); (0, 1, 0); (0, 1, 1)] (1, 0, 0)
           [(1, 0, 1); (1, 1, 0); (1, 1, 1)] gap_TEz_init_material).
  - apply (bool_decide_unpack _). by vm_compute.
  - reflexivity.
  - intros i Hi.
    repeat (apply elem_of_cons in Hi as [->|Hi]; [by vm_compute; eexists|]).
    by apply elem_of_nil in Hi.
  - reflexivity.
Defined.
